(** * arlo-lapse: snapshot acquisition, retention purge and lapse assembly

    A shallow embedding of [src/arlo-lapse.py] (class [ArloLapse] and the
    script's main block) together with the properties of its three phases.

    Python objects are embedded as follows.
    - [str] is [string]; a character is an [ascii].
    - the instance [self] is a record, held in the program state because
      [get_snapshots] assigns one of its fields;
    - the file system is the list of the paths that exist, in the order in
      which a directory listing reports them;
    - exceptions are a result constructor, and what a method did before it
      raised stays in the state;
    - the camera service, the image library and the shell are an
      environment of answers, and every call to them is recorded in a
      trace. *)

From Stdlib Require Import ZArith Ascii String DecimalString SpecFloat Lia.
From stdpp Require Import base list strings gmap sorting.

Local Open Scope Z_scope.

(** ** Characters and strings *)

Module Chr.

Definition code (c : ascii) : Z := Z.of_nat (nat_of_ascii c).

Definition between (lo hi c : ascii) : bool :=
  (code lo <=? code c) && (code c <=? code hi).

(** [[0-9]] *)
Definition is_digit (c : ascii) : bool := between "0" "9" c.

(** [[a-zA-Z_]] *)
Definition is_word_alpha (c : ascii) : bool :=
  between "a" "z" c || between "A" "Z" c || Ascii.eqb c "_".

Definition digit_val (c : ascii) : Z := code c - 48.

End Chr.

Module Str.

(** The longest prefix of [s] whose characters satisfy [p], and the rest. *)
Fixpoint span (p : ascii → bool) (s : string) : string * string :=
  match s with
  | EmptyString => (EmptyString, EmptyString)
  | String c s' =>
      if p c then let '(a, b) := span p s' in (String c a, b)
      else (EmptyString, s)
  end.

Definition is_empty (s : string) : bool :=
  match s with EmptyString => true | _ => false end.

(** [strip_prefix p s] is [Some r] when [s = p ++ r]. *)
Fixpoint strip_prefix (p s : string) : option string :=
  match p, s with
  | EmptyString, _ => Some s
  | String a p', String b s' =>
      if Ascii.eqb a b then strip_prefix p' s' else None
  | String _ _, EmptyString => None
  end.

Fixpoint ends_with (suffix s : string) : bool :=
  String.eqb suffix s ||
  match s with
  | EmptyString => false
  | String _ s' => ends_with suffix s'
  end.

Fixpoint has_char (x : ascii) (s : string) : bool :=
  match s with
  | EmptyString => false
  | String c s' => Ascii.eqb x c || has_char x s'
  end.

Definition starts_with_char (x : ascii) (s : string) : bool :=
  match s with
  | String c _ => Ascii.eqb x c
  | EmptyString => false
  end.

(** [s.replace(' ', '_')] *)
Fixpoint replace_char (x y : ascii) (s : string) : string :=
  match s with
  | EmptyString => EmptyString
  | String c s' =>
      String (if Ascii.eqb c x then y else c) (replace_char x y s')
  end.

(** [sep.join(l)] *)
Fixpoint join (sep : string) (l : list string) : string :=
  match l with
  | [] => EmptyString
  | [x] => x
  | x :: l' => x +:+ sep +:+ join sep l'
  end.

(** [int(s)] on a string of decimal digits; a blank counts for nothing,
    as [int] strips it. *)
Definition int_of (s : string) : Z :=
  fold_left
    (λ acc c, if Ascii.eqb c " " then acc else acc * 10 + Chr.digit_val c)
    (list_ascii_of_string s) 0.

Fixpoint all_digits (s : string) : bool :=
  match s with
  | EmptyString => true
  | String c s' => Chr.is_digit c && all_digits s'
  end.

(** [str(n)] for a natural number. *)
Definition of_nat (n : nat) : string :=
  match n with
  | O => "0"
  | _ => DecimalString.NilEmpty.string_of_uint (Nat.to_uint n)
  end.

(** A number on [w] decimal digits, padded with zeros, as [strftime]
    prints a field. *)
Fixpoint pad_digits (w : nat) (n : Z) : string :=
  match w with
  | O => EmptyString
  | S w' =>
      pad_digits w' (n / 10) +:+
      String (ascii_of_nat (Z.to_nat (48 + n mod 10))) EmptyString
  end.

End Str.

(** ** The [datetime] module

    The parts of Python's [datetime] that the script uses: the calendar
    arithmetic of [datetime.py], comparison, [strftime] and [strptime] for
    the one format ['%Y%m%d%H%M%S'], and the subtraction of a [timedelta]
    built from a number of hours. *)

Module Datetime.

Record datetime := mkDT {
  year : Z; month : Z; day : Z;
  hour : Z; minute : Z; second : Z; microsecond : Z
}.

Definition MINYEAR : Z := 1.
Definition MAXYEAR : Z := 9999.
Definition MAXORDINAL : Z := 3652059.

Definition is_leap (y : Z) : bool :=
  (y mod 4 =? 0) && (negb (y mod 100 =? 0) || (y mod 400 =? 0)).

Definition DAYS_IN_MONTH : list Z :=
  [-1; 31; 28; 31; 30; 31; 30; 31; 31; 30; 31; 30; 31].

Definition DAYS_BEFORE_MONTH : list Z :=
  [-1; 0; 31; 59; 90; 120; 151; 181; 212; 243; 273; 304; 334].

Definition days_before_year (y : Z) : Z :=
  let y := y - 1 in y * 365 + y / 4 - y / 100 + y / 400.

Definition days_in_month (y m : Z) : Z :=
  if (m =? 2) && is_leap y then 29 else nth (Z.to_nat m) DAYS_IN_MONTH 0.

Definition days_before_month (y m : Z) : Z :=
  nth (Z.to_nat m) DAYS_BEFORE_MONTH 0 +
  (if (2 <? m) && is_leap y then 1 else 0).

Definition ymd2ord (y m d : Z) : Z :=
  days_before_year y + days_before_month y m + d.

Definition DI400Y : Z := Eval cbv in days_before_year 401.
Definition DI100Y : Z := Eval cbv in days_before_year 101.
Definition DI4Y : Z := Eval cbv in days_before_year 5.

Definition ord2ymd (n : Z) : Z * Z * Z :=
  let n := n - 1 in
  let n400 := n / DI400Y in let n := n mod DI400Y in
  let y := n400 * 400 + 1 in
  let n100 := n / DI100Y in let n := n mod DI100Y in
  let n4 := n / DI4Y in let n := n mod DI4Y in
  let n1 := n / 365 in let n := n mod 365 in
  let y := y + n100 * 100 + n4 * 4 + n1 in
  if (n1 =? 4) || (n100 =? 4) then (y - 1, 12, 31)
  else
    let leapyear := (n1 =? 3) && (negb (n4 =? 24) || (n100 =? 3)) in
    let m := Z.shiftr (n + 50) 5 in
    let preceding :=
      nth (Z.to_nat m) DAYS_BEFORE_MONTH 0 +
      (if (2 <? m) && leapyear then 1 else 0) in
    if n <? preceding then
      let m := m - 1 in
      let preceding :=
        preceding -
        (nth (Z.to_nat m) DAYS_IN_MONTH 0 +
         (if (m =? 2) && leapyear then 1 else 0)) in
      (y, m, n - preceding + 1)
    else (y, m, n - preceding + 1).

(** Comparison of two naive datetimes: the seven fields in order. *)
Definition fields (d : datetime) : list Z :=
  [year d; month d; day d; hour d; minute d; second d; microsecond d].

Fixpoint lex_compare (a b : list Z) : comparison :=
  match a, b with
  | [], [] => Eq
  | [], _ :: _ => Lt
  | _ :: _, [] => Gt
  | x :: a', y :: b' =>
      match x ?= y with
      | Eq => lex_compare a' b'
      | c => c
      end
  end.

Definition compare (a b : datetime) : comparison :=
  lex_compare (fields a) (fields b).

(** [a < b] *)
Definition ltb (a b : datetime) : bool :=
  match compare a b with Lt => true | _ => false end.

(** [a <= b] *)
Definition leb (a b : datetime) : bool :=
  match compare a b with Gt => false | _ => true end.

(** *** [timedelta] *)

Record timedelta := mkTD { td_days : Z; td_seconds : Z; td_microseconds : Z }.

(** The constructor normalises seconds into [0, 86400) and microseconds
    into [0, 10^6), and refuses more than 999999999 days
    ([OverflowError], here [None]). *)
Definition make_timedelta (days seconds microseconds : Z) : option timedelta :=
  let seconds := seconds + microseconds / 1000000 in
  let us := microseconds mod 1000000 in
  let days := days + seconds / 86400 in
  let s := seconds mod 86400 in
  if Z.abs days <=? 999999999 then Some (mkTD days s us) else None.

(** [timedelta(hours=h)] *)
Definition timedelta_hours (h : Z) : option timedelta :=
  make_timedelta 0 (h * 3600) 0.

(** [-t] *)
Definition td_neg (t : timedelta) : option timedelta :=
  make_timedelta (- td_days t) (- td_seconds t) (- td_microseconds t).

Definition toordinal (d : datetime) : Z := ymd2ord (year d) (month d) (day d).

(** [d + t], [OverflowError] (here [None]) when the day leaves
    [1 .. MAXORDINAL]. *)
Definition add (d : datetime) (t : timedelta) : option datetime :=
  delta ← make_timedelta
             (toordinal d + td_days t)
             (hour d * 3600 + minute d * 60 + second d + td_seconds t)
             (microsecond d + td_microseconds t);
  let h := td_seconds delta / 3600 in
  let rem := td_seconds delta mod 3600 in
  if (0 <? td_days delta) && (td_days delta <=? MAXORDINAL) then
    let '(y, m, dd) := ord2ymd (td_days delta) in
    Some (mkDT y m dd h (rem / 60) (rem mod 60) (td_microseconds delta))
  else None.

(** [d - t] is [d + -t]. *)
Definition sub (d : datetime) (t : timedelta) : option datetime :=
  td_neg t ≫= add d.

(** *** [strftime('%Y%m%d%H%M%S')] *)
Definition strftime (d : datetime) : string :=
  Str.pad_digits 4 (year d) +:+ Str.pad_digits 2 (month d) +:+
  Str.pad_digits 2 (day d) +:+ Str.pad_digits 2 (hour d) +:+
  Str.pad_digits 2 (minute d) +:+ Str.pad_digits 2 (second d).

(** *** [strptime(s, '%Y%m%d%H%M%S')]

    [_strptime] turns the format into a regular expression, one group per
    directive, matches it at the start of the string, and refuses a match
    that leaves characters over.  A regular expression is embedded as the
    list of its matches in the order in which the backtracking matcher
    tries them; the match it reports is the head of the list. *)

Definition re (A : Type) : Type := string → list (A * string).

Definition re_class (ok : ascii → bool) : re string :=
  λ s, match s with
       | String c s' => if ok c then [(String c EmptyString, s')] else []
       | EmptyString => []
       end.

Definition re_range (lo hi : ascii) : re string := re_class (Chr.between lo hi).
Definition re_lit (c : ascii) : re string := re_class (Ascii.eqb c).
Definition re_d : re string := re_class Chr.is_digit.

Definition re_seq (p q : re string) : re string :=
  λ s, '(a, s1) ← p s; '(b, s2) ← q s1; [(a +:+ b, s2)].

Definition re_alt (ps : list (re string)) : re string :=
  λ s, p ← ps; p s.

(** [\d\d\d\d] *)
Definition dir_Y : re string := re_seq re_d (re_seq re_d (re_seq re_d re_d)).
(** [1[0-2]|0[1-9]|[1-9]] *)
Definition dir_m : re string :=
  re_alt [re_seq (re_lit "1") (re_range "0" "2");
          re_seq (re_lit "0") (re_range "1" "9");
          re_range "1" "9"].
(** [3[0-1]|[1-2]\d|0[1-9]|[1-9]| [1-9]] *)
Definition dir_d : re string :=
  re_alt [re_seq (re_lit "3") (re_range "0" "1");
          re_seq (re_range "1" "2") re_d;
          re_seq (re_lit "0") (re_range "1" "9");
          re_range "1" "9";
          re_seq (re_lit " ") (re_range "1" "9")].
(** [2[0-3]|[0-1]\d|\d] *)
Definition dir_H : re string :=
  re_alt [re_seq (re_lit "2") (re_range "0" "3");
          re_seq (re_range "0" "1") re_d;
          re_d].
(** [[0-5]\d|\d] *)
Definition dir_M : re string :=
  re_alt [re_seq (re_range "0" "5") re_d; re_d].
(** [6[0-1]|[0-5]\d|\d] *)
Definition dir_S : re string :=
  re_alt [re_seq (re_lit "6") (re_range "0" "1");
          re_seq (re_range "0" "5") re_d;
          re_d].

Record groups := mkGroups {
  g_Y : string; g_m : string; g_d : string;
  g_H : string; g_M : string; g_S : string
}.

Definition format_regex : re groups :=
  λ s, '(gY, s) ← dir_Y s; '(gm, s) ← dir_m s; '(gd, s) ← dir_d s;
       '(gH, s) ← dir_H s; '(gM, s) ← dir_M s; '(gS, s) ← dir_S s;
       [(mkGroups gY gm gd gH gM gS, s)].

(** The constructor [datetime(y, m, d, H, M, S)] checks its arguments. *)
Definition make_datetime (y m d H M S : Z) : option datetime :=
  if (MINYEAR <=? y) && (y <=? MAXYEAR)
     && (1 <=? m) && (m <=? 12)
     && (1 <=? d) && (d <=? days_in_month y m)
     && (0 <=? H) && (H <=? 23)
     && (0 <=? M) && (M <=? 59)
     && (0 <=? S) && (S <=? 59)
  then Some (mkDT y m d H M S 0)
  else None.

(** [None] stands for the [ValueError] that [strptime] raises. *)
Definition strptime (s : string) : option datetime :=
  match format_regex s with
  | [] => None
  | (g, rest) :: _ =>
      if Str.is_empty rest then
        make_datetime (Str.int_of (g_Y g)) (Str.int_of (g_m g))
                      (Str.int_of (g_d g)) (Str.int_of (g_H g))
                      (Str.int_of (g_M g)) (Str.int_of (g_S g))
      else None
  end.

End Datetime.

Import Datetime.

(** ** The [re] and [glob] calls of the script *)

(** [re.search(r'([a-zA-Z_]+)([0-9]+)', s)]: the two groups of the leftmost
    match, [None] when there is none.  At a given start the first group
    takes the whole run of letters and underscores; giving characters back
    would leave a letter where the second group needs a digit, so there is
    a match at that start exactly when the run is not empty and a digit
    follows it.  The second group takes the whole run of digits. *)
Definition match_here (s : string) : option (string * string) :=
  let '(g1, r) := Str.span Chr.is_word_alpha s in
  if Str.is_empty g1 then None
  else
    let '(g2, _) := Str.span Chr.is_digit r in
    if Str.is_empty g2 then None else Some (g1, g2).

Fixpoint re_search (s : string) : option (string * string) :=
  match match_here s with
  | Some m => Some m
  | None =>
      match s with
      | EmptyString => None
      | String _ s' => re_search s'
      end
  end.

(** [glob.glob(prefix + '*.jpg')] over the paths that exist.  The prefix is
    the snapshot path followed by a camera name and is taken literally
    (no [*], [?] or [[] in it), and a path is returned as the string it
    was built with (no doubled slash for [glob] to fold): this is the
    listing for the prefixes that [plain] describes below.  The star stands
    for any characters of one directory entry, and an entry that starts
    with a dot is matched only when the pattern's last component starts
    with one. *)
Fixpoint basename (p : string) : string :=
  match p with
  | EmptyString => EmptyString
  | String c p' => if Str.has_char "/" p' || Ascii.eqb c "/" then basename p' else p
  end.

Definition glob_match (prefix path : string) : bool :=
  match Str.strip_prefix prefix path with
  | None => false
  | Some rest =>
      Str.ends_with ".jpg" rest
      && negb (Str.has_char "/" rest)
      && negb (Str.is_empty (basename prefix) && Str.starts_with_char "." rest)
  end.

Definition glob (prefix : string) (files : list string) : list string :=
  filter (λ path, glob_match prefix path = true) files.

(** ** Exceptions, state and the external world *)

Inductive exn : Type :=
| ValueError (msg : string)
| AttributeError          (* [match.group] on [None] *)
| OverflowError
| ZeroDivisionError
| FileNotFoundError
| IndexError
| TimeoutError            (* [timeout_decorator.TimeoutError] *)
| LibraryError (msg : string).  (* any other [Exception] of a library call *)

Inductive outcome (A : Type) : Type :=
| Ret (a : A)
| Raise (e : exn).
Arguments Ret {A} a.
Arguments Raise {A} e.

Definition is_timeout (e : exn) : bool :=
  match e with TimeoutError => true | _ => false end.

(** A device record of the camera service. *)
Record device := mkDevice { deviceName : string; deviceId : string }.

Inductive image : Type := ImageOf (file : string).

(** A Python [float]: an IEEE 754 double, as the Standard Library
    specifies it (a sign, a mantissa and an exponent of two). *)
Definition float : Type := spec_float.

(** [n / d] for two [int]: [ZeroDivisionError] when [d] is 0, otherwise the
    double nearest to the quotient, ties going to the even mantissa, and
    [OverflowError] when the quotient is beyond the largest double.  A
    quotient of 0 has the sign of the operands. *)
Definition int_true_divide (n d : Z) : outcome float :=
  if d =? 0 then Raise ZeroDivisionError
  else
    let negative := xorb (n <? 0) (d <? 0) in
    if n =? 0 then Ret (S754_zero negative)
    else
      let '(m, e, l) := SFdiv_core_binary 53 1024 (Z.abs n) 0 (Z.abs d) 0 in
      match binary_round_aux 53 1024 negative m e l with
      | S754_infinity _ => Raise OverflowError
      | q => Ret q
      end.
Arguments int_true_divide : simpl never.

Inductive level : Type := INFO | DEBUG | WARNING.

(** Calls that leave the process. *)
Inductive event : Type :=
| EvLogin (username password : string)
| EvGetDevices (kind : string)
| EvTrigger (basestation camera : device)
| EvDownload (url file : string)
| EvRemove (file : string)
| EvImread (file : string)
| EvMimwrite (output_file : string) (images : list image) (fps : float)
| EvSystem (command : string)
| EvPrint (e : exn).

(** The answers of the camera service and of the image library. *)
Record env := mkEnv {
  arlo_login : string → string → outcome unit;
  arlo_devices : string → outcome (list device);
  arlo_trigger : device → device → outcome (option string);
  arlo_download : string → string → outcome unit;
  imageio_imread : string → outcome unit;
  imageio_mimwrite : string → list image → float → outcome unit
}.

(** The attributes of an [ArloLapse] instance. *)
Record ArloLapse := mkArloLapse {
  username : string;
  password : string;
  camera_names : list string;
  lapse_path : string;
  snapshot_path : string;
  purge_duration_hours : Z;
  lapse_duration : Z
}.

Record world := mkWorld {
  w_fs : list string;
  w_log : list (level * string);
  w_trace : list event
}.

Record state := mkState { self : ArloLapse; wd : world }.

Definition fs (st : state) : list string := w_fs (wd st).
Definition log (st : state) : list (level * string) := w_log (wd st).
Definition trace (st : state) : list event := w_trace (wd st).

(** *** The monad of a method body *)

Definition M (A : Type) : Type := state → outcome A * state.

Global Instance M_ret : MRet M := λ A a st, (Ret a, st).
Global Instance M_bind : MBind M := λ A B f m st,
  match m st with
  | (Ret a, st') => f a st'
  | (Raise e, st') => (Raise e, st')
  end.

Definition raise {A} (e : exn) : M A := λ st, (Raise e, st).
Definition get_self : M ArloLapse := λ st, (Ret (self st), st).
Definition get_fs : M (list string) := λ st, (Ret (fs st), st).

(** An answer of the outside world enters the method as is. *)
Definition answer {A} (o : outcome A) : M A := λ st, (o, st).

(** [try: body  except Exception as e: handler(e)] *)
Definition try_except {A} (body : M A) (handler : exn → M A) : M A :=
  λ st, match body st with
        | (Ret a, st') => (Ret a, st')
        | (Raise e, st') => handler e st'
        end.

(** [try: body  except timeout_decorator.TimeoutError: handler] *)
Definition try_timeout {A} (body : M A) (handler : M A) : M A :=
  try_except body (λ e, if is_timeout e then handler else raise e).

(** [for x in l: body(x)] *)
Fixpoint for_each {A} (l : list A) (body : A → M unit) : M unit :=
  match l with
  | [] => mret tt
  | x :: l' => body x ;; for_each l' body
  end.

(** [[f(x) for x in l]] *)
Fixpoint map_M {A B} (f : A → M B) (l : list A) : M (list B) :=
  match l with
  | [] => mret []
  | x :: l' => y ← f x; ys ← map_M f l'; mret (y :: ys)
  end.

Definition on_world (f : world → world) : M unit :=
  λ st, (Ret tt, mkState (self st) (f (wd st))).

Definition log_w (lv : level) (msg : string) (w : world) : world :=
  mkWorld (w_fs w) (w_log w ++ [(lv, msg)]) (w_trace w).

Definition emit_w (ev : event) (w : world) : world :=
  mkWorld (w_fs w) (w_log w) (w_trace w ++ [ev]).

(** A file that is written exists afterwards. *)
Definition create_w (file : string) (w : world) : world :=
  mkWorld (if bool_decide (file ∈ w_fs w) then w_fs w else w_fs w ++ [file])
          (w_log w) (w_trace w).

Definition unlink_w (file : string) (w : world) : world :=
  mkWorld (filter (λ f, f ≠ file) (w_fs w)) (w_log w) (w_trace w).

Definition LOGGER (lv : level) (msg : string) : M unit := on_world (log_w lv msg).
Definition emit (ev : event) : M unit := on_world (emit_w ev).

(** [self.camera_names = l] *)
Definition set_camera_names (l : list string) : M unit :=
  λ st,
    let s := self st in
    (Ret tt,
     mkState (mkArloLapse (username s) (password s) l (lapse_path s)
                          (snapshot_path s) (purge_duration_hours s)
                          (lapse_duration s))
             (wd st)).

(** [os.remove(file)] *)
Definition os_remove (file : string) : M unit :=
  emit (EvRemove file) ;;
  files ← get_fs;
  if bool_decide (file ∈ files) then on_world (unlink_w file)
  else raise FileNotFoundError.

(** ** The class [ArloLapse] *)

Definition LAPSE_PATH : string := "./lapse/".
Definition SNAPSHOT_PATH : string := "./raw/".
Definition PURGE_DURATION_HOURS : Z := 24.
Definition LAPSE_DURATION : Z := 20.

(** The document that [yaml.load] returns for [cfg/config.yaml]: a flat
    mapping in which each of the seven keys is present or not; a key that
    is present holds a value of the type the class docstring gives it,
    with whole numbers for the two durations. *)
Record yaml_doc := mkDoc {
  y_username : option string;
  y_password : option string;
  y_camera_names : option (list string);
  y_lapse_path : option string;
  y_snapshot_path : option string;
  y_purge_duration_hours : option Z;
  y_lapse_duration : option Z
}.

(** [ArloLapse.__init__] *)
Definition __init__ (cfg_yaml : yaml_doc) (w : world) : outcome ArloLapse * world :=
  let w := log_w INFO "Initializing..." w in
  match y_username cfg_yaml with
  | None => (Raise (ValueError "Cannot find username in config.yaml"), w)
  | Some u =>
      match y_password cfg_yaml with
      | None => (Raise (ValueError "Cannot find password in config.yaml"), w)
      | Some p =>
          (Ret (mkArloLapse u p
                  (default [] (y_camera_names cfg_yaml))
                  (default LAPSE_PATH (y_lapse_path cfg_yaml))
                  (default SNAPSHOT_PATH (y_snapshot_path cfg_yaml))
                  (default PURGE_DURATION_HOURS (y_purge_duration_hours cfg_yaml))
                  (default LAPSE_DURATION (y_lapse_duration cfg_yaml))),
           w)
      end
  end.

Section Methods.

Variable E : env.

(** [ArloLapse.get_snapshot_url], with its 60 second timeout: the answer
    of the service, or [TimeoutError]. *)
Definition get_snapshot_url (basestation camera : device) : M (option string) :=
  emit (EvTrigger basestation camera) ;;
  answer (arlo_trigger E basestation camera).

(** [arlo.DownloadSnapshot(url, file)] *)
Definition DownloadSnapshot (url file : string) : M unit :=
  emit (EvDownload url file) ;;
  answer (arlo_download E url file) ;;
  on_world (create_w file).

(** [basestations[0]] *)
Definition first_item (l : list device) : M device :=
  match l with
  | [] => raise IndexError
  | x :: _ => mret x
  end.

Definition device_camera_name (camera : device) : string :=
  Str.replace_char " " "_" (deviceName camera).

(** The body of the second loop of [get_snapshots]. *)
Definition snapshot_camera (now_str : string) (basestations : list device)
    (camera : device) : M unit :=
  let camera_name := device_camera_name camera in
  s ← get_self;
  if bool_decide (camera_name ∈ camera_names s) then
    LOGGER DEBUG ("Getting snapshot for " +:+ camera_name) ;;
    s ← get_self;
    let snapshot_file :=
      snapshot_path s +:+ camera_name +:+ "_" +:+ now_str +:+ ".jpg" in
    try_timeout
      (basestation ← first_item basestations;
       snapshot_url ← get_snapshot_url basestation camera;
       match snapshot_url with
       | None => LOGGER WARNING ("Returned None URL for " +:+ camera_name)
       | Some url => DownloadSnapshot url snapshot_file
       end)
      (LOGGER WARNING ("Timeout " +:+ camera_name))
  else mret tt.

(** The body of the [try] of [get_snapshots]. *)
Definition acquire (now : datetime) : M unit :=
  s ← get_self;
  emit (EvLogin (username s) (password s)) ;;
  answer (arlo_login E (username s) (password s)) ;;
  emit (EvGetDevices "basestation") ;;
  basestations ← answer (arlo_devices E "basestation");
  emit (EvGetDevices "camera") ;;
  cameras ← answer (arlo_devices E "camera");
  let now_str := strftime now in
  let discovered := device_camera_name <$> cameras in
  s ← get_self;
  match camera_names s with
  | [] =>
      LOGGER DEBUG "No camera names given, getting from Arlo" ;;
      set_camera_names discovered
  | _ :: _ =>
      LOGGER DEBUG "Checking if given camera names are in Arlo" ;;
      set_camera_names
        (elements ((list_to_set (camera_names s) : gset string)
                   ∩ list_to_set discovered))
  end ;;
  s ← get_self;
  LOGGER DEBUG ("Final list of cameras: " +:+ Str.join ", " (camera_names s)) ;;
  for_each cameras (snapshot_camera now_str basestations).

(** [ArloLapse.get_snapshots]; [now] is what [datetime.datetime.now()]
    returns in it. *)
Definition get_snapshots (now : datetime) : M unit :=
  LOGGER INFO "Getting snapshots..." ;;
  try_except (acquire now) (λ e, emit (EvPrint e)).

(** The body of the inner loop of [purge_snapshots]. *)
Definition purge_file (now : datetime) (file : string) : M unit :=
  match re_search file with
  | None => raise AttributeError
  | Some (_, digits) =>
      match strptime digits with
      | None => raise (ValueError "time data does not match format")
      | Some date =>
          s ← get_self;
          match timedelta_hours (purge_duration_hours s) ≫= sub now with
          | None => raise OverflowError
          | Some threshold =>
              if ltb date threshold then
                LOGGER DEBUG ("Purging " +:+ file) ;;
                os_remove file
              else mret tt
          end
      end
  end.

Definition purge_camera (now : datetime) (camera_name : string) : M unit :=
  s ← get_self;
  all ← get_fs;
  let files := glob (snapshot_path s +:+ camera_name) all in
  for_each files (purge_file now).

(** [ArloLapse.purge_snapshots]; [now] is what [datetime.datetime.now()]
    returns in it. *)
Definition purge_snapshots (now : datetime) : M unit :=
  LOGGER INFO "Purging Snapshots..." ;;
  s ← get_self;
  for_each (camera_names s) (purge_camera now).

(** [imageio.imread(file)] *)
Definition imread (file : string) : M image :=
  emit (EvImread file) ;;
  answer (imageio_imread E file) ;;
  mret (ImageOf file).

(** [imageio.mimwrite(output_file, images, fps=fps)] *)
Definition mimwrite (output_file : string) (images : list image) (fps : float) : M unit :=
  emit (EvMimwrite output_file images fps) ;;
  answer (imageio_mimwrite E output_file images fps) ;;
  on_world (create_w output_file).

Definition gifsicle_command (output_file final_file : string) : string :=
  "gifsicle -O3 --colors 128 --resize-width 512 " +:+ output_file +:+
  " > " +:+ final_file.

(** [os.system(command)] for the compressor: the shell opens the file the
    output is redirected to, and the exit status is dropped.  The command
    is not quoted: this is what the shell does with it when its two file
    names are words that the shell takes as they are, the names that
    [plain] describes below. *)
Definition os_system_gifsicle (output_file final_file : string) : M unit :=
  emit (EvSystem (gifsicle_command output_file final_file)) ;;
  on_world (create_w final_file).

(** [num_files / lapse_duration], the true division of two integers,
    which gives a float. *)
Definition true_div (n d : Z) : M float := answer (int_true_divide n d).

(** The body of the loop of [make_lapse]. *)
Definition lapse_camera (camera_name : string) : M unit :=
  s ← get_self;
  all ← get_fs;
  let files := merge_sort String.le (glob (snapshot_path s +:+ camera_name) all) in
  let num_files := length files in
  LOGGER DEBUG ("Found " +:+ Str.of_nat num_files +:+ " images for " +:+ camera_name) ;;
  if (0 <? num_files)%nat then
    s ← get_self;
    fps ← true_div (Z.of_nat num_files) (lapse_duration s);
    images ← map_M imread files;
    s ← get_self;
    let output_file := snapshot_path s +:+ camera_name +:+ ".gif" in
    let final_file := lapse_path s +:+ camera_name +:+ ".gif" in
    mimwrite output_file images fps ;;
    os_system_gifsicle output_file final_file
  else mret tt.

(** [ArloLapse.make_lapse] *)
Definition make_lapse : M unit :=
  LOGGER INFO "Making Time Lapses..." ;;
  s ← get_self;
  for_each (camera_names s) lapse_camera.

(** What the main block does with the instance. *)
Definition run (now_get now_purge : datetime) : M unit :=
  get_snapshots now_get ;;
  purge_snapshots now_purge ;;
  make_lapse ;;
  LOGGER INFO "Script complete.".

(** The main block of the script. *)
Definition main (cfg_yaml : yaml_doc) (now_get now_purge : datetime)
    (w : world) : outcome unit * world :=
  match __init__ cfg_yaml w with
  | (Raise e, w') => (Raise e, w')
  | (Ret arlo_gif, w') =>
      let '(r, st) := run now_get now_purge (mkState arlo_gif w') in
      (r, wd st)
  end.

End Methods.

(** ** Concrete inputs

    A camera service with one base station and two cameras, and the
    values used to evaluate the methods. *)

Module Example.

Definition base : device := mkDevice "Base Station" "b0".
Definition front : device := mkDevice "Front Door" "c1".
Definition cam2 : device := mkDevice "Cam 2" "c2".

Definition devices (kind : string) : outcome (list device) :=
  if String.eqb kind "camera" then Ret [front; cam2] else Ret [base].

(** Every call succeeds, except that the second camera times out. *)
Definition service : env :=
  mkEnv (λ _ _, Ret tt) devices
        (λ _ c, if String.eqb (deviceName c) "Cam 2" then Raise TimeoutError
                else Ret (Some "https://arlo.example/snapshot.jpg"))
        (λ _ _, Ret tt) (λ _, Ret tt) (λ _ _ _, Ret tt).

(** The same service without a base station. *)
Definition service_without_base : env :=
  mkEnv (λ _ _, Ret tt)
        (λ kind, if String.eqb kind "camera" then Ret [front; cam2] else Ret [])
        (arlo_trigger service) (λ _ _, Ret tt) (λ _, Ret tt) (λ _ _ _, Ret tt).

(** A service that refuses the login. *)
Definition service_offline : env :=
  mkEnv (λ _ _, Raise (LibraryError "login failed")) devices
        (arlo_trigger service) (λ _ _, Ret tt) (λ _, Ret tt) (λ _ _ _, Ret tt).

(** A service whose image library cannot write the animation. *)
Definition service_no_encoder : env :=
  mkEnv (λ _ _, Ret tt) devices (arlo_trigger service) (λ _ _, Ret tt)
        (λ _, Ret tt) (λ _ _ _, Raise (LibraryError "cannot write")).


Definition porch : device := mkDevice "Porch" "c3".
Definition garage : device := mkDevice "Garage" "c4".
Definition yard : device := mkDevice "Yard" "c5".

(** A service with five cameras: the request to the first times out, the
    second has no URL, the third is downloaded, the request to the fourth
    fails, and the fifth would answer. *)
Definition service_of_five : env :=
  mkEnv (λ _ _, Ret tt)
        (λ kind, if String.eqb kind "camera"
                 then Ret [cam2; porch; front; garage; yard] else Ret [base])
        (λ _ c, if String.eqb (deviceName c) "Cam 2" then Raise TimeoutError
                else if String.eqb (deviceName c) "Porch" then Ret None
                else if String.eqb (deviceName c) "Garage"
                     then Raise (LibraryError "no answer")
                else Ret (Some "https://arlo.example/snapshot.jpg"))
        (λ _ _, Ret tt) (λ _, Ret tt) (λ _ _ _, Ret tt).

Definition noon : datetime := mkDT 2020 6 1 12 0 0 0.
Definition noon_later : datetime := mkDT 2020 6 1 12 0 1 250.

Definition settings (names : list string) (lapse : Z) : ArloLapse :=
  mkArloLapse "me" "secret" names LAPSE_PATH SNAPSHOT_PATH
              PURGE_DURATION_HOURS lapse.

Definition state_of (names : list string) (lapse : Z) (files : list string) : state :=
  mkState (settings names lapse) (mkWorld files [] []).

End Example.

(** ** What the purge reads and does, file by file *)

(** The time that the purge reads from a file name. *)
Definition timestamp (file : string) : option datetime :=
  match re_search file with
  | Some (_, digits) => strptime digits
  | None => None
  end.

(** [now - datetime.timedelta(hours=self.purge_duration_hours)] *)
Definition threshold (s : ArloLapse) (now : datetime) : option datetime :=
  timedelta_hours (purge_duration_hours s) ≫= sub now.

(** A file that the purge removes when it comes to it. *)
Definition old (s : ArloLapse) (now : datetime) (file : string) : bool :=
  match timestamp file, threshold s now with
  | Some date, Some limit => ltb date limit
  | _, _ => false
  end.

(** The exception that the purge raises when it comes to a file. *)
Definition fails (s : ArloLapse) (now : datetime) (file : string) : option exn :=
  match re_search file with
  | None => Some AttributeError
  | Some (_, digits) =>
      match strptime digits with
      | None => Some (ValueError "time data does not match format")
      | Some _ =>
          match threshold s now with
          | None => Some OverflowError
          | Some _ => None
          end
      end
  end.

(** The files matched for a camera. *)
Definition stills (s : ArloLapse) (camera_name : string) (files : list string) : list string :=
  glob (snapshot_path s +:+ camera_name) files.

(** What the inner loop of the purge does over a list of files: the
    exception it stops with, if any, and the files removed until then. *)
Fixpoint purge_list (s : ArloLapse) (now : datetime) (files : list string)
    : option exn * list string :=
  match files with
  | [] => (None, [])
  | f :: l =>
      match fails s now f with
      | Some e => (Some e, [])
      | None =>
          let '(r, removed) := purge_list s now l in
          (r, if old s now f then f :: removed else removed)
      end
  end.

(** The same for the loop over the cameras, from the files [all]. *)
Fixpoint purge_cameras (s : ArloLapse) (now : datetime) (names : list string)
    (all : list string) : option exn * list string :=
  match names with
  | [] => (None, [])
  | c :: cs =>
      let '(r, removed) := purge_list s now (stills s c all) in
      match r with
      | Some e => (Some e, removed)
      | None =>
          let '(r', removed') :=
            purge_cameras s now cs (filter (λ f, f ∉ removed) all) in
          (r', removed ++ removed')
      end
  end.

Definition outcome_of (r : option exn) : outcome unit :=
  match r with
  | None => Ret tt
  | Some e => Raise e
  end.

(** ** Sentences of the specification

    The sentences below are written after the specification, to be set
    against the code. *)


(** The naming scheme [<camera>_<YYYYMMDDHHMMSS>.jpg] of a still: [file]
    is [prefix], fourteen digits that read as the time [t], and [.jpg];
    the prefix is the snapshot path, the camera name and an underscore. *)
Definition follows_scheme (prefix file : string) (t : datetime) : Prop :=
  ∃ digits,
    file = prefix +:+ digits +:+ ".jpg" ∧
    String.length digits = 14%nat ∧
    Str.all_digits digits = true ∧
    strptime digits = Some t.

(** "No operation after construction modifies any configuration field". *)
Definition configuration_never_modified : Prop :=
  ∀ (E : env) (now : datetime) (st : state),
    self (get_snapshots E now st).2 = self st ∧
    self (purge_snapshots now st).2 = self st ∧
    self (make_lapse E st).2 = self st.

(** ** Notions used in the proofs *)

(** [keeps R m]: running [m] relates the instance before to the instance
    after by [R], whether [m] returns or raises. *)
Definition keeps (R : relation ArloLapse) {A} (m : M A) : Prop :=
  ∀ st, R (self st) (self (m st).2).

(** The settings other than the camera list. *)
Definition same_settings (a b : ArloLapse) : Prop :=
  username a = username b ∧ password a = password b ∧
  lapse_path a = lapse_path b ∧ snapshot_path a = snapshot_path b ∧
  purge_duration_hours a = purge_duration_hours b ∧
  lapse_duration a = lapse_duration b.

(** A fragment of a regular expression is [sized lo hi] when each of its
    matches splits the input into the matched text, of a length between
    [lo] and [hi], and the rest. *)
Definition sized (lo hi : nat) (p : re string) : Prop :=
  ∀ s a r, (a, r) ∈ p s →
           s = a +:+ r ∧ (lo ≤ String.length a)%nat ∧ (String.length a ≤ hi)%nat.

(** The values of the digits of a string. *)
Fixpoint digit_values (s : string) : list Z :=
  match s with
  | EmptyString => []
  | String c s' => Chr.digit_val c :: digit_values s'
  end.

(** ** The names of the files the script writes *)

(** [self.snapshot_path + camera_name + '_' + now_str + '.jpg'], the file
    a snapshot is downloaded to. *)
Definition snapshot_file (s : ArloLapse) (camera_name now_str : string) : string :=
  snapshot_path s +:+ camera_name +:+ "_" +:+ now_str +:+ ".jpg".

(** [self.snapshot_path + camera_name + '.gif'], what the encoder writes. *)
Definition output_file (s : ArloLapse) (camera_name : string) : string :=
  snapshot_path s +:+ camera_name +:+ ".gif".

(** [self.lapse_path + camera_name + '.gif'], what the compressor writes. *)
Definition final_file (s : ArloLapse) (camera_name : string) : string :=
  lapse_path s +:+ camera_name +:+ ".gif".

(** A string that [glob] reads literally: none of its characters is one
    of the wildcards [*], [?] and [[]. *)
Definition literal (s : string) : bool :=
  negb (Str.has_char "*" s) && negb (Str.has_char "?" s) &&
  negb (Str.has_char "[" s).

(** A character that neither [glob.glob] nor the shell reads specially:
    a letter, a digit or one of [_], [-], [.] and [/]. *)
Definition plain_char (c : ascii) : bool :=
  Chr.is_word_alpha c || Chr.is_digit c ||
  Ascii.eqb c "-" || Ascii.eqb c "." || Ascii.eqb c "/".

Fixpoint all_plain (s : string) : bool :=
  match s with
  | EmptyString => true
  | String c s' => plain_char c && all_plain s'
  end.

(** No slash comes right after a slash. *)
Fixpoint single_slashes (s : string) : bool :=
  match s with
  | String a (String b _ as s') =>
      negb (Ascii.eqb a "/" && Ascii.eqb b "/") && single_slashes s'
  | _ => true
  end.

(** A path that [glob.glob] and the shell take as it is written: plain
    characters only, so that the pattern has no wildcard and the command
    line no blank or metacharacter; no doubled slash, so that the paths
    [glob.glob] returns are the strings the script built; no dash in
    front, so that the compressor takes the word as a file. *)
Definition plain (s : string) : bool :=
  all_plain s && single_slashes s && negb (Str.starts_with_char "-" s).

(** The patterns of the configured cameras are plain. *)
Definition plain_patterns (s : ArloLapse) : Prop :=
  ∀ c, c ∈ camera_names s → plain (snapshot_path s +:+ c) = true.

(** The words of the compressor's commands are plain. *)
Definition plain_commands (s : ArloLapse) : Prop :=
  ∀ c, c ∈ camera_names s →
       plain (snapshot_path s +:+ c) = true ∧ plain (lapse_path s +:+ c) = true.

(** A still of a camera by the naming scheme of the specification,
    [<snapshot_path><camera>_<YYYYMMDDHHMMSS>.jpg]: fourteen digits
    between the underscore and the extension. *)
Definition is_still_of (s : ArloLapse) (camera_name file : string) : bool :=
  match Str.strip_prefix (snapshot_path s +:+ camera_name +:+ "_") file with
  | Some rest =>
      let '(digits, extension) := Str.span Chr.is_digit rest in
      (String.length digits =? 14)%nat && String.eqb extension ".jpg"
  | None => false
  end.

Definition own_stills (s : ArloLapse) (camera_name : string) (files : list string)
    : list string :=
  filter (λ f, is_still_of s camera_name f = true) files.

(** A string without a decimal digit. *)
Fixpoint no_digit (s : string) : bool :=
  match s with
  | EmptyString => true
  | String c s' => negb (Chr.is_digit c) && no_digit s'
  end.

(** A time as [datetime.datetime.now()] returns it, of a year that
    [strftime] prints on four digits. *)
Definition valid_now (d : datetime) : Prop :=
  1000 ≤ year d ≤ 9999 ∧ 1 ≤ month d ≤ 12 ∧
  1 ≤ day d ≤ days_in_month (year d) (month d) ∧
  0 ≤ hour d ≤ 23 ∧ 0 ≤ minute d ≤ 59 ∧ 0 ≤ second d ≤ 59.

(** A time without its microseconds. *)
Definition whole_second (d : datetime) : datetime :=
  mkDT (year d) (month d) (day d) (hour d) (minute d) (second d) 0.

(** A relation between the world before a method body and the world
    after it, whatever the body returns or raises. *)
Definition evolves (R : relation world) {A} (m : M A) : Prop :=
  ∀ st, R (wd st) (wd (m st).2).

(** Every call made so far is still in the trace. *)
Definition trace_grows (w w' : world) : Prop :=
  ∀ ev, ev ∈ w_trace w → ev ∈ w_trace w'.

(** The log has grown by lines other than the last line of the script. *)
Definition logs_on (w w' : world) : Prop :=
  ∃ lines, w_log w' = w_log w ++ lines ∧
           Forall (λ l, l ≠ (INFO, "Script complete.")) lines.

(** The trace after is the trace before and further calls. *)
Definition trace_extends (w w' : world) : Prop :=
  ∃ evs, w_trace w' = w_trace w ++ evs.

(** ** The failure policy of acquisition, in the words of the specification

    "A per-camera timeout or a null URL is logged and skipped, acquisition
    continues with the remaining cameras; any other exception aborts
    acquisition entirely (caught at the top level, logged, run continues
    to purge and assembly)." *)

(** What becomes of the request for one camera: its URL is downloaded;
    the request or the download of the URL times out; the URL is null;
    the request or the download raises something else. *)
Inductive verdict : Type :=
| Saved (url : string)
| SkippedTimeout (url : option string)
| SkippedNullUrl
| Aborted (url : option string) (e : exn).

Definition verdict_of (E : env) (basestation camera : device) (file : string)
    : verdict :=
  match arlo_trigger E basestation camera with
  | Raise e => if is_timeout e then SkippedTimeout None else Aborted None e
  | Ret None => SkippedNullUrl
  | Ret (Some url) =>
      match arlo_download E url file with
      | Ret _ => Saved url
      | Raise e =>
          if is_timeout e then SkippedTimeout (Some url) else Aborted (Some url) e
      end
  end.

(** The calls to the service that a verdict stands for. *)
Definition calls_of (basestation camera : device) (file : string) (v : verdict)
    : list event :=
  EvTrigger basestation camera ::
  match v with
  | Saved url | SkippedTimeout (Some url) | Aborted (Some url) _ =>
      [EvDownload url file]
  | _ => []
  end.

(** The lines logged for a camera: a skipped camera leaves a warning. *)
Definition lines_of (camera_name : string) (v : verdict) : list (level * string) :=
  (DEBUG, "Getting snapshot for " +:+ camera_name) ::
  match v with
  | SkippedTimeout _ => [(WARNING, "Timeout " +:+ camera_name)]
  | SkippedNullUrl => [(WARNING, "Returned None URL for " +:+ camera_name)]
  | _ => []
  end.

(** The cameras that acquisition gets to: the selected ones, in the order
    of discovery, up to and including the first whose request aborts. *)
Fixpoint attempted (selected : device → bool) (verdict_at : device → verdict)
    (cameras : list device) : list device :=
  match cameras with
  | [] => []
  | camera :: rest =>
      if selected camera then
        camera :: match verdict_at camera with
                  | Aborted _ _ => []
                  | _ => attempted selected verdict_at rest
                  end
      else attempted selected verdict_at rest
  end.

(** The exception that ends acquisition, if any. *)
Fixpoint aborted (verdict_at : device → verdict) (asked : list device)
    : option exn :=
  match asked with
  | [] => None
  | camera :: rest =>
      match verdict_at camera with
      | Aborted _ e => Some e
      | _ => aborted verdict_at rest
      end
  end.

(** What the top of the phase prints. *)
Definition printed (verdict_at : device → verdict) (asked : list device)
    : list event :=
  match aborted verdict_at asked with
  | Some e => [EvPrint e]
  | None => []
  end.

(** ** Two more sentences of the specification *)

(** "For every camera with zero retained stills, no intermediate or final
    output file for that camera is created". *)
Definition camera_without_stills_is_skipped : Prop :=
  ∀ (E : env) (st : state) (c : string),
    c ∈ camera_names (self st) →
    own_stills (self st) c (fs st) = [] →
    (output_file (self st) c ∈ fs (make_lapse E st).2 →
     output_file (self st) c ∈ fs st) ∧
    (final_file (self st) c ∈ fs (make_lapse E st).2 →
     final_file (self st) c ∈ fs st).

(** "For every camera with N > 0 retained stills, the frame rate passed to
    the encoder is N / D". *)
Definition frame_rate_is_stills_over_duration : Prop :=
  ∀ (E : env) (st : state) (c : string) (images : list image) (fps : float),
    c ∈ camera_names (self st) →
    own_stills (self st) c (fs st) ≠ [] →
    EvMimwrite (output_file (self st) c) images fps ∈ trace (make_lapse E st).2 →
    EvMimwrite (output_file (self st) c) images fps ∉ trace st →
    int_true_divide (Z.of_nat (length (own_stills (self st) c (fs st))))
                    (lapse_duration (self st)) = Ret fps.

(** ** Reasoning about method bodies *)

Lemma bind_run {A B} (m : M A) (f : A → M B) (st : state) :
  (m ≫= f) st =
  match m st with
  | (Ret a, st') => f a st'
  | (Raise e, st') => (Raise e, st')
  end.
Proof. reflexivity. Qed.

Lemma for_each_cons {A} (x : A) (l : list A) (body : A → M unit) (st : state) :
  for_each (x :: l) body st =
  match body x st with
  | (Ret _, st') => for_each l body st'
  | (Raise e, st') => (Raise e, st')
  end.
Proof. reflexivity. Qed.

Section Keeps.

Context (R : relation ArloLapse) `{!Reflexive R} `{!Transitive R}.

Lemma keeps_ret {A} (a : A) : keeps R (mret a : M A).
Proof. intros st. simpl. reflexivity. Qed.

Lemma keeps_raise {A} (e : exn) : keeps R (raise e : M A).
Proof. intros st. simpl. reflexivity. Qed.

Lemma keeps_answer {A} (o : outcome A) : keeps R (answer o).
Proof. intros st. simpl. reflexivity. Qed.

Lemma keeps_get_self : keeps R get_self.
Proof. intros st. simpl. reflexivity. Qed.

Lemma keeps_get_fs : keeps R get_fs.
Proof. intros st. simpl. reflexivity. Qed.

Lemma keeps_on_world (f : world → world) : keeps R (on_world f).
Proof. intros st. simpl. reflexivity. Qed.

Lemma keeps_bind {A B} (m : M A) (f : A → M B) :
  keeps R m → (∀ a, keeps R (f a)) → keeps R (m ≫= f).
Proof.
  intros Hm Hf st. rewrite bind_run. specialize (Hm st).
  destruct (m st) as [[a|e] st']; simpl in *; [|done].
  etrans; [exact Hm|apply Hf].
Qed.

Lemma keeps_try_except {A} (body : M A) (handler : exn → M A) :
  keeps R body → (∀ e, keeps R (handler e)) → keeps R (try_except body handler).
Proof.
  intros Hm Hf st. unfold try_except. specialize (Hm st).
  destruct (body st) as [[a|e] st']; simpl in *; [done|].
  etrans; [exact Hm|apply Hf].
Qed.

Lemma keeps_for_each {A} (l : list A) (body : A → M unit) :
  (∀ x, keeps R (body x)) → keeps R (for_each l body).
Proof.
  intros Hb. induction l as [|x l IH]; simpl.
  - apply keeps_ret.
  - apply keeps_bind; [apply Hb|intros _; exact IH].
Qed.

Lemma keeps_map_M {A B} (f : A → M B) (l : list A) :
  (∀ x, keeps R (f x)) → keeps R (map_M f l).
Proof.
  intros Hf. induction l as [|x l IH]; simpl.
  - apply keeps_ret.
  - apply keeps_bind; [apply Hf|intros y].
    apply keeps_bind; [exact IH|intros ys; apply keeps_ret].
Qed.

End Keeps.

Ltac keeps_auto :=
  repeat
    match goal with
    | |- Reflexive _ => apply _
    | |- Transitive _ => apply _
    | |- ∀ _, _ => intros ?
    | |- keeps _ (mret _) => apply keeps_ret
    | |- keeps _ (raise _) => apply keeps_raise
    | |- keeps _ (answer _) => apply keeps_answer
    | |- keeps _ get_self => apply keeps_get_self
    | |- keeps _ get_fs => apply keeps_get_fs
    | |- keeps _ (on_world _) => apply keeps_on_world
    | |- keeps _ (LOGGER _ _) => apply keeps_on_world
    | |- keeps _ (emit _) => apply keeps_on_world
    | |- keeps _ (_ ≫= _) => apply keeps_bind
    | |- keeps _ (try_except _ _) => apply keeps_try_except
    | |- keeps _ (for_each _ _) => apply keeps_for_each
    | |- keeps _ (map_M _ _) => apply keeps_map_M
    | |- keeps _ (match ?x with _ => _ end) => destruct x
    end.

Global Instance same_settings_refl : Reflexive same_settings.
Proof. intros a. unfold same_settings. tauto. Qed.

Global Instance same_settings_trans : Transitive same_settings.
Proof. intros a b c. unfold same_settings. intuition congruence. Qed.

Lemma keeps_set_camera_names (l : list string) :
  keeps same_settings (set_camera_names l).
Proof. intros st. simpl. unfold same_settings. tauto. Qed.

Section MethodFacts.

Variable E : env.

Lemma keeps_os_remove R `{!Reflexive R} `{!Transitive R} file :
  keeps R (os_remove file).
Proof. unfold os_remove. keeps_auto. Qed.

Lemma keeps_purge_snapshots R `{!Reflexive R} `{!Transitive R} now :
  keeps R (purge_snapshots now).
Proof.
  unfold purge_snapshots, purge_camera, purge_file. keeps_auto.
  apply keeps_os_remove; done.
Qed.

Lemma keeps_make_lapse R `{!Reflexive R} `{!Transitive R} :
  keeps R (make_lapse E).
Proof.
  unfold make_lapse, lapse_camera, true_div, imread, mimwrite,
    os_system_gifsicle.
  keeps_auto.
Qed.

Lemma keeps_snapshot_camera R `{!Reflexive R} `{!Transitive R} now_str bs cam :
  keeps R (snapshot_camera E now_str bs cam).
Proof.
  unfold snapshot_camera, try_timeout, first_item, get_snapshot_url,
    DownloadSnapshot.
  keeps_auto.
Qed.

Lemma keeps_get_snapshots now : keeps same_settings (get_snapshots E now).
Proof.
  unfold get_snapshots, acquire. keeps_auto;
    try apply keeps_set_camera_names;
    apply keeps_snapshot_camera; apply _.
Qed.

End MethodFacts.

(** ** Construction *)

(** C4. A configuration document without the key [username] or without the
    key [password] makes the constructor raise [ValueError]; the main block
    then ends with that exception, and all it has done is write the first
    log line: the files are as before and nothing was asked of the camera
    service, the image library or the shell. *)
Theorem init_requires_credentials (E : env) (cfg_yaml : yaml_doc)
    (now_get now_purge : datetime) (w : world) :
  y_username cfg_yaml = None ∨ y_password cfg_yaml = None →
  ∃ msg,
    __init__ cfg_yaml w = (Raise (ValueError msg), log_w INFO "Initializing..." w) ∧
    main E cfg_yaml now_get now_purge w
      = (Raise (ValueError msg), log_w INFO "Initializing..." w) ∧
    w_fs (main E cfg_yaml now_get now_purge w).2 = w_fs w ∧
    w_trace (main E cfg_yaml now_get now_purge w).2 = w_trace w.
Proof.
  intros H. unfold main, __init__.
  destruct (y_username cfg_yaml) as [u|] eqn:Hu.
  - destruct H as [H|H]; [discriminate|]. rewrite H.
    eexists. repeat split; reflexivity.
  - eexists. repeat split; reflexivity.
Qed.

Lemma init_requires_credentials_witness :
  let cfg_yaml := mkDoc (Some "me") None None None None None None in
  let w := mkWorld ["./raw/Front_Door_20200101000000.jpg"] [] [] in
  (y_username cfg_yaml = None ∨ y_password cfg_yaml = None) ∧
  ∃ msg,
    __init__ cfg_yaml w = (Raise (ValueError msg), log_w INFO "Initializing..." w) ∧
    main Example.service cfg_yaml Example.noon Example.noon_later w
      = (Raise (ValueError msg), log_w INFO "Initializing..." w) ∧
    w_fs (main Example.service cfg_yaml Example.noon Example.noon_later w).2
      = w_fs w ∧
    w_trace (main Example.service cfg_yaml Example.noon Example.noon_later w).2
      = w_trace w.
Proof.
  intros cfg_yaml w.
  assert (H : y_username cfg_yaml = None ∨ y_password cfg_yaml = None)
    by (right; reflexivity).
  split; [exact H|].
  exact (init_requires_credentials
           Example.service cfg_yaml Example.noon Example.noon_later w H).
Defined.

(** ** The world under logging, tracing and file operations *)

Lemma w_trace_log lv msg w : w_trace (log_w lv msg w) = w_trace w.
Proof. reflexivity. Qed.
Lemma w_trace_emit ev w : w_trace (emit_w ev w) = w_trace w ++ [ev].
Proof. reflexivity. Qed.
Lemma w_trace_create f w : w_trace (create_w f w) = w_trace w.
Proof. reflexivity. Qed.
Lemma w_trace_unlink f w : w_trace (unlink_w f w) = w_trace w.
Proof. reflexivity. Qed.
Lemma w_fs_log lv msg w : w_fs (log_w lv msg w) = w_fs w.
Proof. reflexivity. Qed.
Lemma w_fs_emit ev w : w_fs (emit_w ev w) = w_fs w.
Proof. reflexivity. Qed.
Lemma w_fs_unlink f w :
  w_fs (unlink_w f w) = filter (λ g, g ≠ f) (w_fs w).
Proof. reflexivity. Qed.
Lemma w_log_log lv msg w : w_log (log_w lv msg w) = w_log w ++ [(lv, msg)].
Proof. reflexivity. Qed.
Lemma w_log_emit ev w : w_log (emit_w ev w) = w_log w.
Proof. reflexivity. Qed.

Create Rewrite HintDb world.
#[global] Hint Rewrite w_trace_log w_trace_emit w_trace_create w_trace_unlink
  w_fs_log w_fs_emit w_fs_unlink w_log_log w_log_emit : world.

Ltac wsimpl := unfold trace, fs, log in *; cbn; autorewrite with world.

(** ** Snapshot acquisition *)

Ltac mrun :=
  unfold mbind, M_bind, mret, M_ret, LOGGER, emit, on_world, get_self,
    get_fs, answer, raise; cbn.

Section Acquisition.

Variable E : env.

(** What one pass of the loop adds to the trace: a request is made only
    for a camera whose name is in the list held by the instance. *)
Lemma snapshot_camera_trace now_str bs cam st :
  ∃ evs,
    trace (snapshot_camera E now_str bs cam st).2 = trace st ++ evs ∧
    ∀ b c, EvTrigger b c ∈ evs →
           c = cam ∧ device_camera_name c ∈ camera_names (self st).
Proof.
  unfold snapshot_camera, try_timeout, try_except, first_item,
    get_snapshot_url, DownloadSnapshot, trace.
  mrun. case_bool_decide as Hin; cbn.
  - destruct bs as [|b0 bs']; cbn.
    + exists []. rewrite app_nil_r. split; [done|]. intros b c Hc. inversion Hc.
    + assert (Hev : ∀ b c, EvTrigger b c ∈ [EvTrigger b0 cam] →
                c = cam ∧ device_camera_name c ∈ camera_names (self st)).
      { intros b c Hc. apply list_elem_of_singleton in Hc.
        injection Hc as -> ->. done. }
      destruct (arlo_trigger E b0 cam) as [[url|]|e]; cbn.
      * destruct (arlo_download E url _) as [[]|e]; cbn.
        -- exists [EvTrigger b0 cam; EvDownload url
                    (snapshot_path (self st) +:+ device_camera_name cam +:+
                     "_" +:+ now_str +:+ ".jpg")].
           rewrite <- app_assoc. split; [done|]. intros b c Hc.
           apply elem_of_cons in Hc as [Hc|Hc].
           ++ injection Hc as -> ->. done.
           ++ apply list_elem_of_singleton in Hc. discriminate.
        -- exists [EvTrigger b0 cam; EvDownload url
                    (snapshot_path (self st) +:+ device_camera_name cam +:+
                     "_" +:+ now_str +:+ ".jpg")].
           split.
           ++ destruct (is_timeout e); cbn; by rewrite <- app_assoc.
           ++ intros b c Hc. apply elem_of_cons in Hc as [Hc|Hc].
              ** injection Hc as -> ->. done.
              ** apply list_elem_of_singleton in Hc. discriminate.
      * exists [EvTrigger b0 cam]. split; [done|exact Hev].
      * exists [EvTrigger b0 cam]. split; [|exact Hev].
        destruct (is_timeout e); done.
  - exists []. rewrite app_nil_r. split; [done|]. intros b c Hc. inversion Hc.
Qed.

Lemma snapshot_loop_trace now_str bs cams st :
  ∃ evs,
    trace (for_each cams (snapshot_camera E now_str bs) st).2 = trace st ++ evs ∧
    ∀ b c, EvTrigger b c ∈ evs →
           c ∈ cams ∧ device_camera_name c ∈ camera_names (self st).
Proof.
  revert st. induction cams as [|cam cams IH]; intros st.
  - exists []. cbn. rewrite app_nil_r. split; [done|]. intros b c Hc. inversion Hc.
  - rewrite for_each_cons.
    destruct (snapshot_camera_trace now_str bs cam st) as (ev1 & Ht1 & Hc1).
    pose proof (keeps_snapshot_camera E eq now_str bs cam st) as Hs.
    destruct (snapshot_camera E now_str bs cam st) as [[[]|e] st1]; cbn in *.
    + destruct (IH st1) as (ev2 & Ht2 & Hc2).
      exists (ev1 ++ ev2). rewrite Ht2, Ht1, app_assoc. split; [done|].
      intros b c Hc. apply elem_of_app in Hc as [Hc|Hc].
      * destruct (Hc1 b c Hc) as [-> ?]. split; [left|done].
      * destruct (Hc2 b c Hc) as [? ?]. split; [by right|by rewrite Hs].
    + exists ev1. split; [done|]. intros b c Hc.
      destruct (Hc1 b c Hc) as [-> ?]. split; [left|done].
Qed.

End Acquisition.

Section AcquisitionClaims.

Variable E : env.

Lemma get_snapshots_after_discovery now st bs cams :
  arlo_login E (username (self st)) (password (self st)) = Ret tt →
  arlo_devices E "basestation" = Ret bs →
  arlo_devices E "camera" = Ret cams →
  ∃ st1,
    get_snapshots E now st =
      try_except (for_each cams (snapshot_camera E (strftime now) bs))
                 (λ e, emit (EvPrint e)) st1 ∧
    same_settings (self st) (self st1) ∧
    camera_names (self st1) =
      match camera_names (self st) with
      | [] => device_camera_name <$> cams
      | _ :: _ =>
          elements ((list_to_set (camera_names (self st)) : gset string)
                    ∩ list_to_set (device_camera_name <$> cams))
      end ∧
    trace st1 = trace st ++ [EvLogin (username (self st)) (password (self st));
                             EvGetDevices "basestation"; EvGetDevices "camera"] ∧
    fs st1 = fs st.
Proof.
  intros Hl Hb Hc.
  unfold get_snapshots, acquire, try_except. mrun. rewrite Hl, Hb, Hc. cbn.
  destruct (camera_names (self st)) as [|n ns] eqn:Hn; cbn;
    (eexists (mkState _ _); cbn; split; [reflexivity|]; split_and!;
     [ unfold same_settings; cbn; tauto
     | reflexivity
     | wsimpl; by rewrite <- !app_assoc
     | reflexivity ]).
Qed.

(** C3. Once the service has answered the login and the two device
    queries, the camera list held during acquisition is the list of
    discovered names when none was configured, and otherwise holds,
    once each, exactly the configured names that were discovered.  A
    discovered name is the device name with blanks turned into
    underscores.  Snapshots are requested from cameras of that list
    only. *)
Theorem effective_camera_names now st bs cams :
  arlo_login E (username (self st)) (password (self st)) = Ret tt →
  arlo_devices E "basestation" = Ret bs →
  arlo_devices E "camera" = Ret cams →
  let discovered := device_camera_name <$> cams in
  let effective := camera_names (self (get_snapshots E now st).2) in
  (camera_names (self st) = [] → effective = discovered) ∧
  (camera_names (self st) ≠ [] →
     NoDup effective ∧
     ∀ x, x ∈ effective ↔ x ∈ camera_names (self st) ∧ x ∈ discovered) ∧
  (∃ evs, trace (get_snapshots E now st).2 = trace st ++ evs ∧
     ∀ b c, EvTrigger b c ∈ evs → device_camera_name c ∈ effective).
Proof.
  intros Hl Hb Hc discovered effective.
  destruct (get_snapshots_after_discovery now st bs cams Hl Hb Hc)
    as (st1 & Hrun & _ & Hnames & Htr & _).
  assert (Heff : effective = camera_names (self st1)).
  { unfold effective. rewrite Hrun. unfold try_except.
    pose proof (keeps_for_each eq cams (snapshot_camera E (strftime now) bs)
                  (keeps_snapshot_camera E eq (strftime now) bs) st1) as Hk.
    destruct (for_each cams _ st1) as [[[]|e] st2]; cbn in *; by rewrite Hk. }
  split_and!.
  - intros Hnil. rewrite Heff, Hnames, Hnil. reflexivity.
  - intros Hne. rewrite Heff, Hnames.
    destruct (camera_names (self st)) as [|n ns] eqn:Hn; [done|].
    split; [apply NoDup_elements|].
    intros x. rewrite elem_of_elements, elem_of_intersection,
      !elem_of_list_to_set. reflexivity.
  - destruct (snapshot_loop_trace E (strftime now) bs cams st1) as (evs & Ht & Hin).
    rewrite Hrun. unfold try_except.
    destruct (for_each cams _ st1) as [[[]|e] st2]; cbn in *.
    + eexists. rewrite Ht, Htr, <- app_assoc. split; [reflexivity|].
      intros b c Hev. rewrite Heff.
      apply elem_of_app in Hev as [Hev|Hev]; [|by apply (Hin b c)].
      repeat (apply elem_of_cons in Hev as [Hev|Hev]; [discriminate|]).
      inversion Hev.
    + eexists. unfold trace in *. cbn. autorewrite with world.
      rewrite Ht, Htr, <- !app_assoc.
      split; [reflexivity|].
      intros b c Hev. rewrite Heff.
      apply elem_of_app in Hev as [Hev|Hev].
      * repeat (apply elem_of_cons in Hev as [Hev|Hev]; [discriminate|]).
        inversion Hev.
      * apply elem_of_app in Hev as [Hev|Hev]; [by apply (Hin b c)|].
        apply list_elem_of_singleton in Hev. discriminate.
Qed.

End AcquisitionClaims.

Lemma effective_camera_names_witness :
  let st := Example.state_of ["Front_Door"; "Garage"] 20 [] in
  (arlo_login Example.service "me" "secret" = Ret tt ∧
   arlo_devices Example.service "basestation" = Ret [Example.base] ∧
   arlo_devices Example.service "camera" = Ret [Example.front; Example.cam2]) ∧
  ∀ x, x ∈ camera_names (self (get_snapshots Example.service Example.noon st).2)
       ↔ x ∈ ["Front_Door"; "Garage"] ∧ x ∈ ["Front_Door"; "Cam_2"].
Proof.
  intros st. split; [done|].
  apply (effective_camera_names Example.service Example.noon st
           [Example.base] [Example.front; Example.cam2]
           eq_refl eq_refl eq_refl).
  discriminate.
Defined.

Section FailurePolicy.

Variable E : env.

Lemma get_snapshots_returns now st : (get_snapshots E now st).1 = Ret tt.
Proof.
  unfold get_snapshots, try_except. mrun.
  destruct (acquire E now _) as [[[]|e] st1]; reflexivity.
Qed.

End FailurePolicy.

(** ** The instance after construction *)

Section Settings.

Variable E : env.

(** C9, as the code has it.  The fields read from the configuration
    other than the camera list are never assigned after construction:
    snapshot acquisition keeps them, and so does a whole run; the purge
    and the assembly assign no field at all.  What acquisition may
    replace is the camera list. *)
Theorem settings_kept (now_get now_purge : datetime) (st : state) :
  same_settings (self st) (self (get_snapshots E now_get st).2) ∧
  self (purge_snapshots now_purge st).2 = self st ∧
  self (make_lapse E st).2 = self st ∧
  same_settings (self st) (self (run E now_get now_purge st).2).
Proof.
  split_and!.
  - apply keeps_get_snapshots.
  - symmetry. apply (keeps_purge_snapshots eq).
  - symmetry. apply (keeps_make_lapse E eq).
  - unfold run.
    assert (Hk : keeps same_settings
              (get_snapshots E now_get ;; purge_snapshots now_purge ;;
               make_lapse E ;; LOGGER INFO "Script complete.")).
    { apply keeps_bind; [apply _|apply keeps_get_snapshots|intros _].
      apply keeps_bind; [apply _|apply keeps_purge_snapshots; apply _|intros _].
      apply keeps_bind; [apply _|apply keeps_make_lapse; apply _|intros _].
      apply keeps_on_world; apply _. }
    apply Hk.
Qed.

End Settings.

(** C9, as stated, fails: with no camera configured, acquisition stores
    the discovered names in the instance. *)
Lemma configuration_is_modified : ¬ configuration_never_modified.
Proof.
  intros H.
  destruct (H Example.service Example.noon (Example.state_of [] 20 [])) as [H1 _].
  vm_compute in H1. discriminate.
Qed.

(** ** Lapse assembly *)

#[local] Arguments glob : simpl never.
#[local] Arguments merge_sort : simpl never.
#[local] Arguments Str.of_nat : simpl never.

Section Assembly.

Variable E : env.

(** The frames of a camera: the matching files, sorted. *)
Lemma frames_permutation (files : list string) :
  merge_sort String.le files ≡ₚ files.
Proof. apply merge_sort_Permutation. Qed.

Lemma frames_sorted (files : list string) :
  StronglySorted String.le (merge_sort String.le files).
Proof. apply (StronglySorted_merge_sort String.le). Qed.

Lemma frames_length (files : list string) :
  length (merge_sort String.le files) = length files.
Proof. apply Permutation_length, frames_permutation. Qed.

Lemma lapse_camera_skips (camera_name : string) (st : state) :
  glob (snapshot_path (self st) +:+ camera_name) (fs st) = [] →
  lapse_camera E camera_name st =
  (Ret tt,
   mkState (self st)
     (log_w DEBUG ("Found 0 images for " +:+ camera_name) (wd st))).
Proof.
  intros Hglob. unfold lapse_camera. mrun. rewrite Hglob. reflexivity.
Qed.

End Assembly.


Section AssemblyDivision.

Variable E : env.




End AssemblyDivision.


(** ** Facts about [strptime] *)

Module StrptimeFacts.

#[local] Arguments String.append !_ _ / : simpl nomatch.

Lemma length_append (a b : string) :
  String.length (a +:+ b) = (String.length a + String.length b)%nat.
Proof. induction a as [|c a IH]; simpl; [done|]. by rewrite IH. Qed.

Lemma append_assoc (a b c : string) : (a +:+ b) +:+ c = a +:+ (b +:+ c).
Proof. induction a as [|x a IH]; simpl; [done|]. f_equal. exact IH. Qed.

Lemma sized_class ok : sized 1 1 (re_class ok).
Proof.
  intros s a r H. unfold re_class in H. destruct s as [|c s]; [inversion H|].
  destruct (ok c); [|inversion H].
  apply list_elem_of_singleton in H. injection H as -> ->. simpl. done.
Qed.

Lemma sized_seq lo1 hi1 lo2 hi2 p q :
  sized lo1 hi1 p → sized lo2 hi2 q →
  sized (lo1 + lo2) (hi1 + hi2) (re_seq p q).
Proof.
  intros Hp Hq s a r H. unfold re_seq in H.
  apply list_elem_of_bind in H as ([a1 s1] & H & H1).
  apply list_elem_of_bind in H as ([a2 s2] & H & H2).
  apply list_elem_of_singleton in H. injection H as -> ->.
  destruct (Hp _ _ _ H1) as (-> & ? & ?).
  destruct (Hq _ _ _ H2) as (-> & ? & ?).
  rewrite append_assoc, length_append. split; [done|lia].
Qed.

Lemma sized_weaken lo hi lo' hi' p :
  (lo' ≤ lo)%nat → (hi ≤ hi')%nat → sized lo hi p → sized lo' hi' p.
Proof.
  intros ? ? Hp s a r H. destruct (Hp _ _ _ H) as (-> & ? & ?).
  split; [done|lia].
Qed.

Lemma sized_alt lo hi ps : Forall (sized lo hi) ps → sized lo hi (re_alt ps).
Proof.
  intros Hps s a r H. unfold re_alt in H.
  apply list_elem_of_bind in H as (p & H & Hp).
  rewrite Forall_forall in Hps. exact (Hps p Hp _ _ _ H).
Qed.

Ltac sized_tac :=
  repeat
    match goal with
    | |- Forall _ (_ :: _) => apply Forall_cons; split
    | |- Forall _ [] => apply Forall_nil
    | |- True => exact I
    | |- sized 1 1 (re_class _) => apply sized_class
    | |- sized 2 2 (re_seq _ _) => apply (sized_seq 1 1 1 1)
    | |- sized 1 2 (re_seq _ _) => apply (sized_weaken 2 2 1 2); [lia|lia|]
    | |- sized 1 2 (re_class _) => apply (sized_weaken 1 1 1 2); [lia|lia|]
    end.

Lemma sized_Y : sized 4 4 dir_Y.
Proof.
  unfold dir_Y.
  apply (sized_seq 1 1 3 3); [apply sized_class|].
  apply (sized_seq 1 1 2 2); [apply sized_class|].
  apply (sized_seq 1 1 1 1); apply sized_class.
Qed.

Lemma sized_m : sized 1 2 dir_m.
Proof. apply sized_alt. unfold re_range, re_lit, re_d. sized_tac. Qed.
Lemma sized_d : sized 1 2 dir_d.
Proof. apply sized_alt. unfold re_range, re_lit, re_d. sized_tac. Qed.
Lemma sized_H : sized 1 2 dir_H.
Proof. apply sized_alt. unfold re_range, re_lit, re_d. sized_tac. Qed.
Lemma sized_M : sized 1 2 dir_M.
Proof. apply sized_alt. unfold re_range, re_lit, re_d. sized_tac. Qed.
Lemma sized_S : sized 1 2 dir_S.
Proof. apply sized_alt. unfold re_range, re_lit, re_d. sized_tac. Qed.

(** A match of the whole format splits the input into the six groups and
    the rest. *)
Lemma format_regex_split s g rest :
  (g, rest) ∈ format_regex s →
  s = g_Y g +:+ g_m g +:+ g_d g +:+ g_H g +:+ g_M g +:+ g_S g +:+ rest ∧
  String.length (g_Y g) = 4%nat ∧
  (String.length (g_m g) ≤ 2)%nat ∧ (String.length (g_d g) ≤ 2)%nat ∧
  (String.length (g_H g) ≤ 2)%nat ∧ (String.length (g_M g) ≤ 2)%nat ∧
  (String.length (g_S g) ≤ 2)%nat.
Proof.
  intros H. unfold format_regex in H.
  apply list_elem_of_bind in H as ([gY s1] & H & HY).
  apply list_elem_of_bind in H as ([gm s2] & H & Hm).
  apply list_elem_of_bind in H as ([gd s3] & H & Hd).
  apply list_elem_of_bind in H as ([gH s4] & H & HH).
  apply list_elem_of_bind in H as ([gM s5] & H & HM).
  apply list_elem_of_bind in H as ([gS s6] & H & HS).
  apply list_elem_of_singleton in H. injection H as -> ->.
  destruct (sized_Y _ _ _ HY) as (-> & ? & ?).
  destruct (sized_m _ _ _ Hm) as (-> & ? & ?).
  destruct (sized_d _ _ _ Hd) as (-> & ? & ?).
  destruct (sized_H _ _ _ HH) as (-> & ? & ?).
  destruct (sized_M _ _ _ HM) as (-> & ? & ?).
  destruct (sized_S _ _ _ HS) as (-> & ? & ?).
  simpl. split; [done|]. lia.
Qed.

Lemma make_datetime_fields y m d H M S t :
  make_datetime y m d H M S = Some t → fields t = [y; m; d; H; M; S; 0].
Proof.
  unfold make_datetime. destruct (_ && _); [|discriminate].
  intros [= <-]. reflexivity.
Qed.

Lemma is_digit_bounds c :
  Chr.is_digit c = true → 0 ≤ Chr.digit_val c ∧ Chr.digit_val c ≤ 9.
Proof.
  unfold Chr.is_digit, Chr.between, Chr.digit_val.
  change (Chr.code "0") with 48. change (Chr.code "9") with 57. lia.
Qed.

Lemma is_digit_not_blank c : Chr.is_digit c = true → Ascii.eqb c " " = false.
Proof.
  intros H. destruct (Ascii.eqb_spec c " ") as [->|]; [|done].
  vm_compute in H. discriminate.
Qed.

Lemma ascii_compare_code a b : Ascii.compare a b = (Chr.code a ?= Chr.code b).
Proof.
  unfold Ascii.compare, Chr.code, nat_of_ascii.
  rewrite !N_nat_Z. symmetry. apply N2Z.inj_compare.
Qed.

Lemma compare_refl s : String.compare s s = Eq.
Proof.
  induction s as [|c s IH]; simpl; [done|].
  rewrite ascii_compare_code, Z.compare_refl. exact IH.
Qed.

Lemma compare_common_prefix p a b :
  String.compare (p +:+ a) (p +:+ b) = String.compare a b.
Proof.
  induction p as [|c p IH]; simpl; [done|].
  rewrite ascii_compare_code, Z.compare_refl. exact IH.
Qed.

Lemma compare_common_suffix x a b :
  String.length a = String.length b →
  String.compare (a +:+ x) (b +:+ x) = String.compare a b.
Proof.
  revert b. induction a as [|c a IH]; intros [|c' b] Hlen; simpl in *;
    try discriminate.
  - apply compare_refl.
  - destruct (Ascii.compare c c'); [|done|done]. apply IH. lia.
Qed.

Lemma compare_digit_values a b :
  String.compare a b = lex_compare (digit_values a) (digit_values b).
Proof.
  revert b. induction a as [|c a IH]; intros [|c' b]; simpl; try done.
  rewrite ascii_compare_code, IH. unfold Chr.digit_val.
  rewrite (Z.compare_sub (Chr.code c - 48)).
  replace (Chr.code c - 48 - (Chr.code c' - 48)) with (Chr.code c - Chr.code c') by lia.
  rewrite <- Z.compare_sub. reflexivity.
Qed.

(** Two leading digits compare as the number they write. *)
Lemma lex_compare_pair a b a' b' l l' :
  0 ≤ b ≤ 9 → 0 ≤ b' ≤ 9 →
  lex_compare (a :: b :: l) (a' :: b' :: l') =
  lex_compare (a * 10 + b :: l) (a' * 10 + b' :: l').
Proof.
  intros Hb Hb'. simpl.
  destruct (Z.compare_spec a a'), (Z.compare_spec b b'),
    (Z.compare_spec (a * 10 + b) (a' * 10 + b')); try lia; reflexivity.
Qed.

Lemma lex_compare_tail x y a b a' b' :
  lex_compare a b = lex_compare a' b' →
  lex_compare (x :: a) (y :: b) = lex_compare (x :: a') (y :: b').
Proof. intros H. simpl. by rewrite H. Qed.

Ltac two_chars s H :=
  destruct s as [|? [|? [|? ?]]]; try discriminate H.

(** On fourteen digits [strptime] reads the fields at their places. *)
Lemma strptime_fourteen (d : string) (t : datetime) :
  String.length d = 14%nat →
  Str.all_digits d = true →
  strptime d = Some t →
  match digit_values d with
  | [y1; y2; y3; y4; m1; m2; d1; d2; H1; H2; M1; M2; S1; S2] =>
      fields t =
      [((y1 * 10 + y2) * 10 + y3) * 10 + y4; m1 * 10 + m2; d1 * 10 + d2;
       H1 * 10 + H2; M1 * 10 + M2; S1 * 10 + S2; 0]
  | _ => False
  end.
Proof.
  intros Hlen Hdig Hp. unfold strptime in Hp.
  destruct (format_regex d) as [|[g rest] l] eqn:Hre; [discriminate|].
  assert (Hin : (g, rest) ∈ format_regex d) by (rewrite Hre; left).
  apply format_regex_split in Hin as (Heq & HY & Hm & Hd & HH & HM & HS).
  destruct rest; [|discriminate]. simpl in Hp.
  apply make_datetime_fields in Hp. rewrite Hp. clear Hp Hre l.
  pose proof (f_equal String.length Heq) as Hl.
  rewrite !length_append, Hlen in Hl. simpl in Hl.
  destruct g as [gY gm gd gH gM gS]. simpl in *.
  assert (Em : String.length gm = 2%nat) by lia.
  assert (Ed : String.length gd = 2%nat) by lia.
  assert (EH : String.length gH = 2%nat) by lia.
  assert (EM : String.length gM = 2%nat) by lia.
  assert (ES : String.length gS = 2%nat) by lia.
  clear Hl Hm Hd HH HM HS Hlen.
  destruct gY as [|? [|? [|? [|? [|? ?]]]]]; try discriminate.
  two_chars gm Em. two_chars gd Ed. two_chars gH EH. two_chars gM EM.
  two_chars gS ES. clear HY Em Ed EH EM ES.
  subst d. simpl in Hdig. simpl.
  repeat (apply andb_prop in Hdig as [?%is_digit_not_blank Hdig]).
  unfold Str.int_of. simpl.
  repeat match goal with H : Ascii.eqb _ _ = false |- _ => rewrite H; clear H end.
  reflexivity.
Qed.

(** Fourteen-digit strings compare as the times they read as. *)
Lemma compare_fourteen (d1 d2 : string) (t1 t2 : datetime) :
  String.length d1 = 14%nat → String.length d2 = 14%nat →
  Str.all_digits d1 = true → Str.all_digits d2 = true →
  strptime d1 = Some t1 → strptime d2 = Some t2 →
  String.compare d1 d2 = Datetime.compare t1 t2.
Proof.
  intros Hl1 Hl2 Hd1 Hd2 Hp1 Hp2.
  pose proof (strptime_fourteen d1 t1 Hl1 Hd1 Hp1) as H1.
  pose proof (strptime_fourteen d2 t2 Hl2 Hd2 Hp2) as H2.
  rewrite compare_digit_values. unfold Datetime.compare.
  assert (Hb1 : Forall (λ v, 0 ≤ v ≤ 9) (digit_values d1)).
  { clear -Hd1. induction d1 as [|c d IH]; simpl in *; [constructor|].
    apply andb_prop in Hd1 as [Hc Hd]. constructor; [|by apply IH].
    by apply is_digit_bounds. }
  assert (Hb2 : Forall (λ v, 0 ≤ v ≤ 9) (digit_values d2)).
  { clear -Hd2. induction d2 as [|c d IH]; simpl in *; [constructor|].
    apply andb_prop in Hd2 as [Hc Hd]. constructor; [|by apply IH].
    by apply is_digit_bounds. }
  destruct (digit_values d1)
    as [|y1 [|y2 [|y3 [|y4 [|m1 [|m2 [|a1 [|a2 [|h1 [|h2 [|n1 [|n2 [|s1 [|s2 [|? ?]]]]]]]]]]]]]]];
    try done.
  destruct (digit_values d2)
    as [|y1' [|y2' [|y3' [|y4' [|m1' [|m2' [|a1' [|a2' [|h1' [|h2' [|n1' [|n2' [|s1' [|s2' [|? ?]]]]]]]]]]]]]]];
    try done.
  rewrite H1, H2.
  repeat match goal with
         | H : Forall _ (_ :: _) |- _ => apply Forall_cons in H as [? H]
         end.
  do 3 rewrite lex_compare_pair by assumption.
  apply lex_compare_tail. rewrite lex_compare_pair by assumption.
  apply lex_compare_tail. rewrite lex_compare_pair by assumption.
  apply lex_compare_tail. rewrite lex_compare_pair by assumption.
  apply lex_compare_tail. rewrite lex_compare_pair by assumption.
  apply lex_compare_tail. rewrite lex_compare_pair by assumption.
  apply lex_compare_tail. reflexivity.
Qed.

(** Two stills of one camera that follow the naming scheme compare, as
    file names, the way their times compare. *)
Lemma scheme_compare (prefix f g : string) (tf tg : datetime) :
  follows_scheme prefix f tf → follows_scheme prefix g tg →
  String.compare f g = Datetime.compare tf tg.
Proof.
  intros (df & -> & Hlf & Hdf & Hpf) (dg & -> & Hlg & Hdg & Hpg).
  rewrite compare_common_prefix, compare_common_suffix by congruence.
  by apply compare_fourteen.
Qed.

Lemma scheme_le (prefix f g : string) (tf tg : datetime) :
  follows_scheme prefix f tf → follows_scheme prefix g tg →
  String.le f g → leb tf tg = true.
Proof.
  intros Hf Hg Hle. unfold leb.
  rewrite <- (scheme_compare prefix f g tf tg Hf Hg).
  unfold String.le, String.leb in Hle.
  destruct (String.compare f g); done.
Qed.

End StrptimeFacts.

(** ** The frame rate and the order of the frames *)

Section FrameRate.

Variable E : env.

Lemma imread_ok (f : string) (st : state) :
  imageio_imread E f = Ret tt →
  imread E f st =
  (Ret (ImageOf f), mkState (self st) (emit_w (EvImread f) (wd st))).
Proof. intros H. unfold imread. mrun. rewrite H. reflexivity. Qed.

Lemma read_all (files : list string) (st : state) :
  (∀ f, f ∈ files → imageio_imread E f = Ret tt) →
  map_M (imread E) files st =
  (Ret (ImageOf <$> files),
   mkState (self st)
     (mkWorld (fs st) (log st) (trace st ++ (EvImread <$> files)))).
Proof.
  revert st. induction files as [|f files IH]; intros [s [wf wl wt]] Hok.
  - unfold fs, log, trace. cbn. by rewrite app_nil_r.
  - cbn [map_M]. rewrite bind_run, imread_ok by (apply Hok; left).
    rewrite bind_run, IH by (intros g Hg; apply Hok; by right).
    unfold fs, log, trace, emit_w. cbn. by rewrite <- app_assoc.
Qed.

Lemma lapse_camera_encodes (camera_name : string) (st : state) (fps : float) :
  glob (snapshot_path (self st) +:+ camera_name) (fs st) ≠ [] →
  int_true_divide
    (Z.of_nat (length (glob (snapshot_path (self st) +:+ camera_name) (fs st))))
    (lapse_duration (self st)) = Ret fps →
  (∀ f, f ∈ glob (snapshot_path (self st) +:+ camera_name) (fs st) →
        imageio_imread E f = Ret tt) →
  ∃ msg,
    lapse_camera E camera_name st =
    (mimwrite E (snapshot_path (self st) +:+ camera_name +:+ ".gif")
       (ImageOf <$>
          merge_sort String.le
            (glob (snapshot_path (self st) +:+ camera_name) (fs st)))
       fps ;;
     os_system_gifsicle
       (snapshot_path (self st) +:+ camera_name +:+ ".gif")
       (lapse_path (self st) +:+ camera_name +:+ ".gif"))
      (mkState (self st)
         (mkWorld (fs st) (log st ++ [(DEBUG, msg)])
            (trace st ++
             (EvImread <$>
                merge_sort String.le
                  (glob (snapshot_path (self st) +:+ camera_name) (fs st)))))).
Proof.
  intros Hne Hd Hread.
  unfold lapse_camera, true_div. mrun.
  rewrite frames_length.
  destruct (glob _ (fs st)) as [|f0 files0] eqn:Hfiles; [done|].
  cbn. cbn in Hd. rewrite Hd.
  rewrite read_all.
  2:{ intros f Hf. apply Hread. by rewrite <- (frames_permutation (f0 :: files0)). }
  eexists. reflexivity.
Qed.

End FrameRate.

(** ** Retention purge *)

#[local] Arguments strptime : simpl never.
#[local] Arguments re_search : simpl never.
#[local] Arguments timedelta_hours : simpl never.
#[local] Arguments sub : simpl never.

Section ListFilter.

Context {A : Type} `{EqDecision A}.

Lemma filter_not_in_nil (l : list A) : filter (λ x, x ∉ []) l = l.
Proof.
  induction l as [|x l IH]; [done|].
  rewrite filter_cons_True by apply not_elem_of_nil. by rewrite IH.
Qed.

(** Two filters that agree on the elements of a list give the same list. *)
Lemma filter_agree (P Q : A → Prop) `{!∀ x, Decision (P x)}
    `{!∀ x, Decision (Q x)} (l : list A) :
  (∀ x, x ∈ l → P x ↔ Q x) → filter P l = filter Q l.
Proof.
  induction l as [|x l IH]; intros Hag; [done|].
  rewrite !filter_cons.
  rewrite IH by (intros y Hy; apply Hag; by right).
  destruct (decide (P x)) as [HP|HP], (decide (Q x)) as [HQ|HQ]; try done.
  - exfalso. apply HQ, (Hag x); [left|done].
  - exfalso. apply HP, (Hag x); [left|done].
Qed.

Lemma filter_not_in_app (r1 r2 l : list A) :
  filter (λ x, x ∉ r2) (filter (λ x, x ∉ r1) l) = filter (λ x, x ∉ r1 ++ r2) l.
Proof.
  rewrite list_filter_filter. apply list_filter_iff. intros x.
  rewrite not_elem_of_app. tauto.
Qed.

End ListFilter.

Section PurgeRun.

Variable now : datetime.

Lemma purge_file_run (file : string) (st : state) :
  purge_file now file st =
  match fails (self st) now file with
  | Some e => (Raise e, st)
  | None =>
      if old (self st) now file then
        (LOGGER DEBUG ("Purging " +:+ file) ;; os_remove file) st
      else (Ret tt, st)
  end.
Proof.
  unfold purge_file, fails, old, timestamp, threshold.
  destruct (re_search file) as [[g1 digits]|]; [|reflexivity].
  destruct (strptime digits) as [date|]; [|reflexivity].
  rewrite bind_run. cbn.
  destruct (timedelta_hours (purge_duration_hours (self st)) ≫= sub now)
    as [limit|]; [|reflexivity].
  destruct (ltb date limit); reflexivity.
Qed.

Lemma os_remove_run (file : string) (st : state) :
  file ∈ fs st →
  os_remove file st =
  (Ret tt, mkState (self st) (unlink_w file (emit_w (EvRemove file) (wd st)))).
Proof.
  intros Hin. unfold os_remove. mrun.
  rewrite bool_decide_eq_true_2 by exact Hin. reflexivity.
Qed.

(** The inner loop does what [purge_list] says. *)
Lemma purge_files_run (files : list string) (st : state) :
  NoDup files → (∀ f, f ∈ files → f ∈ fs st) →
  ∃ st',
    for_each files (purge_file now) st
      = (outcome_of (purge_list (self st) now files).1, st') ∧
    self st' = self st ∧
    fs st' = filter (λ f, f ∉ (purge_list (self st) now files).2) (fs st) ∧
    trace st' = trace st ++ (EvRemove <$> (purge_list (self st) now files).2).
Proof.
  revert st. induction files as [|f l IH]; intros st Hnd Hsub.
  - exists st. cbn. rewrite filter_not_in_nil, app_nil_r. done.
  - apply NoDup_cons in Hnd as [Hf Hnd].
    rewrite for_each_cons, purge_file_run. cbn [purge_list].
    destruct (fails (self st) now f) as [e|] eqn:Hfail.
    { exists st. cbn. rewrite filter_not_in_nil, app_nil_r. done. }
    destruct (old (self st) now f) eqn:Hold.
    + rewrite bind_run. unfold LOGGER at 1, on_world at 1.
      rewrite os_remove_run by (apply Hsub; left).
      match goal with |- context [for_each l _ ?s] => set (st1 := s) end.
      destruct (IH st1 Hnd) as (st' & Hrun & Hself & Hfs & Htr).
      { intros g Hg. unfold st1, fs. cbn. autorewrite with world.
        apply list_elem_of_filter. split; [by intros ->|].
        apply Hsub. by right. }
      change (self st1) with (self st) in *.
      destruct (purge_list (self st) now l) as [r removed]. cbn in *.
      exists st'. split_and!; [done|done| |].
      * rewrite Hfs. unfold st1, fs. cbn. autorewrite with world.
        rewrite list_filter_filter. apply list_filter_iff. intros x.
        rewrite not_elem_of_cons. tauto.
      * rewrite Htr. unfold st1, trace. cbn. autorewrite with world.
        by rewrite <- app_assoc.
    + destruct (IH st Hnd) as (st' & Hrun & Hself & Hfs & Htr).
      { intros g Hg. apply Hsub. by right. }
      destruct (purge_list (self st) now l) as [r removed]. cbn in *.
      exists st'. done.
Qed.

(** The loop over the cameras does what [purge_cameras] says. *)
Lemma purge_cameras_run (names : list string) (st : state) :
  NoDup (fs st) →
  ∃ st',
    for_each names (purge_camera now) st
      = (outcome_of (purge_cameras (self st) now names (fs st)).1, st') ∧
    self st' = self st ∧
    fs st' = filter (λ f, f ∉ (purge_cameras (self st) now names (fs st)).2) (fs st) ∧
    trace st' = trace st ++ (EvRemove <$> (purge_cameras (self st) now names (fs st)).2).
Proof.
  revert st. induction names as [|c cs IH]; intros st Hnd.
  - exists st. cbn. rewrite filter_not_in_nil, app_nil_r. done.
  - rewrite for_each_cons. cbn [purge_cameras].
    assert (Hcam : purge_camera now c st =
              for_each (stills (self st) c (fs st)) (purge_file now) st)
      by reflexivity.
    rewrite Hcam.
    destruct (purge_files_run (stills (self st) c (fs st)) st)
      as (st1 & Hrun1 & Hself1 & Hfs1 & Htr1).
    { by apply NoDup_filter. }
    { intros f Hf. by apply list_elem_of_filter in Hf as [_ ?]. }
    rewrite Hrun1.
    destruct (purge_list (self st) now (stills (self st) c (fs st)))
      as [[e|] removed]; cbn in *.
    { exists st1. done. }
    destruct (IH st1) as (st' & Hrun & Hself & Hfs & Htr).
    { rewrite Hfs1. by apply NoDup_filter. }
    rewrite Hself1, Hfs1 in *.
    destruct (purge_cameras (self st) now cs _) as [r' removed']. cbn in *.
    exists st'. split_and!; [done|congruence| |].
    + rewrite Hfs. apply filter_not_in_app.
    + rewrite Htr, Htr1, fmap_app. by rewrite <- app_assoc.
Qed.

Lemma purge_snapshots_run (st : state) :
  NoDup (fs st) →
  ∃ st',
    purge_snapshots now st
      = (outcome_of (purge_cameras (self st) now (camera_names (self st)) (fs st)).1, st') ∧
    self st' = self st ∧
    fs st' = filter (λ f, f ∉ (purge_cameras (self st) now (camera_names (self st)) (fs st)).2) (fs st) ∧
    trace st' = trace st ++
      (EvRemove <$> (purge_cameras (self st) now (camera_names (self st)) (fs st)).2).
Proof.
  intros Hnd. unfold purge_snapshots. mrun.
  apply (purge_cameras_run (camera_names (self st))
           (mkState (self st) (log_w INFO "Purging Snapshots..." (wd st)))).
  exact Hnd.
Qed.

End PurgeRun.

Section PurgeModel.

Variables (s : ArloLapse) (now : datetime).

Lemma old_not_failing (f : string) : old s now f = true → fails s now f = None.
Proof.
  unfold old, fails, timestamp.
  destruct (re_search f) as [[g1 digits]|]; [|done].
  destruct (strptime digits); [|done].
  destruct (threshold s now); done.
Qed.

Lemma purge_list_removed (l : list string) (g : string) :
  g ∈ (purge_list s now l).2 → g ∈ l ∧ old s now g = true.
Proof.
  induction l as [|f l IH]; cbn [purge_list purge_cameras fst snd]; [by intros ?%elem_of_nil|].
  destruct (fails s now f); cbn [purge_list purge_cameras fst snd]; [by intros ?%elem_of_nil|].
  destruct (purge_list s now l) as [r removed]. cbn [purge_list purge_cameras fst snd] in *.
  destruct (old s now f) eqn:Hold.
  - intros [->|Hg]%elem_of_cons; [split; [left|done]|].
    destruct (IH Hg). split; [by right|done].
  - intros Hg. destruct (IH Hg). split; [by right|done].
Qed.

Lemma purge_list_returns (l : list string) :
  (purge_list s now l).1 = None →
  ∀ f, f ∈ l → fails s now f = None ∧
               (old s now f = true → f ∈ (purge_list s now l).2).
Proof.
  induction l as [|f l IH]; cbn [purge_list purge_cameras fst snd]; [by intros _ f ?%elem_of_nil|].
  destruct (fails s now f) eqn:Hf; cbn [purge_list purge_cameras fst snd]; [done|].
  destruct (purge_list s now l) as [r removed]. cbn [purge_list purge_cameras fst snd] in *.
  intros Hr g [->|Hg]%elem_of_cons.
  - split; [done|]. intros ->. left.
  - destruct (IH Hr g Hg) as [? Hin]. split; [done|].
    intros Hold. specialize (Hin Hold). destruct (old s now f); [by right|done].
Qed.


Lemma purge_list_nothing (l : list string) :
  (∀ f, f ∈ l → fails s now f = None ∧ old s now f = false) →
  purge_list s now l = (None, []).
Proof.
  induction l as [|f l IH]; intros H; cbn [purge_list purge_cameras fst snd]; [done|].
  destruct (H f) as [-> ->]; [left|].
  rewrite IH; [done|]. intros g Hg. apply H. by right.
Qed.

(** Run again over what the first pass left, the inner loop removes
    nothing and ends the same way. *)
Lemma purge_list_again (l : list string) :
  NoDup l →
  purge_list s now (filter (λ f, f ∉ (purge_list s now l).2) l)
  = ((purge_list s now l).1, []).
Proof.
  induction l as [|f l IH]; intros Hnd; cbn [purge_list purge_cameras fst snd]; [done|].
  apply NoDup_cons in Hnd as [Hf Hnd]. specialize (IH Hnd).
  destruct (fails s now f) eqn:Hfail; cbn [purge_list purge_cameras fst snd].
  { rewrite filter_not_in_nil. cbn [purge_list purge_cameras fst snd]. by rewrite Hfail. }
  pose proof (purge_list_removed l) as Hrem.
  destruct (purge_list s now l) as [r removed]. cbn [purge_list purge_cameras fst snd] in *.
  destruct (old s now f) eqn:Hold.
  - rewrite filter_cons_False by (intros Hn; apply Hn; left).
    rewrite <- IH. f_equal. apply filter_agree. intros x Hx.
    rewrite not_elem_of_cons. split; [tauto|].
    intros ?. split; [by intros ->|done].
  - rewrite filter_cons_True.
    2:{ intros Hin. destruct (Hrem f Hin) as [_ ?]. congruence. }
    cbn [purge_list purge_cameras fst snd]. rewrite Hfail, IH, Hold. reflexivity.
Qed.

Lemma stills_filter (c : string) (P : string → Prop) `{!∀ x, Decision (P x)}
    (all : list string) :
  stills s c (filter P all) = filter P (stills s c all).
Proof.
  unfold stills, glob. rewrite !list_filter_filter.
  apply list_filter_iff. intros x. tauto.
Qed.

Lemma purge_cameras_removed (names all : list string) (g : string) :
  g ∈ (purge_cameras s now names all).2 →
  g ∈ all ∧ old s now g = true ∧ ∃ c, c ∈ names ∧ g ∈ stills s c all.
Proof.
  revert all. induction names as [|c cs IH]; intros all; cbn [purge_list purge_cameras fst snd];
    [by intros ?%elem_of_nil|].
  pose proof (purge_list_removed (stills s c all) g) as H1.
  destruct (purge_list s now (stills s c all)) as [[e|] removed]; cbn [purge_list purge_cameras fst snd] in *.
  - intros Hg. destruct (H1 Hg) as [Hin Hold].
    split_and!; [by apply list_elem_of_filter in Hin as [_ ?]|done|].
    exists c. split; [left|done].
  - specialize (IH (filter (λ f, f ∉ removed) all)).
    destruct (purge_cameras s now cs _) as [r' removed']. cbn [purge_list purge_cameras fst snd] in *.
    intros [Hg|Hg]%elem_of_app.
    + destruct (H1 Hg) as [Hin Hold].
      split_and!; [by apply list_elem_of_filter in Hin as [_ ?]|done|].
      exists c. split; [left|done].
    + destruct (IH Hg) as (Hin & Hold & c' & Hc' & Hst).
      apply list_elem_of_filter in Hin as [_ Hin].
      split_and!; [done|done|]. exists c'. split; [by right|].
      rewrite stills_filter in Hst. by apply list_elem_of_filter in Hst as [_ ?].
Qed.

Lemma purge_cameras_returns (names all : list string) :
  (purge_cameras s now names all).1 = None →
  ∀ c f, c ∈ names → f ∈ stills s c all →
         fails s now f = None ∧
         (old s now f = true → f ∈ (purge_cameras s now names all).2).
Proof.
  revert all. induction names as [|c cs IH]; intros all; cbn [purge_list purge_cameras fst snd];
    [by intros _ c f ?%elem_of_nil|].
  pose proof (purge_list_returns (stills s c all)) as H1.
  pose proof (purge_list_removed (stills s c all)) as H2.
  destruct (purge_list s now (stills s c all)) as [[e|] removed]; cbn [purge_list purge_cameras fst snd] in *;
    [done|].
  specialize (IH (filter (λ f, f ∉ removed) all)).
  destruct (purge_cameras s now cs _) as [r' removed']. cbn [purge_list purge_cameras fst snd] in *.
  intros Hr c' f [->|Hc']%elem_of_cons Hf.
  - destruct (H1 eq_refl f Hf) as [? Hin]. split; [done|].
    intros Hold. apply elem_of_app. left. by apply Hin.
  - destruct (decide (f ∈ removed)) as [Hin|Hnin].
    + destruct (H2 f Hin) as [_ Hold]. split; [by apply old_not_failing|].
      intros _. apply elem_of_app. by left.
    + destruct (IH Hr c' f Hc') as [? Hin].
      { rewrite stills_filter. by apply list_elem_of_filter. }
      split; [done|]. intros Hold. apply elem_of_app. right. by apply Hin.
Qed.


(** Run again over what the first pass left, the loop over the cameras
    removes nothing and ends the same way. *)
Lemma purge_cameras_again (names all : list string) :
  NoDup all →
  purge_cameras s now names
    (filter (λ f, f ∉ (purge_cameras s now names all).2) all)
  = ((purge_cameras s now names all).1, []).
Proof.
  revert all. induction names as [|c cs IH]; intros all Hnd; cbn [purge_list purge_cameras fst snd]; [done|].
  pose proof (purge_list_again (stills s c all)) as Hagain.
  pose proof (purge_list_returns (stills s c all)) as Hret.
  destruct (purge_list s now (stills s c all)) as [[e|] removed] eqn:Hl;
    cbn [purge_list purge_cameras fst snd] in *.
  - rewrite stills_filter, Hagain by (by apply NoDup_filter). reflexivity.
  - specialize (IH (filter (λ f, f ∉ removed) all)).
    destruct (purge_cameras s now cs (filter (λ f, f ∉ removed) all))
      as [r' removed'] eqn:Hc. cbn [purge_list purge_cameras fst snd] in *.
    rewrite <- filter_not_in_app.
    rewrite purge_list_nothing.
    2:{ intros f Hf. rewrite !stills_filter in Hf.
        apply list_elem_of_filter in Hf as [_ Hf].
        apply list_elem_of_filter in Hf as [Hnin Hf].
        destruct (Hret eq_refl f Hf) as [? Hin]. split; [done|].
        destruct (old s now f); [|done]. exfalso. by apply Hnin, Hin. }
    rewrite filter_not_in_nil, IH by (by apply NoDup_filter). reflexivity.
Qed.

End PurgeModel.

(** ** The order of times *)





(** ** The claims on the purge *)

Section PurgeClaims.

Variable now : datetime.




(** C6. A second purge, run at the same time over what the first one
    left, removes nothing and ends as the first one did: the files after
    two runs are the files after one. *)
Theorem purge_idempotent (st : state) :
  NoDup (fs st) →
  fs (purge_snapshots now (purge_snapshots now st).2).2
    = fs (purge_snapshots now st).2 ∧
  (purge_snapshots now (purge_snapshots now st).2).1
    = (purge_snapshots now st).1.
Proof.
  intros Hnd.
  destruct (purge_snapshots_run now st Hnd) as (st1 & Hrun & Hself & Hfs & Htr).
  rewrite Hrun. cbn [fst snd].
  destruct (purge_snapshots_run now st1) as (st2 & Hrun2 & Hself2 & Hfs2 & Htr2).
  { rewrite Hfs. by apply NoDup_filter. }
  rewrite Hrun2. cbn [fst snd].
  rewrite Hself, Hfs, purge_cameras_again in Hrun2, Hfs2 by exact Hnd.
  cbn [fst snd] in *. rewrite filter_not_in_nil in Hfs2.
  split; [by rewrite Hfs2, Hfs|].
  rewrite Hself, Hfs, purge_cameras_again by exact Hnd. reflexivity.
Qed.


End PurgeClaims.

(** ** The purge on concrete directories *)

(** Three stills around the limit of 24 hours before noon of 1 June 2020:
    the one a second before the limit goes, the one at the limit and the
    later one stay. *)
Example purge_around_the_limit :
  purge_snapshots Example.noon
    (Example.state_of ["Front_Door"] 20
       ["./raw/Front_Door_20200531115959.jpg";
        "./raw/Front_Door_20200531120000.jpg";
        "./raw/Front_Door_20200601110000.jpg"])
  = (Ret tt,
     mkState (Example.settings ["Front_Door"] 20)
       (mkWorld
          ["./raw/Front_Door_20200531120000.jpg";
           "./raw/Front_Door_20200601110000.jpg"]
          [(INFO, "Purging Snapshots...");
           (DEBUG, "Purging ./raw/Front_Door_20200531115959.jpg")]
          [EvRemove "./raw/Front_Door_20200531115959.jpg"])).
Proof. vm_compute. reflexivity. Qed.



Example purge_raises_at_a_foreign_file :
  purge_snapshots Example.noon
    (Example.state_of ["Garage"; "Front_Door"] 20
       ["./raw/Front_Door_20200101000000.jpg";
        "./raw/Garage_latest.jpg"])
  = (Raise AttributeError,
     mkState (Example.settings ["Garage"; "Front_Door"] 20)
       (mkWorld ["./raw/Front_Door_20200101000000.jpg";
                 "./raw/Garage_latest.jpg"]
                [(INFO, "Purging Snapshots...")] [])).
Proof. vm_compute. reflexivity. Qed.

(** A camera name with a digit after an underscore: the pattern reads
    that digit where the time was meant. *)
Example purge_raises_at_cam_2 :
  purge_snapshots Example.noon
    (Example.state_of ["Cam_2"; "Front_Door"] 20
       ["./raw/Cam_2_20200101000000.jpg";
        "./raw/Front_Door_20200101000000.jpg"])
  = (Raise (ValueError "time data does not match format"),
     mkState (Example.settings ["Cam_2"; "Front_Door"] 20)
       (mkWorld ["./raw/Cam_2_20200101000000.jpg";
                 "./raw/Front_Door_20200101000000.jpg"]
                [(INFO, "Purging Snapshots...")] []))
  ∧ re_search "./raw/Cam_2_20200101000000.jpg" = Some ("Cam_", "2").
Proof. split; vm_compute; reflexivity. Qed.

Lemma purge_idempotent_witness :
  let st := Example.state_of ["Front_Door"] 20
              ["./raw/Front_Door_20200531115959.jpg";
               "./raw/Front_Door_20200531120000.jpg";
               "./raw/Front_Door_20200601110000.jpg"] in
  NoDup (fs st) ∧
  fs (purge_snapshots Example.noon (purge_snapshots Example.noon st).2).2
    = fs (purge_snapshots Example.noon st).2.
Proof.
  intros st.
  assert (Hnd : NoDup (fs st)) by (compute_done).
  split; [exact Hnd|].
  destruct (purge_idempotent Example.noon st Hnd) as [H _]. exact H.
Defined.


(** The purge removes the first still, then meets the malformed name. *)
Example purge_stops_after_one_removal :
  purge_snapshots Example.noon
    (Example.state_of ["Front_Door"] 20
       ["./raw/Front_Door_20200101000000.jpg";
        "./raw/Front_Door_latest.jpg";
        "./raw/Front_Door_20200102000000.jpg"])
  = (Raise AttributeError,
     mkState (Example.settings ["Front_Door"] 20)
       (mkWorld ["./raw/Front_Door_latest.jpg";
                 "./raw/Front_Door_20200102000000.jpg"]
                [(INFO, "Purging Snapshots...");
                 (DEBUG, "Purging ./raw/Front_Door_20200101000000.jpg")]
                [EvRemove "./raw/Front_Door_20200101000000.jpg"])).
Proof. vm_compute. reflexivity. Qed.

(** ** Strings, patterns and file names *)

Module StrFacts.

#[local] Arguments String.append !_ _ / : simpl nomatch.

Lemma strip_prefix_app (p r : string) : Str.strip_prefix p (p +:+ r) = Some r.
Proof.
  induction p as [|c p IH]; simpl; [by destruct r|].
  by rewrite Ascii.eqb_refl.
Qed.

Lemma strip_prefix_spec (p s r : string) :
  Str.strip_prefix p s = Some r → s = p +:+ r.
Proof.
  revert s. induction p as [|c p IH]; intros [|d s]; simpl; try congruence.
  destruct (Ascii.eqb_spec c d) as [->|]; [|done].
  intros H. by rewrite (IH s H).
Qed.

Lemma ends_with_cons (suffix : string) (c : ascii) (s : string) :
  Str.ends_with suffix (String c s)
  = String.eqb suffix (String c s) || Str.ends_with suffix s.
Proof. reflexivity. Qed.

Lemma ends_with_app (x suffix : string) : Str.ends_with suffix (x +:+ suffix) = true.
Proof.
  induction x as [|c x IH].
  - change ("" +:+ suffix) with suffix.
    destruct suffix as [|d suffix]; [reflexivity|].
    by rewrite ends_with_cons, String.eqb_refl.
  - change (String c x +:+ suffix) with (String c (x +:+ suffix)).
    rewrite ends_with_cons, IH. apply orb_true_r.
Qed.

Lemma has_char_app (c : ascii) (a b : string) :
  Str.has_char c (a +:+ b) = Str.has_char c a || Str.has_char c b.
Proof.
  induction a as [|d a IH]; simpl; [done|]. by rewrite IH, orb_assoc.
Qed.

Lemma length_app (a b : string) :
  String.length (a +:+ b) = (String.length a + String.length b)%nat.
Proof. induction a as [|c a IH]; simpl; [done|]. by rewrite IH. Qed.

Lemma app_assoc (a b c : string) : (a +:+ b) +:+ c = a +:+ (b +:+ c).
Proof. induction a as [|x a IH]; simpl; [done|]. f_equal. exact IH. Qed.

Lemma app_inv_head (p a b : string) : p +:+ a = p +:+ b → a = b.
Proof. induction p as [|c p IH]; simpl; [done|]. intros [= H]. by apply IH. Qed.

(** A name that ends in [.gif] does not end in [.jpg]. *)
Lemma ends_with_jpg_gif (x : string) : Str.ends_with ".jpg" (x +:+ ".gif") = false.
Proof.
  induction x as [|c x IH]; [reflexivity|].
  change (String c x +:+ ".gif") with (String c (x +:+ ".gif")).
  rewrite ends_with_cons, IH, orb_false_r.
  apply String.eqb_neq. intros H.
  destruct x as [|c1 [|c2 [|c3 [|c4 x]]]]; discriminate H.
Qed.

Lemma app_nil_r (a : string) : a +:+ "" = a.
Proof. induction a as [|c a IH]; simpl; [done|]. by rewrite IH. Qed.

Lemma ends_with_app_l (suffix x r : string) :
  Str.ends_with suffix r = true → Str.ends_with suffix (x +:+ r) = true.
Proof.
  intros H. induction x as [|c x IH]; [exact H|].
  change (String c x +:+ r) with (String c (x +:+ r)).
  rewrite ends_with_cons, IH. apply orb_true_r.
Qed.

Lemma all_digits_app (a b : string) :
  Str.all_digits (a +:+ b) = Str.all_digits a && Str.all_digits b.
Proof. induction a as [|c a IH]; simpl; [done|]. by rewrite IH, andb_assoc. Qed.

Lemma digit_char (n : Z) :
  Chr.is_digit (ascii_of_nat (Z.to_nat (48 + n mod 10))) = true.
Proof.
  pose proof (Z.mod_pos_bound n 10 ltac:(lia)) as Hb.
  assert (Hcases : n mod 10 = 0 ∨ n mod 10 = 1 ∨ n mod 10 = 2 ∨ n mod 10 = 3 ∨
                   n mod 10 = 4 ∨ n mod 10 = 5 ∨ n mod 10 = 6 ∨ n mod 10 = 7 ∨
                   n mod 10 = 8 ∨ n mod 10 = 9) by lia.
  repeat destruct Hcases as [->|Hcases]; try rewrite Hcases; reflexivity.
Qed.

Lemma pad_digits_all_digits (w : nat) (n : Z) :
  Str.all_digits (Str.pad_digits w n) = true.
Proof.
  revert n. induction w as [|w IH]; intros n; [reflexivity|].
  cbn [Str.pad_digits]. rewrite all_digits_app, IH. cbn [Str.all_digits].
  by rewrite digit_char.
Qed.

Lemma pad_digits_length (w : nat) (n : Z) : String.length (Str.pad_digits w n) = w.
Proof.
  revert n. induction w as [|w IH]; intros n; [reflexivity|].
  cbn [Str.pad_digits]. rewrite length_app, IH. simpl. lia.
Qed.

Lemma digit_not_slash (c : ascii) : Chr.is_digit c = true → Ascii.eqb "/" c = false.
Proof.
  intros H. destruct (Ascii.eqb_spec "/" c) as [<-|]; [|done].
  vm_compute in H. discriminate.
Qed.

Lemma all_digits_no_slash (d : string) :
  Str.all_digits d = true → Str.has_char "/" d = false.
Proof.
  induction d as [|c d IH]; cbn [Str.all_digits Str.has_char]; [done|].
  intros [Hc Hd]%andb_prop. by rewrite (digit_not_slash c Hc), IH.
Qed.

Lemma strftime_all_digits (d : datetime) : Str.all_digits (strftime d) = true.
Proof.
  unfold strftime. rewrite !all_digits_app, !pad_digits_all_digits. reflexivity.
Qed.

Lemma strftime_length (d : datetime) : String.length (strftime d) = 14%nat.
Proof. unfold strftime. rewrite !length_app, !pad_digits_length. reflexivity. Qed.

End StrFacts.

Section GlobFacts.

(** A pattern [prefix*.jpg] matches no name that ends in [.gif]. *)
Lemma glob_match_gif (prefix x : string) :
  glob_match prefix (x +:+ ".gif") = false.
Proof.
  unfold glob_match.
  destruct (Str.strip_prefix prefix (x +:+ ".gif")) as [rest|] eqn:Hs; [|done].
  apply StrFacts.strip_prefix_spec in Hs.
  assert (Hjpg : Str.ends_with ".jpg" rest = false).
  { destruct (Str.ends_with ".jpg" rest) eqn:He; [|done].
    pose proof (StrFacts.ends_with_jpg_gif x) as Hx. rewrite Hs in Hx.
    clear Hs. induction prefix as [|c p IH].
    - change ("" +:+ rest) with rest in Hx. congruence.
    - change (String c p +:+ rest) with (String c (p +:+ rest)) in Hx.
      rewrite StrFacts.ends_with_cons in Hx.
      apply orb_false_elim in Hx as [_ Hx]. by apply IH. }
  by rewrite Hjpg.
Qed.

(** X1. The encoder's file and the compressor's file end in [.gif]: no
    pattern of the purge or of the assembly matches them, whatever the
    paths and the camera names. *)
Theorem gif_never_listed (prefix x : string) (files : list string) :
  glob_match prefix (x +:+ ".gif") = false ∧
  x +:+ ".gif" ∉ glob prefix files.
Proof.
  split; [apply glob_match_gif|].
  unfold glob. rewrite list_elem_of_filter. intros [Hm _].
  rewrite glob_match_gif in Hm. done.
Qed.

(** X2. When the snapshot path followed by the camera name is plain (no
    wildcard, no doubled slash), the file a snapshot is downloaded to is
    one of the files listed for its camera, whatever the time: what
    acquisition writes, the purge and the assembly find. *)
Theorem snapshot_file_listed (s : ArloLapse) (camera_name : string)
    (now : datetime) (files : list string) :
  plain (snapshot_path s +:+ camera_name) = true →
  snapshot_file s camera_name (strftime now) ∈ files →
  snapshot_file s camera_name (strftime now) ∈ stills s camera_name files.
Proof.
  intros _ Hin. unfold stills, glob. apply list_elem_of_filter. split; [|exact Hin].
  unfold glob_match, snapshot_file.
  rewrite <- StrFacts.app_assoc, StrFacts.strip_prefix_app.
  rewrite <- (StrFacts.app_assoc "_"), StrFacts.ends_with_app.
  rewrite !StrFacts.has_char_app.
  rewrite (StrFacts.all_digits_no_slash _ (StrFacts.strftime_all_digits now)).
  cbn. by rewrite andb_false_r.
Qed.

(** X3. A file listed for a camera is also listed for every camera whose
    name is a beginning of that camera's name, when the names have no
    wildcard character and what is left of the longer name has no slash
    and does not start with a dot: [Front] also lists the stills of
    [Front_Door]. *)
Theorem stills_of_longer_name (s : ArloLapse) (camera_name more : string)
    (files : list string) (f : string) :
  literal (snapshot_path s +:+ camera_name +:+ more) = true →
  Str.has_char "/" more = false →
  Str.starts_with_char "." more = false →
  f ∈ stills s (camera_name +:+ more) files →
  f ∈ stills s camera_name files.
Proof.
  intros _ Hslash Hdot. unfold stills, glob. rewrite !list_elem_of_filter.
  intros [Hm Hin]. split; [|exact Hin]. revert Hm. unfold glob_match.
  destruct (Str.strip_prefix (snapshot_path s +:+ camera_name +:+ more) f)
    as [rest|] eqn:Hs; [|done].
  apply StrFacts.strip_prefix_spec in Hs.
  rewrite <- StrFacts.app_assoc, StrFacts.app_assoc in Hs. subst f.
  rewrite StrFacts.strip_prefix_app.
  intros [[Hjpg Hno]%andb_prop Hhid]%andb_prop.
  rewrite (StrFacts.ends_with_app_l _ _ _ Hjpg), StrFacts.has_char_app, Hslash.
  apply negb_true_iff in Hno. rewrite Hno. cbn [orb negb andb].
  destruct more as [|c more].
  - rewrite StrFacts.app_nil_r in Hhid. exact Hhid.
  - change (String c more +:+ rest) with (String c (more +:+ rest)).
    cbn [Str.starts_with_char] in *. rewrite Hdot. by rewrite andb_false_r.
Qed.

End GlobFacts.

Lemma snapshot_file_listed_witness :
  let s := Example.settings ["Front_Door"] 20 in
  let f := snapshot_file s "Front_Door" (strftime Example.noon) in
  (plain (snapshot_path s +:+ "Front_Door") = true ∧
   f ∈ [f; "./raw/Front_Door.gif"]) ∧
  f ∈ stills s "Front_Door" [f; "./raw/Front_Door.gif"].
Proof.
  intros s f.
  assert (H : f ∈ [f; "./raw/Front_Door.gif"]) by left.
  split; [split; [reflexivity|exact H]|].
  exact (snapshot_file_listed s "Front_Door" Example.noon _ eq_refl H).
Defined.

Lemma stills_of_longer_name_witness :
  let s := Example.settings ["Front"; "Front_Door"] 20 in
  let f := "./raw/Front_Door_20200601120000.jpg" in
  (literal (snapshot_path s +:+ "Front" +:+ "_Door") = true ∧
   Str.has_char "/" "_Door" = false ∧ Str.starts_with_char "." "_Door" = false ∧
   f ∈ stills s ("Front" +:+ "_Door") [f]) ∧
  f ∈ stills s "Front" [f].
Proof.
  intros s f.
  assert (H : f ∈ stills s ("Front" +:+ "_Door") [f]) by compute_done.
  split; [done|].
  exact (stills_of_longer_name s "Front" "_Door" [f] f eq_refl eq_refl eq_refl H).
Defined.

(** ** Writing a time and reading it back *)

Module RoundTrip.

#[local] Arguments String.append !_ _ / : simpl nomatch.

(** The first match of a fragment. *)
Lemma bind_head {A B} (l : list A) (f : A → list B) (x : A) (y : B)
    (tl : list A) (tl' : list B) :
  l = x :: tl → f x = y :: tl' → ∃ tl'', l ≫= f = y :: tl''.
Proof. intros -> Hf. rewrite bind_cons, Hf. by eexists. Qed.

Lemma digit_val_char (n : Z) :
  Chr.digit_val (ascii_of_nat (Z.to_nat (48 + n mod 10))) = n mod 10.
Proof.
  pose proof (Z.mod_pos_bound n 10 ltac:(lia)) as Hb.
  assert (Hcases : n mod 10 = 0 ∨ n mod 10 = 1 ∨ n mod 10 = 2 ∨ n mod 10 = 3 ∨
                   n mod 10 = 4 ∨ n mod 10 = 5 ∨ n mod 10 = 6 ∨ n mod 10 = 7 ∨
                   n mod 10 = 8 ∨ n mod 10 = 9) by lia.
  repeat destruct Hcases as [->|Hcases]; try rewrite Hcases; reflexivity.
Qed.

Lemma digit_char_not_blank (n : Z) :
  Ascii.eqb (ascii_of_nat (Z.to_nat (48 + n mod 10))) " " = false.
Proof. apply StrptimeFacts.is_digit_not_blank, StrFacts.digit_char. Qed.

(** [int] reads back a number printed on two or on four digits. *)
Lemma int_of_pad_2 (v : Z) : 0 ≤ v ≤ 99 → Str.int_of (Str.pad_digits 2 v) = v.
Proof.
  intros Hv. unfold Str.int_of. cbn [Str.pad_digits]. simpl.
  rewrite !digit_char_not_blank, !digit_val_char.
  Z.div_mod_to_equations. lia.
Qed.

Lemma int_of_pad_4 (v : Z) : 0 ≤ v ≤ 9999 → Str.int_of (Str.pad_digits 4 v) = v.
Proof.
  intros Hv. unfold Str.int_of. cbn [Str.pad_digits]. simpl.
  rewrite !digit_char_not_blank, !digit_val_char.
  Z.div_mod_to_equations. lia.
Qed.

(** The year directive takes the four digits. *)
Lemma dir_Y_head (y : Z) (rest : string) :
  dir_Y (Str.pad_digits 4 y +:+ rest) = [(Str.pad_digits 4 y, rest)].
Proof.
  cbn [Str.pad_digits]. simpl.
  unfold dir_Y, re_seq, re_d, re_class.
  repeat (first [ rewrite StrFacts.digit_char | rewrite bind_singleton
                | progress cbn ]).
  reflexivity.
Qed.

(** Numbers below sixty, one by one. *)
Lemma below_sixty (P : Z → Prop) :
  (∀ n : nat, (n < 60)%nat → P (Z.of_nat n)) → ∀ v, 0 ≤ v ≤ 59 → P v.
Proof.
  intros H v Hv. rewrite <- (Z2Nat.id v) by lia. apply H. lia.
Qed.

Ltac each_below_sixty n Hn tac :=
  do 60 (destruct n as [|n]; [tac|]); exfalso; lia.

Lemma dir_m_head (v : Z) (rest : string) :
  1 ≤ v ≤ 12 →
  ∃ tl, dir_m (Str.pad_digits 2 v +:+ rest) = (Str.pad_digits 2 v, rest) :: tl.
Proof.
  intros Hv. revert Hv.
  assert (H0 : 0 ≤ v ≤ 59 ∨ ¬ (1 ≤ v ≤ 12)) by lia.
  destruct H0 as [H0|H0]; [|tauto].
  revert v H0. apply (below_sixty (λ v, 1 ≤ v ≤ 12 → _)). intros n Hn.
  each_below_sixty n Hn ltac:(first [intros ?; exfalso; lia | intros _; eexists; reflexivity]).
Qed.

Lemma dir_d_head (v : Z) (rest : string) :
  1 ≤ v ≤ 31 →
  ∃ tl, dir_d (Str.pad_digits 2 v +:+ rest) = (Str.pad_digits 2 v, rest) :: tl.
Proof.
  intros Hv. revert Hv.
  assert (H0 : 0 ≤ v ≤ 59 ∨ ¬ (1 ≤ v ≤ 31)) by lia.
  destruct H0 as [H0|H0]; [|tauto].
  revert v H0. apply (below_sixty (λ v, 1 ≤ v ≤ 31 → _)). intros n Hn.
  each_below_sixty n Hn ltac:(first [intros ?; exfalso; lia | intros _; eexists; reflexivity]).
Qed.

Lemma dir_H_head (v : Z) (rest : string) :
  0 ≤ v ≤ 23 →
  ∃ tl, dir_H (Str.pad_digits 2 v +:+ rest) = (Str.pad_digits 2 v, rest) :: tl.
Proof.
  intros Hv. revert Hv.
  assert (H0 : 0 ≤ v ≤ 59 ∨ ¬ (0 ≤ v ≤ 23)) by lia.
  destruct H0 as [H0|H0]; [|tauto].
  revert v H0. apply (below_sixty (λ v, 0 ≤ v ≤ 23 → _)). intros n Hn.
  each_below_sixty n Hn ltac:(first [intros ?; exfalso; lia | intros _; eexists; reflexivity]).
Qed.

Lemma dir_M_head (v : Z) (rest : string) :
  0 ≤ v ≤ 59 →
  ∃ tl, dir_M (Str.pad_digits 2 v +:+ rest) = (Str.pad_digits 2 v, rest) :: tl.
Proof.
  revert v. apply (below_sixty (λ v, ∃ tl, _ = _ :: tl)). intros n Hn.
  each_below_sixty n Hn ltac:(eexists; reflexivity).
Qed.

Lemma dir_S_head (v : Z) (rest : string) :
  0 ≤ v ≤ 59 →
  ∃ tl, dir_S (Str.pad_digits 2 v +:+ rest) = (Str.pad_digits 2 v, rest) :: tl.
Proof.
  revert v. apply (below_sixty (λ v, ∃ tl, _ = _ :: tl)). intros n Hn.
  each_below_sixty n Hn ltac:(eexists; reflexivity).
Qed.

Lemma days_in_month_bound (y m : Z) : 1 ≤ m ≤ 12 → days_in_month y m ≤ 31.
Proof.
  intros Hm. unfold days_in_month. destruct (_ && _); [lia|].
  assert (Hc : m = 1 ∨ m = 2 ∨ m = 3 ∨ m = 4 ∨ m = 5 ∨ m = 6 ∨ m = 7 ∨
               m = 8 ∨ m = 9 ∨ m = 10 ∨ m = 11 ∨ m = 12) by lia.
  destruct Hc as [->|[->|[->|[->|[->|[->|[->|[->|[->|[->|[->| ->]]]]]]]]]]];
    vm_compute; discriminate.
Qed.

Lemma format_regex_strftime (d : datetime) :
  valid_now d →
  ∃ tl,
    format_regex (strftime d) =
    (mkGroups (Str.pad_digits 4 (year d)) (Str.pad_digits 2 (month d))
              (Str.pad_digits 2 (day d)) (Str.pad_digits 2 (hour d))
              (Str.pad_digits 2 (minute d)) (Str.pad_digits 2 (second d)),
     EmptyString) :: tl.
Proof.
  intros (Hy & Hm & Hd & HH & HM & HS).
  assert (Hd' : 1 ≤ day d ≤ 31).
  { pose proof (days_in_month_bound (year d) (month d) Hm). lia. }
  unfold strftime, format_regex.
  rewrite dir_Y_head, bind_singleton.
  destruct (dir_m_head (month d)
              (Str.pad_digits 2 (day d) +:+ Str.pad_digits 2 (hour d) +:+
               Str.pad_digits 2 (minute d) +:+ Str.pad_digits 2 (second d)) Hm)
    as [t1 ->].
  rewrite bind_cons.
  destruct (dir_d_head (day d)
              (Str.pad_digits 2 (hour d) +:+ Str.pad_digits 2 (minute d) +:+
               Str.pad_digits 2 (second d)) Hd') as [t2 ->].
  rewrite bind_cons.
  destruct (dir_H_head (hour d)
              (Str.pad_digits 2 (minute d) +:+ Str.pad_digits 2 (second d)) HH)
    as [t3 ->].
  rewrite bind_cons.
  destruct (dir_M_head (minute d) (Str.pad_digits 2 (second d)) HM) as [t4 ->].
  rewrite bind_cons.
  destruct (dir_S_head (second d) EmptyString HS) as [t5 H5].
  rewrite StrFacts.app_nil_r in H5. rewrite H5, bind_cons.
  cbn [app]. eexists. reflexivity.
Qed.

Lemma make_datetime_valid (d : datetime) :
  valid_now d →
  make_datetime (year d) (month d) (day d) (hour d) (minute d) (second d)
  = Some (whole_second d).
Proof.
  intros (Hy & Hm & Hd & HH & HM & HS). unfold make_datetime, MINYEAR, MAXYEAR.
  repeat match goal with
         | |- context [?a <=? ?b] => rewrite (Zle_imp_le_bool a b) by lia
         end.
  reflexivity.
Qed.

(** The digits of a valid time are read back as the fields they print. *)
Lemma read_fields (now : datetime) :
  valid_now now →
  strptime (strftime now)
  = make_datetime (year now) (month now) (day now)
                  (hour now) (minute now) (second now).
Proof.
  intros Hv. destruct (format_regex_strftime now Hv) as [tl Hre].
  unfold strptime. rewrite Hre. cbn [Str.is_empty g_Y g_m g_d g_H g_M g_S].
  destruct Hv as (Hy & Hm & Hd & HH & HM & HS).
  pose proof (days_in_month_bound (year now) (month now) Hm).
  rewrite int_of_pad_4 by lia.
  rewrite !int_of_pad_2 by lia.
  reflexivity.
Qed.

End RoundTrip.

(** X4. For a time of a four-digit year, the fourteen digits that
    acquisition prints into a file name read back, under the purge's
    format, as that time without its microseconds. *)
Theorem strptime_strftime (now : datetime) :
  valid_now now → strptime (strftime now) = Some (whole_second now).
Proof.
  intros Hv. rewrite (RoundTrip.read_fields now Hv).
  by apply RoundTrip.make_datetime_valid.
Qed.

Lemma strptime_strftime_witness :
  valid_now Example.noon_later ∧
  strptime (strftime Example.noon_later) = Some (whole_second Example.noon_later).
Proof.
  assert (H : valid_now Example.noon_later).
  { unfold valid_now. compute_done. }
  split; [exact H|]. exact (strptime_strftime Example.noon_later H).
Defined.

(** ** What the pattern of the purge finds in a file name *)

Module SearchFacts.

#[local] Arguments String.append !_ _ / : simpl nomatch.

Lemma digit_not_word (c : ascii) :
  Chr.is_digit c = true → Chr.is_word_alpha c = false.
Proof.
  unfold Chr.is_digit, Chr.is_word_alpha, Chr.between.
  change (Chr.code "0") with 48. change (Chr.code "9") with 57.
  change (Chr.code "a") with 97. change (Chr.code "z") with 122.
  change (Chr.code "A") with 65. change (Chr.code "Z") with 90.
  intros H. destruct (Ascii.eqb_spec c "_") as [->|_]; [vm_compute in H; discriminate|].
  lia.
Qed.

Lemma span_cons (p : ascii → bool) (c : ascii) (s : string) :
  Str.span p (String c s) =
  if p c then (String c (Str.span p s).1, (Str.span p s).2)
  else (EmptyString, String c s).
Proof. cbn [Str.span]. destruct (p c); [|done]. by destruct (Str.span p s). Qed.

(** The digits of a file name end where [.jpg] starts. *)
Lemma span_digits_jpg (d : string) :
  Str.all_digits d = true → Str.span Chr.is_digit (d +:+ ".jpg") = (d, ".jpg").
Proof.
  induction d as [|c d IH]; [reflexivity|].
  cbn [Str.all_digits]. intros [Hc Hd]%andb_prop.
  change (String c d +:+ ".jpg") with (String c (d +:+ ".jpg")).
  rewrite span_cons, Hc, (IH Hd). reflexivity.
Qed.

(** Over a beginning without digits, the run of letters either stops at a
    character that is no digit, or goes up to the digits. *)
Lemma span_word_no_digit (x d : string) (c0 : ascii) :
  no_digit x = true → Chr.is_digit c0 = true →
  Str.span Chr.is_word_alpha (x +:+ "_" +:+ String c0 d)
    = (x +:+ "_", String c0 d)
  ∨ ∃ a c b, Str.span Chr.is_word_alpha (x +:+ "_" +:+ String c0 d)
               = (a, String c b) ∧ Chr.is_digit c = false.
Proof.
  intros Hx Hc0. induction x as [|c x IH].
  - left. change ("" +:+ "_" +:+ String c0 d) with (String "_" (String c0 d)).
    rewrite !span_cons, (digit_not_word c0 Hc0). reflexivity.
  - cbn [no_digit] in Hx. apply andb_prop in Hx as [Hc Hx].
    apply negb_true_iff in Hc.
    change (String c x +:+ "_" +:+ String c0 d)
      with (String c (x +:+ "_" +:+ String c0 d)).
    rewrite span_cons. destruct (Chr.is_word_alpha c).
    + destruct (IH Hx) as [->|(a & c' & b & -> & Hc')].
      * left. reflexivity.
      * right. by exists (String c a), c', b.
    + right. by exists EmptyString, c, (x +:+ "_" +:+ String c0 d).
Qed.

Lemma match_here_no_digit (x d : string) (c0 : ascii) :
  no_digit x = true → Str.all_digits (String c0 d) = true →
  match_here (x +:+ "_" +:+ String c0 d +:+ ".jpg") = Some (x +:+ "_", String c0 d)
  ∨ match_here (x +:+ "_" +:+ String c0 d +:+ ".jpg") = None.
Proof.
  intros Hx Hd. pose proof Hd as Hd'. cbn [Str.all_digits] in Hd'.
  apply andb_prop in Hd' as [Hc0 _]. unfold match_here.
  change (String c0 d +:+ ".jpg") with (String c0 (d +:+ ".jpg")).
  destruct (span_word_no_digit x (d +:+ ".jpg") c0 Hx Hc0)
    as [->|(a & c & b & -> & Hc)].
  - left. assert (He : Str.is_empty (x +:+ "_") = false) by (by destruct x).
    pose proof (span_digits_jpg (String c0 d) Hd) as Hsp.
    change (String c0 d +:+ ".jpg") with (String c0 (d +:+ ".jpg")) in Hsp.
    cbv beta iota zeta. rewrite He. revert Hsp.
    destruct (Str.span Chr.is_digit _) as [g2 r2]. intros [= -> ->]. done.
  - right. cbv beta iota zeta. destruct (Str.is_empty a); [done|].
    rewrite span_cons, Hc. reflexivity.
Qed.

Lemma re_search_unfold (s : string) :
  re_search s =
  match match_here s with
  | Some m => Some m
  | None => match s with
            | EmptyString => None
            | String _ s' => re_search s'
            end
  end.
Proof. destruct s; reflexivity. Qed.

(** In a name whose beginning has no digit, the pattern finds the digits
    that follow the underscore. *)
Lemma re_search_no_digit (x d : string) :
  no_digit x = true → Str.all_digits d = true → d ≠ EmptyString →
  ∃ g, re_search (x +:+ "_" +:+ d +:+ ".jpg") = Some (g, d).
Proof.
  intros Hx Hd Hne. destruct d as [|c0 d]; [done|]. clear Hne.
  induction x as [|c x IH].
  - destruct (match_here_no_digit EmptyString d c0 eq_refl Hd) as [H|H].
    + rewrite re_search_unfold, H. by eexists.
    + exfalso. revert H. unfold match_here.
      change ("" +:+ "_" +:+ String c0 d +:+ ".jpg")
        with (String "_" (String c0 (d +:+ ".jpg"))).
      pose proof Hd as Hd'. cbn [Str.all_digits] in Hd'.
      apply andb_prop in Hd' as [Hc0 _].
      pose proof (span_digits_jpg (String c0 d) Hd) as Hsp.
      change (String c0 d +:+ ".jpg") with (String c0 (d +:+ ".jpg")) in Hsp.
      rewrite !(span_cons Chr.is_word_alpha), (digit_not_word c0 Hc0).
      change (Chr.is_word_alpha "_") with true.
      cbv beta iota zeta. cbn [fst snd Str.is_empty]. revert Hsp.
      destruct (Str.span Chr.is_digit _) as [g2 r2]. intros [= -> ->]. done.
  - pose proof Hx as Hx'. cbn [no_digit] in Hx'. apply andb_prop in Hx' as [_ Hx'].
    destruct (match_here_no_digit (String c x) d c0 Hx Hd) as [H|H].
    + rewrite re_search_unfold, H. by eexists.
    + rewrite re_search_unfold, H.
      change (String c x +:+ "_" +:+ String c0 d +:+ ".jpg")
        with (String c (x +:+ "_" +:+ String c0 d +:+ ".jpg")).
      by apply IH.
Qed.

End SearchFacts.

(** X5. When neither the snapshot path nor the camera name has a digit,
    the time that the purge reads from the name of a file written by
    acquisition is the time of the acquisition, without its
    microseconds. *)
Theorem timestamp_of_snapshot_file (s : ArloLapse) (camera_name : string)
    (now : datetime) :
  no_digit (snapshot_path s +:+ camera_name) = true →
  valid_now now →
  timestamp (snapshot_file s camera_name (strftime now)) = Some (whole_second now).
Proof.
  intros Hno Hv. unfold timestamp, snapshot_file.
  destruct (SearchFacts.re_search_no_digit (snapshot_path s +:+ camera_name)
              (strftime now) Hno (StrFacts.strftime_all_digits now)) as [g Hg].
  { intros H. pose proof (StrFacts.strftime_length now) as Hl.
    rewrite H in Hl. discriminate. }
  rewrite StrFacts.app_assoc in Hg. rewrite Hg.
  rewrite (RoundTrip.read_fields now Hv).
  by apply RoundTrip.make_datetime_valid.
Qed.

Lemma timestamp_of_snapshot_file_witness :
  let s := Example.settings ["Front_Door"] 20 in
  (no_digit (snapshot_path s +:+ "Front_Door") = true ∧ valid_now Example.noon_later) ∧
  timestamp (snapshot_file s "Front_Door" (strftime Example.noon_later))
  = Some (whole_second Example.noon_later).
Proof.
  intros s.
  assert (H : valid_now Example.noon_later) by (unfold valid_now; compute_done).
  split; [split; [reflexivity|exact H]|].
  exact (timestamp_of_snapshot_file s "Front_Door" Example.noon_later eq_refl H).
Defined.

Module SearchStable.

#[local] Arguments String.append !_ _ / : simpl nomatch.

(** A run that stops before the end of a string stops at the same place
    when the string goes on. *)
Lemma span_app_stop (p : ascii → bool) (z y : string) :
  (Str.span p z).2 ≠ EmptyString →
  Str.span p (z +:+ y) = ((Str.span p z).1, (Str.span p z).2 +:+ y).
Proof.
  induction z as [|c z IH]; [done|].
  change (String c z +:+ y) with (String c (z +:+ y)).
  rewrite !SearchFacts.span_cons. destruct (p c); cbn [fst snd]; [|done].
  intros H. by rewrite (IH H).
Qed.

Lemma span_all (p : ascii → bool) (z : string) :
  (Str.span p z).2 = EmptyString → Str.span p z = (z, EmptyString).
Proof.
  induction z as [|c z IH]; [done|].
  rewrite SearchFacts.span_cons. destruct (p c); cbn [fst snd]; [|done].
  intros H. by rewrite (IH H).
Qed.

(** What the run of letters leaves of a string that ends with an
    underscore ends with that underscore. *)
Lemma span_word_rest (a : string) :
  (Str.span Chr.is_word_alpha (a +:+ "_")).2 ≠ EmptyString →
  ∃ r0, (Str.span Chr.is_word_alpha (a +:+ "_")).2 = r0 +:+ "_".
Proof.
  induction a as [|c a IH]; [done|].
  change (String c a +:+ "_") with (String c (a +:+ "_")).
  rewrite SearchFacts.span_cons. destruct (Chr.is_word_alpha c); cbn [fst snd].
  - exact IH.
  - intros _. by exists (String c a).
Qed.

Lemma span_digit_underscore (r0 : string) :
  (Str.span Chr.is_digit (r0 +:+ "_")).2 ≠ EmptyString.
Proof.
  induction r0 as [|c r0 IH]; [done|].
  change (String c r0 +:+ "_") with (String c (r0 +:+ "_")).
  rewrite SearchFacts.span_cons. destruct (Chr.is_digit c); cbn [fst snd]; done.
Qed.

Lemma match_here_spans (s : string) :
  match_here s =
  if Str.is_empty (Str.span Chr.is_word_alpha s).1 then None
  else if Str.is_empty (Str.span Chr.is_digit (Str.span Chr.is_word_alpha s).2).1
       then None
       else Some ((Str.span Chr.is_word_alpha s).1,
                  (Str.span Chr.is_digit (Str.span Chr.is_word_alpha s).2).1).
Proof.
  unfold match_here. destruct (Str.span Chr.is_word_alpha s) as [g1 r].
  cbn [fst snd]. destruct (Str.is_empty g1); [done|].
  by destruct (Str.span Chr.is_digit r) as [g2 r'].
Qed.

(** Where the letters stop before the end, what is found at a start does
    not change when the string goes on. *)
Lemma match_here_app (a y : string) :
  (Str.span Chr.is_word_alpha (a +:+ "_")).2 ≠ EmptyString →
  match_here ((a +:+ "_") +:+ y) = match_here (a +:+ "_").
Proof.
  intros Hr. rewrite !match_here_spans, (span_app_stop _ _ _ Hr). cbn [fst snd].
  destruct (span_word_rest a Hr) as [r0 ->].
  rewrite (span_app_stop _ _ _ (span_digit_underscore r0)). reflexivity.
Qed.

Lemma re_search_all_word (z : string) :
  (Str.span Chr.is_word_alpha z).2 = EmptyString → re_search z = None.
Proof.
  induction z as [|c z IH]; [done|].
  intros H. rewrite SearchFacts.re_search_unfold, match_here_spans.
  rewrite (span_all _ _ H). cbn [fst snd Str.span Str.is_empty].
  apply IH. revert H. rewrite SearchFacts.span_cons.
  by destruct (Chr.is_word_alpha c).
Qed.

(** A match found in a string that ends with an underscore is the match
    found when the string goes on. *)
Lemma re_search_app (a y : string) (m : string * string) :
  re_search (a +:+ "_") = Some m → re_search ((a +:+ "_") +:+ y) = Some m.
Proof.
  induction a as [|c a IH]; [done|].
  destruct (decide ((Str.span Chr.is_word_alpha (String c a +:+ "_")).2 = EmptyString))
    as [Hall|Hstop].
  { intros H. by rewrite (re_search_all_word _ Hall) in H. }
  rewrite (SearchFacts.re_search_unfold ((String c a +:+ "_") +:+ y)).
  rewrite (match_here_app (String c a) y Hstop).
  rewrite (SearchFacts.re_search_unfold (String c a +:+ "_")).
  destruct (match_here (String c a +:+ "_")); [done|].
  change ((String c a +:+ "_") +:+ y) with (String c ((a +:+ "_") +:+ y)).
  change (String c a +:+ "_") with (String c (a +:+ "_")).
  exact IH.
Qed.

End SearchStable.

(** X6. When the pattern of the purge already finds its two groups in the
    snapshot path, the camera name and the underscore after it (there is a
    digit right after a letter or an underscore in them), the time read
    from the name of a still of that camera comes from those digits, and
    is the same whatever time the name was written with. *)
Theorem timestamp_from_digits_of_name (s : ArloLapse) (camera_name : string)
    (letters digits : string) :
  re_search (snapshot_path s +:+ camera_name +:+ "_") = Some (letters, digits) →
  ∀ now_str,
    timestamp (snapshot_file s camera_name now_str) = strptime digits.
Proof.
  intros H now_str. unfold timestamp, snapshot_file.
  rewrite <- StrFacts.app_assoc in H.
  rewrite <- (StrFacts.app_assoc (snapshot_path s)).
  rewrite <- (StrFacts.app_assoc _ "_").
  by rewrite (SearchStable.re_search_app _ _ _ H).
Qed.

Lemma timestamp_from_digits_of_name_witness :
  let s := Example.settings ["Cam_2"] 20 in
  re_search (snapshot_path s +:+ "Cam_2" +:+ "_") = Some ("Cam_", "2") ∧
  timestamp (snapshot_file s "Cam_2" (strftime Example.noon)) = strptime "2".
Proof.
  intros s.
  assert (H : re_search (snapshot_path s +:+ "Cam_2" +:+ "_") = Some ("Cam_", "2"))
    by reflexivity.
  split; [exact H|].
  exact (timestamp_from_digits_of_name s "Cam_2" "Cam_" "2" H (strftime Example.noon)).
Defined.

(** ** The files and the calls of an acquisition *)

#[local] Arguments create_w : simpl never.

Section AcquisitionFiles.

Variable E : env.

Lemma elem_of_create (f g : string) (w : world) :
  g ∈ w_fs (create_w f w) ↔ g ∈ w_fs w ∨ g = f.
Proof.
  unfold create_w. cbn. case_bool_decide as Hin.
  - split; [by left|]. intros [?| ->]; done.
  - rewrite elem_of_app, list_elem_of_singleton. done.
Qed.

(** One pass of the loop keeps every file, and a file it adds is the
    snapshot file of its camera, whose name is in the camera list. *)
Lemma snapshot_camera_files (now_str : string) (bs : list device) (cam : device)
    (st : state) (f : string) :
  (f ∈ fs st → f ∈ fs (snapshot_camera E now_str bs cam st).2) ∧
  (f ∈ fs (snapshot_camera E now_str bs cam st).2 →
   f ∈ fs st ∨
   (device_camera_name cam ∈ camera_names (self st) ∧
    f = snapshot_file (self st) (device_camera_name cam) now_str)).
Proof.
  unfold snapshot_camera, try_timeout, try_except, first_item,
    get_snapshot_url, DownloadSnapshot, fs.
  mrun. case_bool_decide as Hin; cbn; [|tauto].
  destruct bs as [|b0 bs']; cbn; [tauto|].
  destruct (arlo_trigger E b0 cam) as [[url|]|e]; cbn.
  - destruct (arlo_download E url _) as [[]|e]; cbn.
    + rewrite elem_of_create. autorewrite with world. unfold snapshot_file. tauto.
    + destruct (is_timeout e); cbn; tauto.
  - tauto.
  - destruct (is_timeout e); cbn; tauto.
Qed.

Lemma snapshot_loop_files (now_str : string) (bs cams : list device)
    (st : state) (f : string) :
  (f ∈ fs st → f ∈ fs (for_each cams (snapshot_camera E now_str bs) st).2) ∧
  (f ∈ fs (for_each cams (snapshot_camera E now_str bs) st).2 →
   f ∈ fs st ∨
   ∃ cam, cam ∈ cams ∧ device_camera_name cam ∈ camera_names (self st) ∧
          f = snapshot_file (self st) (device_camera_name cam) now_str).
Proof.
  revert st. induction cams as [|cam cams IH]; intros st; [cbn; tauto|].
  rewrite for_each_cons.
  pose proof (snapshot_camera_files now_str bs cam st f) as [H1 H2].
  pose proof (keeps_snapshot_camera E eq now_str bs cam st) as Hs.
  destruct (snapshot_camera E now_str bs cam st) as [[[]|e] st1]; cbn in *.
  - destruct (IH st1) as [H3 H4]. rewrite <- Hs in H4. split; [tauto|].
    intros Hf. destruct (H4 Hf) as [Hf1|(c & Hc & Hn & ->)].
    + destruct (H2 Hf1) as [?|[? ->]]; [by left|].
      right. exists cam. split; [left|done].
    + right. exists c. split; [by right|done].
  - split; [tauto|]. intros Hf. destruct (H2 Hf) as [?|[? ->]]; [by left|].
    right. exists cam. split; [left|done].
Qed.

(** X7. Acquisition removes no file.  A file that is there afterwards and
    was not there before is the snapshot file, named with the time of the
    acquisition, of a discovered camera whose name is in the camera list
    that acquisition leaves. *)
Theorem get_snapshots_files (now : datetime) (st : state) (f : string) :
  (f ∈ fs st → f ∈ fs (get_snapshots E now st).2) ∧
  (f ∈ fs (get_snapshots E now st).2 →
   f ∈ fs st ∨
   ∃ name, name ∈ camera_names (self (get_snapshots E now st).2) ∧
           f = snapshot_file (self st) name (strftime now)).
Proof.
  destruct (arlo_login E (username (self st)) (password (self st))) as [[]|e] eqn:Hl.
  2:{ unfold get_snapshots, acquire, try_except, fs. mrun. rewrite Hl. cbn. tauto. }
  destruct (arlo_devices E "basestation") as [bs|e] eqn:Hb.
  2:{ unfold get_snapshots, acquire, try_except, fs. mrun. rewrite Hl. cbn.
      rewrite Hb. cbn. tauto. }
  destruct (arlo_devices E "camera") as [cams|e] eqn:Hc.
  2:{ unfold get_snapshots, acquire, try_except, fs. mrun. rewrite Hl. cbn.
      rewrite Hb. cbn. rewrite Hc. cbn. tauto. }
  destruct (get_snapshots_after_discovery E now st bs cams Hl Hb Hc)
    as (st1 & Hrun & Hset & _ & _ & Hfs).
  rewrite Hrun. unfold try_except.
  pose proof (snapshot_loop_files (strftime now) bs cams st1 f) as [H1 H2].
  pose proof (keeps_for_each eq cams (snapshot_camera E (strftime now) bs)
                (keeps_snapshot_camera E eq (strftime now) bs) st1) as Hk.
  assert (Hpath : ∀ name, snapshot_file (self st1) name (strftime now)
                          = snapshot_file (self st) name (strftime now)).
  { intros name. unfold snapshot_file.
    destruct Hset as (_ & _ & _ & <- & _). reflexivity. }
  destruct (for_each cams _ st1) as [[[]|e] st2]; cbn in *; rewrite <- Hfs;
    (split; [exact H1|]); intros Hf;
    (destruct (H2 Hf) as [?|(c & _ & Hn & ->)]; [by left|]);
    right; exists (device_camera_name c); rewrite <- Hk, Hpath; done.
Qed.

(** X8. With an empty list of base stations, acquisition asks for no
    snapshot and writes no file: at the first camera that is in the camera
    list, or that is discovered when no camera is configured, it ends with
    [IndexError], which is printed, and it returns. *)
Theorem get_snapshots_without_basestation (now : datetime) (st : state)
    (cams : list device) (cam : device) :
  arlo_login E (username (self st)) (password (self st)) = Ret tt →
  arlo_devices E "basestation" = Ret [] →
  arlo_devices E "camera" = Ret cams →
  cam ∈ cams →
  camera_names (self st) = [] ∨ device_camera_name cam ∈ camera_names (self st) →
  (get_snapshots E now st).1 = Ret tt ∧
  fs (get_snapshots E now st).2 = fs st ∧
  trace (get_snapshots E now st).2 =
    trace st ++ [EvLogin (username (self st)) (password (self st));
                 EvGetDevices "basestation"; EvGetDevices "camera";
                 EvPrint IndexError].
Proof.
  intros Hl Hb Hc Hcam Hsel.
  destruct (get_snapshots_after_discovery E now st [] cams Hl Hb Hc)
    as (st1 & Hrun & _ & Hnames & Htr & Hfs).
  assert (Hin : device_camera_name cam ∈ camera_names (self st1)).
  { rewrite Hnames. destruct (camera_names (self st)) as [|n ns] eqn:Hn.
    - apply list_elem_of_fmap. by exists cam.
    - destruct Hsel as [?|Hsel]; [done|].
      rewrite elem_of_elements, elem_of_intersection, !elem_of_list_to_set.
      split; [done|]. apply list_elem_of_fmap. by exists cam. }
  assert (Hloop : ∀ st2, device_camera_name cam ∈ camera_names (self st2) →
            ∃ st3, for_each cams (snapshot_camera E (strftime now) []) st2
                   = (Raise IndexError, st3) ∧
                   fs st3 = fs st2 ∧ trace st3 = trace st2).
  { clear -Hcam. induction cams as [|c cams IH]; intros [s2 w2] Hin2.
    { by apply elem_of_nil in Hcam. }
    rewrite for_each_cons.
    assert (Hstep :
      snapshot_camera E (strftime now) [] c (mkState s2 w2) =
      if bool_decide (device_camera_name c ∈ camera_names s2) then
        (Raise IndexError,
         mkState s2 (log_w DEBUG ("Getting snapshot for " +:+ device_camera_name c) w2))
      else (Ret tt, mkState s2 w2)).
    { unfold snapshot_camera, try_timeout, try_except, first_item. mrun.
      by case_bool_decide. }
    rewrite Hstep. case_bool_decide as Hc.
    - eexists. split; [reflexivity|]. done.
    - assert (Hcam' : cam ∈ cams).
      { apply elem_of_cons in Hcam as [->|?]; done. }
      destruct (IH Hcam' (mkState s2 w2) Hin2) as (st3 & -> & ? & ?).
      by exists st3. }
  destruct (Hloop st1 Hin) as (st3 & Hrun3 & Hfs3 & Htr3).
  rewrite Hrun. unfold try_except. rewrite Hrun3. unfold emit, on_world, fs, trace in *.
  cbn. autorewrite with world. rewrite Hfs3, Htr3, Hfs, Htr, <- app_assoc. done.
Qed.

End AcquisitionFiles.

Lemma get_snapshots_files_witness :
  let st := Example.state_of [] 20 ["./raw/Front_Door_20200531120000.jpg"] in
  let f := "./raw/Front_Door_20200601120000.jpg" in
  f ∈ fs (get_snapshots Example.service Example.noon st).2 ∧
  (f ∈ fs st ∨
   ∃ name, name ∈ camera_names (self (get_snapshots Example.service Example.noon st).2) ∧
           f = snapshot_file (self st) name (strftime Example.noon)).
Proof.
  intros st f.
  assert (H : f ∈ fs (get_snapshots Example.service Example.noon st).2)
    by compute_done.
  split; [exact H|].
  destruct (get_snapshots_files Example.service Example.noon st f) as [_ H2].
  exact (H2 H).
Defined.

Lemma get_snapshots_without_basestation_witness :
  let st := Example.state_of ["Front_Door"] 20 [] in
  (arlo_login Example.service_without_base "me" "secret" = Ret tt ∧
   arlo_devices Example.service_without_base "basestation" = Ret [] ∧
   arlo_devices Example.service_without_base "camera"
     = Ret [Example.front; Example.cam2] ∧
   Example.front ∈ [Example.front; Example.cam2] ∧
   (camera_names (self st) = [] ∨
    device_camera_name Example.front ∈ camera_names (self st))) ∧
  (get_snapshots Example.service_without_base Example.noon st).1 = Ret tt ∧
  fs (get_snapshots Example.service_without_base Example.noon st).2 = fs st ∧
  trace (get_snapshots Example.service_without_base Example.noon st).2 =
    trace st ++ [EvLogin "me" "secret"; EvGetDevices "basestation";
                 EvGetDevices "camera"; EvPrint IndexError].
Proof.
  intros st.
  assert (H1 : Example.front ∈ [Example.front; Example.cam2]) by left.
  assert (H2 : camera_names (self st) = [] ∨
               device_camera_name Example.front ∈ camera_names (self st))
    by (right; left).
  split; [done|].
  exact (get_snapshots_without_basestation Example.service_without_base
           Example.noon st [Example.front; Example.cam2] Example.front
           eq_refl eq_refl eq_refl H1 H2).
Defined.

(** ** A run without the camera service *)

Section Offline.

Variable E : env.

(** X9. When the login is refused and no camera is configured, the run
    returns without touching a file: the login attempt and the printed
    exception are its only calls, and the instance is as constructed. *)
Theorem run_offline_without_cameras (now_get now_purge : datetime) (st : state)
    (e : exn) :
  arlo_login E (username (self st)) (password (self st)) = Raise e →
  camera_names (self st) = [] →
  ∃ st',
    run E now_get now_purge st = (Ret tt, st') ∧
    self st' = self st ∧ fs st' = fs st ∧
    trace st' = trace st ++ [EvLogin (username (self st)) (password (self st));
                             EvPrint e].
Proof.
  intros Hl Hn. destruct st as [s w]. cbn in Hl, Hn.
  unfold run, get_snapshots, acquire, try_except, purge_snapshots, make_lapse.
  mrun. rewrite Hl. cbn. repeat (rewrite Hn; cbn).
  eexists. split; [reflexivity|]. unfold fs, trace. cbn. autorewrite with world.
  rewrite <- app_assoc. done.
Qed.

End Offline.

Lemma run_offline_without_cameras_witness :
  let st := Example.state_of [] 20 ["./raw/Front_Door_20200101000000.jpg"] in
  (arlo_login Example.service_offline "me" "secret"
     = Raise (LibraryError "login failed") ∧
   camera_names (self st) = []) ∧
  ∃ st',
    run Example.service_offline Example.noon Example.noon_later st = (Ret tt, st') ∧
    self st' = self st ∧ fs st' = fs st ∧
    trace st' = trace st ++ [EvLogin "me" "secret";
                             EvPrint (LibraryError "login failed")].
Proof.
  intros st. split; [done|].
  exact (run_offline_without_cameras Example.service_offline Example.noon
           Example.noon_later st (LibraryError "login failed") eq_refl eq_refl).
Defined.

(** ** What the purge leaves alone *)

Lemma glob_match_jpg (prefix f : string) :
  glob_match prefix f = true → Str.ends_with ".jpg" f = true.
Proof.
  unfold glob_match.
  destruct (Str.strip_prefix prefix f) as [rest|] eqn:Hs; [|done].
  apply StrFacts.strip_prefix_spec in Hs. subst f.
  intros [[Hjpg _]%andb_prop _]%andb_prop.
  by apply StrFacts.ends_with_app_l.
Qed.

Section PurgeFrame.

Variable now : datetime.

(** X10. With a plain snapshot path and plain camera names, whether it
    returns or raises, the purge creates no file and calls nothing but
    [os.remove]; a file it removes is listed for a configured camera and
    has a time before the limit, so a file whose name does not end in
    [.jpg], the animations among them, is never removed. *)
Theorem purge_removes_only_old_stills (st : state) :
  NoDup (fs st) →
  plain_patterns (self st) →
  ∃ removed,
    fs (purge_snapshots now st).2 = filter (λ f, f ∉ removed) (fs st) ∧
    trace (purge_snapshots now st).2 = trace st ++ (EvRemove <$> removed) ∧
    (∀ f, f ∈ removed →
          f ∈ fs st ∧ old (self st) now f = true ∧
          Str.ends_with ".jpg" f = true ∧
          ∃ c, c ∈ camera_names (self st) ∧ f ∈ stills (self st) c (fs st)) ∧
    (∀ f, f ∈ fs st → Str.ends_with ".jpg" f = false →
          f ∈ fs (purge_snapshots now st).2).
Proof.
  intros Hnd _.
  destruct (purge_snapshots_run now st Hnd) as (st' & Hrun & _ & Hfs & Htr).
  rewrite Hrun. cbn [snd].
  pose proof (purge_cameras_removed (self st) now (camera_names (self st)) (fs st))
    as Hrem.
  exists (purge_cameras (self st) now (camera_names (self st)) (fs st)).2.
  assert (Hall : ∀ f, f ∈ (purge_cameras (self st) now (camera_names (self st)) (fs st)).2 →
            f ∈ fs st ∧ old (self st) now f = true ∧
            Str.ends_with ".jpg" f = true ∧
            ∃ c, c ∈ camera_names (self st) ∧ f ∈ stills (self st) c (fs st)).
  { intros f Hf. destruct (Hrem f Hf) as (Hin & Hold & c & Hc & Hst).
    split_and!; [done|done| |by exists c].
    apply list_elem_of_filter in Hst as [Hm _]. by apply glob_match_jpg in Hm. }
  split_and!; [exact Hfs|exact Htr|exact Hall|].
  intros f Hin Hjpg. rewrite Hfs. apply list_elem_of_filter. split; [|done].
  intros Hf. destruct (Hall f Hf) as (_ & _ & Hj & _). congruence.
Qed.

(** X11. With a plain snapshot path and plain camera names, after a purge
    that returns the files listed for a configured camera are the ones
    listed before whose time is not before the limit, each once: this is
    what the assembly that follows sorts and encodes. *)
Theorem stills_after_purge (st st' : state) (c : string) :
  NoDup (fs st) →
  plain_patterns (self st) →
  purge_snapshots now st = (Ret tt, st') →
  c ∈ camera_names (self st) →
  stills (self st') c (fs st')
  ≡ₚ filter (λ f, old (self st) now f = false) (stills (self st) c (fs st)).
Proof.
  intros Hnd _ Hret Hc.
  enough (Heq : stills (self st') c (fs st')
                = filter (λ f, old (self st) now f = false)
                    (stills (self st) c (fs st))) by (by rewrite Heq).
  destruct (purge_snapshots_run now st Hnd) as (st1 & Hrun & Hself & Hfs & _).
  rewrite Hret in Hrun.
  pose proof (purge_cameras_removed (self st) now (camera_names (self st)) (fs st))
    as Hrem.
  pose proof (purge_cameras_returns (self st) now (camera_names (self st)) (fs st))
    as Hkeep.
  destruct (purge_cameras (self st) now (camera_names (self st)) (fs st))
    as [[e|] removed]; cbn [fst snd outcome_of] in *; [discriminate|].
  injection Hrun as <-. rewrite Hself, Hfs, stills_filter.
  apply filter_agree. intros f Hf. split.
  - intros Hn. destruct (old (self st) now f) eqn:Hold; [|done].
    exfalso. apply Hn. by apply (Hkeep eq_refl c f Hc Hf).
  - intros Hold Hr. destruct (Hrem f Hr) as (_ & Ho & _). congruence.
Qed.

End PurgeFrame.

Lemma purge_removes_only_old_stills_witness :
  let st := Example.state_of ["Front_Door"] 20
              ["./raw/Front_Door_20200101000000.jpg"; "./raw/Front_Door.gif";
               "./raw/Front_Door_latest.jpg"] in
  (NoDup (fs st) ∧ plain_patterns (self st)) ∧
  ∃ removed,
    fs (purge_snapshots Example.noon st).2 = filter (λ f, f ∉ removed) (fs st) ∧
    trace (purge_snapshots Example.noon st).2 = trace st ++ (EvRemove <$> removed) ∧
    (∀ f, f ∈ removed →
          f ∈ fs st ∧ old (self st) Example.noon f = true ∧
          Str.ends_with ".jpg" f = true ∧
          ∃ c, c ∈ camera_names (self st) ∧ f ∈ stills (self st) c (fs st)) ∧
    (∀ f, f ∈ fs st → Str.ends_with ".jpg" f = false →
          f ∈ fs (purge_snapshots Example.noon st).2).
Proof.
  intros st.
  assert (H : NoDup (fs st)) by compute_done.
  assert (Hplain : plain_patterns (self st)).
  { intros c Hc. apply list_elem_of_singleton in Hc as ->. reflexivity. }
  split; [done|].
  exact (purge_removes_only_old_stills Example.noon st H Hplain).
Defined.

Lemma stills_after_purge_witness :
  let st := Example.state_of ["Front_Door"] 20
              ["./raw/Front_Door_20200531115959.jpg";
               "./raw/Front_Door_20200531120000.jpg";
               "./raw/Front_Door_20200601110000.jpg"] in
  let st' := (purge_snapshots Example.noon st).2 in
  (NoDup (fs st) ∧ plain_patterns (self st) ∧
   purge_snapshots Example.noon st = (Ret tt, st') ∧
   "Front_Door" ∈ camera_names (self st)) ∧
  stills (self st') "Front_Door" (fs st')
  ≡ₚ filter (λ f, old (self st) Example.noon f = false)
       (stills (self st) "Front_Door" (fs st)).
Proof.
  intros st st'.
  assert (H1 : NoDup (fs st)) by compute_done.
  assert (Hplain : plain_patterns (self st)).
  { intros c Hc. apply list_elem_of_singleton in Hc as ->. reflexivity. }
  assert (H2 : purge_snapshots Example.noon st = (Ret tt, st'))
    by (vm_compute; reflexivity).
  assert (H3 : "Front_Door" ∈ camera_names (self st)) by left.
  split; [split_and!; assumption|].
  exact (stills_after_purge Example.noon st st' "Front_Door" H1 Hplain H2 H3).
Defined.

(** ** The files and the failures of an assembly *)

#[local] Arguments map_M : simpl never.

Section AssemblyFiles.

Variable E : env.

Lemma glob_create_gif (prefix a b : string) (w : world) :
  glob prefix (w_fs (create_w (a +:+ b +:+ ".gif") w)) = glob prefix (w_fs w).
Proof.
  unfold create_w. cbn. case_bool_decide; [done|].
  unfold glob. rewrite filter_app, filter_cons_False, filter_nil, app_nil_r; [done|].
  rewrite <- StrFacts.app_assoc, glob_match_gif. done.
Qed.

Lemma map_M_cons {A B} (f : A → M B) (x : A) (l : list A) (st : state) :
  map_M f (x :: l) st =
  match f x st with
  | (Ret y, st1) =>
      match map_M f l st1 with
      | (Ret ys, st2) => (Ret (y :: ys), st2)
      | (Raise e, st2) => (Raise e, st2)
      end
  | (Raise e, st1) => (Raise e, st1)
  end.
Proof.
  unfold map_M; fold (@map_M A B). rewrite bind_run.
  destruct (f x st) as [[y|e] st1]; [|done].
  rewrite bind_run. by destruct (map_M f l st1) as [[ys|e] st2].
Qed.

Lemma imread_run (f : string) (st : state) :
  imread E f st =
  match imageio_imread E f with
  | Ret _ => (Ret (ImageOf f), mkState (self st) (emit_w (EvImread f) (wd st)))
  | Raise e => (Raise e, mkState (self st) (emit_w (EvImread f) (wd st)))
  end.
Proof. unfold imread. mrun. by destruct (imageio_imread E f) as [[]|e]. Qed.

(** Reading the stills changes neither the files nor the instance, and
    calls nothing but the reader. *)
Lemma read_all_world (files : list string) (st : state) :
  ∃ read,
    self (map_M (imread E) files st).2 = self st ∧
    fs (map_M (imread E) files st).2 = fs st ∧
    trace (map_M (imread E) files st).2 = trace st ++ (EvImread <$> read) ∧
    (∀ e, (∃ f, f ∈ files ∧ imageio_imread E f = Raise e) →
          ∃ e', (map_M (imread E) files st).1 = Raise e').
Proof.
  revert st. induction files as [|f files IH]; intros st.
  - exists []. cbn. rewrite app_nil_r. split_and!; try done.
    intros e (f & Hf & _). by apply elem_of_nil in Hf.
  - rewrite map_M_cons, imread_run.
    destruct (imageio_imread E f) as [[]|e0] eqn:Hf.
    + destruct (IH (mkState (self st) (emit_w (EvImread f) (wd st))))
        as (read & Hs & Hfs & Htr & Hfail).
      exists (f :: read).
      destruct (map_M (imread E) files _) as [[imgs|e1] st1]; cbn [fst snd] in *.
      * split_and!; [exact Hs|exact Hfs| |].
        -- rewrite Htr. unfold trace. cbn. autorewrite with world.
           by rewrite <- app_assoc.
        -- intros e (g & [->|Hg]%elem_of_cons & He); [congruence|].
           destruct (Hfail e) as [e' He']; [by exists g|]. discriminate He'.
      * split_and!; [exact Hs|exact Hfs| |].
        -- rewrite Htr. unfold trace. cbn. autorewrite with world.
           by rewrite <- app_assoc.
        -- intros _ _. by eexists.
    + exists [f]. cbn [fst snd]. unfold trace, fs. cbn. autorewrite with world.
      split_and!; try done. intros _ _. by eexists.
Qed.

Lemma keeps_lapse_camera (c : string) : keeps eq (lapse_camera E c).
Proof.
  unfold lapse_camera, true_div, imread, mimwrite, os_system_gifsicle.
  keeps_auto.
Qed.

(** One pass of the loop keeps every file and what is listed for every
    camera; a file it adds is one of the two animations of its camera. *)
Lemma lapse_camera_world (c : string) (st : state) :
  (∀ prefix, glob prefix (fs (lapse_camera E c st).2) = glob prefix (fs st)) ∧
  (∀ f, f ∈ fs st → f ∈ fs (lapse_camera E c st).2) ∧
  (∀ f, f ∈ fs (lapse_camera E c st).2 →
        f ∈ fs st ∨ f = output_file (self st) c ∨ f = final_file (self st) c) ∧
  (∀ ev, ev ∈ trace (lapse_camera E c st).2 → ev ∈ trace st ∨
         ∀ g, ev ≠ EvRemove g).
Proof.
  destruct st as [s w]. unfold lapse_camera, true_div. mrun.
  destruct (length _) as [|n]; cbn.
  { unfold fs, trace. cbn. autorewrite with world. split_and!; try tauto. }
  destruct (int_true_divide _ _) as [fps|e0]; cbn.
  2:{ unfold fs, trace. cbn. autorewrite with world. split_and!; try tauto. }
  match goal with
  | |- context [map_M (imread E) ?l ?st0] =>
      destruct (read_all_world l st0) as (read & Hs & Hfs & Htr & _);
      destruct (map_M (imread E) l st0) as [[imgs|e] st1]
  end; cbn in *.
  2:{ unfold fs, trace in *. cbn in *. autorewrite with world in *.
      rewrite Hfs, Htr. split_and!; try tauto.
      intros ev [?|Hev]%elem_of_app; [by left|]. right.
      apply list_elem_of_fmap in Hev as (g' & -> & _). done. }
  unfold mimwrite, os_system_gifsicle, output_file, final_file. mrun.
  rewrite Hs. cbn.
  destruct (imageio_mimwrite E _ _ _) as [[]|e]; cbn;
    unfold fs, trace in *; cbn in *; autorewrite with world in *.
  - split_and!.
    + intros prefix.
      repeat first [rewrite glob_create_gif | progress autorewrite with world].
      by rewrite Hfs.
    + intros f Hf.
      repeat first [rewrite elem_of_create | progress autorewrite with world].
      rewrite Hfs. tauto.
    + intros f.
      repeat first [rewrite elem_of_create | progress autorewrite with world].
      rewrite Hfs. tauto.
    + intros ev. rewrite Htr, !elem_of_app, !list_elem_of_singleton.
      intros [[[?|Hev]| ->]| ->]; [by left|right..]; try done.
      apply list_elem_of_fmap in Hev as (g' & -> & _). done.
  - rewrite Hfs. split_and!; try tauto.
    intros ev. rewrite Htr, !elem_of_app, list_elem_of_singleton.
    intros [[?|Hev]| ->]; [by left|right..]; try done.
    apply list_elem_of_fmap in Hev as (g' & -> & _). done.
Qed.

Lemma lapse_loop_world (names : list string) (st : state) :
  (∀ prefix, glob prefix (fs (for_each names (lapse_camera E) st).2)
             = glob prefix (fs st)) ∧
  (∀ f, f ∈ fs st → f ∈ fs (for_each names (lapse_camera E) st).2) ∧
  (∀ f, f ∈ fs (for_each names (lapse_camera E) st).2 →
        f ∈ fs st ∨ ∃ c, c ∈ names ∧
                         (f = output_file (self st) c ∨ f = final_file (self st) c)) ∧
  (∀ ev, ev ∈ trace (for_each names (lapse_camera E) st).2 → ev ∈ trace st ∨
         ∀ g, ev ≠ EvRemove g).
Proof.
  revert st. induction names as [|c names IH]; intros st.
  { cbn. split_and!; try tauto. }
  rewrite for_each_cons.
  pose proof (lapse_camera_world c st) as (H1 & H2 & H3 & H4).
  pose proof (keeps_lapse_camera c st) as Hs.
  destruct (lapse_camera E c st) as [[[]|e] st1]; cbn in *.
  - destruct (IH st1) as (I1 & I2 & I3 & I4). rewrite <- Hs in I3. split_and!.
    + intros prefix. by rewrite I1, H1.
    + intros f Hf. by apply I2, H2.
    + intros f Hf. destruct (I3 f Hf) as [Hf1|(c' & Hc' & Hc'')].
      * destruct (H3 f Hf1) as [?|Hfc]; [by left|].
        right. exists c. split; [left|done].
      * right. exists c'. split; [by right|done].
    + intros ev Hev. destruct (I4 ev Hev) as [Hev1|?]; [|by right].
      by apply H4.
  - split_and!; [done|done| |done].
    intros f Hf. destruct (H3 f Hf) as [?|Hfc]; [by left|].
    right. exists c. split; [left|done].
Qed.

(** X12. When the paths followed by the configured camera names are plain,
    so that the shell reads each command as the compressor, its input and
    one redirection, the assembly removes no file and never calls
    [os.remove]; a file it adds is the encoder's or the compressor's
    animation of a configured camera; and the files listed for any camera
    are the same after it as before, so the animations it leaves in the
    snapshot directory are not frames of the next run. *)
Theorem make_lapse_files (st : state) :
  plain_commands (self st) →
  (∀ c, stills (self st) c (fs (make_lapse E st).2) = stills (self st) c (fs st)) ∧
  (∀ f, f ∈ fs st → f ∈ fs (make_lapse E st).2) ∧
  (∀ f, f ∈ fs (make_lapse E st).2 →
        f ∈ fs st ∨ ∃ c, c ∈ camera_names (self st) ∧
                         (f = output_file (self st) c ∨ f = final_file (self st) c)) ∧
  (∀ g, EvRemove g ∈ trace (make_lapse E st).2 → EvRemove g ∈ trace st).
Proof.
  intros _. destruct st as [s w]. unfold make_lapse. mrun.
  pose proof (lapse_loop_world (camera_names s)
                (mkState s (log_w INFO "Making Time Lapses..." w)))
    as (H1 & H2 & H3 & H4).
  split_and!.
  - intros c. apply H1.
  - exact H2.
  - exact H3.
  - intros g Hg. destruct (H4 _ Hg) as [?|Hne]; [done|]. by destruct (Hne g).
Qed.

End AssemblyFiles.

Lemma make_lapse_files_witness :
  let st := Example.state_of ["Front_Door"] 20
              ["./raw/Front_Door_20200601000000.jpg"] in
  plain_commands (self st) ∧
  ∀ f, f ∈ fs (make_lapse Example.service st).2 →
       f ∈ fs st ∨ ∃ c, c ∈ camera_names (self st) ∧
                        (f = output_file (self st) c ∨ f = final_file (self st) c).
Proof.
  intros st.
  assert (H : plain_commands (self st)).
  { intros c Hc. apply list_elem_of_singleton in Hc as ->. split; reflexivity. }
  split; [exact H|].
  destruct (make_lapse_files Example.service st H) as (_ & _ & H3 & _).
  exact H3.
Defined.

(** ** What every method body does to the world *)

Section Evolves.

Context (R : relation world) `{!Reflexive R} `{!Transitive R}.

Lemma evolves_ret {A} (a : A) : evolves R (mret a : M A).
Proof. intros st. simpl. reflexivity. Qed.

Lemma evolves_raise {A} (e : exn) : evolves R (raise e : M A).
Proof. intros st. simpl. reflexivity. Qed.

Lemma evolves_answer {A} (o : outcome A) : evolves R (answer o).
Proof. intros st. simpl. reflexivity. Qed.

Lemma evolves_get_self : evolves R get_self.
Proof. intros st. simpl. reflexivity. Qed.

Lemma evolves_get_fs : evolves R get_fs.
Proof. intros st. simpl. reflexivity. Qed.

Lemma evolves_set_camera_names (l : list string) : evolves R (set_camera_names l).
Proof. intros st. simpl. reflexivity. Qed.

Lemma evolves_on_world (f : world → world) :
  (∀ w, R w (f w)) → evolves R (on_world f).
Proof. intros Hf st. simpl. apply Hf. Qed.

Lemma evolves_bind {A B} (m : M A) (f : A → M B) :
  evolves R m → (∀ a, evolves R (f a)) → evolves R (m ≫= f).
Proof.
  intros Hm Hf st. rewrite bind_run. specialize (Hm st).
  destruct (m st) as [[a|e] st']; simpl in *; [|done].
  etrans; [exact Hm|apply Hf].
Qed.

Lemma evolves_try_except {A} (body : M A) (handler : exn → M A) :
  evolves R body → (∀ e, evolves R (handler e)) →
  evolves R (try_except body handler).
Proof.
  intros Hm Hf st. unfold try_except. specialize (Hm st).
  destruct (body st) as [[a|e] st']; simpl in *; [done|].
  etrans; [exact Hm|apply Hf].
Qed.

Lemma evolves_for_each {A} (l : list A) (body : A → M unit) :
  (∀ x, evolves R (body x)) → evolves R (for_each l body).
Proof.
  intros Hb. induction l as [|x l IH]; simpl.
  - apply evolves_ret.
  - apply evolves_bind; [apply Hb|intros _; exact IH].
Qed.

Lemma evolves_map_M {A B} (f : A → M B) (l : list A) :
  (∀ x, evolves R (f x)) → evolves R (map_M f l).
Proof.
  intros Hf. induction l as [|x l IH].
  - apply evolves_ret.
  - cbn [map_M]. apply evolves_bind; [apply Hf|intros y].
    apply evolves_bind; [exact IH|intros ys; apply evolves_ret].
Qed.

End Evolves.

Ltac evolves_auto :=
  repeat
    match goal with
    | |- Reflexive _ => apply _
    | |- Transitive _ => apply _
    | |- ∀ _, _ => intros ?
    | |- evolves _ (mret _) => apply evolves_ret
    | |- evolves _ (raise _) => apply evolves_raise
    | |- evolves _ (answer _) => apply evolves_answer
    | |- evolves _ get_self => apply evolves_get_self
    | |- evolves _ get_fs => apply evolves_get_fs
    | |- evolves _ (set_camera_names _) => apply evolves_set_camera_names
    | |- evolves _ (on_world _) => apply evolves_on_world
    | |- evolves _ (LOGGER _ _) => apply evolves_on_world
    | |- evolves _ (emit _) => apply evolves_on_world
    | |- evolves _ (_ ≫= _) => apply evolves_bind
    | |- evolves _ (try_except _ _) => apply evolves_try_except
    | |- evolves _ (for_each _ _) => apply evolves_for_each
    | |- evolves _ (map_M _ _) => apply evolves_map_M
    | |- evolves _ (match ?x with _ => _ end) => destruct x
    end.

Global Instance trace_grows_refl : Reflexive trace_grows.
Proof. intros w ev. done. Qed.

Global Instance trace_grows_trans : Transitive trace_grows.
Proof. intros a b c Hab Hbc ev Hev. by apply Hbc, Hab. Qed.

Global Instance logs_on_refl : Reflexive logs_on.
Proof. intros w. exists []. by rewrite app_nil_r. Qed.

Global Instance logs_on_trans : Transitive logs_on.
Proof.
  intros a b c (l1 & H1 & F1) (l2 & H2 & F2). exists (l1 ++ l2). split.
  - by rewrite H2, H1, <- app_assoc.
  - by apply Forall_app.
Qed.

Lemma trace_grows_log lv msg w : trace_grows w (log_w lv msg w).
Proof. intros ev. by autorewrite with world. Qed.

Lemma trace_grows_emit e w : trace_grows w (emit_w e w).
Proof. intros ev Hev. autorewrite with world. apply elem_of_app. by left. Qed.

Lemma trace_grows_create f w : trace_grows w (create_w f w).
Proof. intros ev. by autorewrite with world. Qed.

Lemma trace_grows_unlink f w : trace_grows w (unlink_w f w).
Proof. intros ev. by autorewrite with world. Qed.

Lemma logs_on_emit e w : logs_on w (emit_w e w).
Proof. exists []. by rewrite app_nil_r. Qed.

Lemma logs_on_create f w : logs_on w (create_w f w).
Proof. exists []. by rewrite app_nil_r. Qed.

Lemma logs_on_unlink f w : logs_on w (unlink_w f w).
Proof. exists []. by rewrite app_nil_r. Qed.

Lemma logs_on_log lv msg w :
  (lv, msg) ≠ (INFO, "Script complete.") → logs_on w (log_w lv msg w).
Proof. intros Hne. exists [(lv, msg)]. split; [done|]. by constructor. Qed.

Section WorldFacts.

Variable E : env.

Lemma trace_grows_lapse_camera (c : string) : evolves trace_grows (lapse_camera E c).
Proof.
  unfold lapse_camera, true_div, imread, mimwrite, os_system_gifsicle.
  evolves_auto;
    first [apply trace_grows_log | apply trace_grows_emit | apply trace_grows_create].
Qed.

End WorldFacts.

(** ** Failures of the assembly, and the compressor *)

Section AssemblyFailures.

Variable E : env.




(** What one pass of the loop adds to the compressor's commands. *)
Lemma lapse_camera_system (c cmd : string) (st : state) :
  EvSystem cmd ∈ trace (lapse_camera E c st).2 →
  EvSystem cmd ∈ trace st ∨
  (cmd = gifsicle_command (output_file (self st) c) (final_file (self st) c) ∧
   stills (self st) c (fs st) ≠ [] ∧
   output_file (self st) c ∈ fs (lapse_camera E c st).2 ∧
   ∃ images fps,
     imageio_mimwrite E (output_file (self st) c) images fps = Ret tt ∧
     EvMimwrite (output_file (self st) c) images fps
       ∈ trace (lapse_camera E c st).2).
Proof.
  destruct st as [s w]. unfold lapse_camera, true_div, stills. mrun.
  destruct (merge_sort _ _) as [|f0 files] eqn:Hsorted; cbn.
  { unfold trace. cbn. autorewrite with world. by left. }
  assert (Hne : glob (snapshot_path s +:+ c) (w_fs w) ≠ []).
  { intros Hnil. change (fs (mkState s w)) with (w_fs w) in Hsorted.
    rewrite Hnil in Hsorted. discriminate Hsorted. }
  destruct (int_true_divide _ _) as [fps0|e0]; cbn.
  2:{ unfold trace. cbn. autorewrite with world. by left. }
  match goal with
  | |- context [map_M (imread E) ?l ?st0] =>
      destruct (read_all_world E l st0) as (read & Hs & Hfs & Htr & _);
      destruct (map_M (imread E) l st0) as [[imgs|e] st1]
  end; cbn in *.
  2:{ unfold fs, trace in *. cbn in *. autorewrite with world in *.
      rewrite Htr. intros [?|Hev]%elem_of_app; [by left|].
      apply list_elem_of_fmap in Hev as (g' & [=] & _). }
  unfold mimwrite, os_system_gifsicle, output_file, final_file. mrun.
  rewrite Hs. cbn.
  destruct (imageio_mimwrite E _ _ _) as [[]|e] eqn:Hw; cbn;
    unfold fs, trace in *; cbn in *; autorewrite with world in *.
  - rewrite Htr, !elem_of_app, !list_elem_of_singleton.
    intros [[[?|Hev]|[=]]|[= ->]]; [by left| |].
    { apply list_elem_of_fmap in Hev as (g' & [=] & _). }
    right. split_and!; [done|done| |].
    + repeat first [rewrite elem_of_create | progress autorewrite with world].
      tauto.
    + eexists _, _. split; [exact Hw|].
      rewrite !elem_of_app, !list_elem_of_singleton. left. by right.
  - rewrite Htr, !elem_of_app, !list_elem_of_singleton.
    intros [[?|Hev]|[=]]; [by left|].
    apply list_elem_of_fmap in Hev as (g' & [=] & _).
Qed.

Lemma lapse_loop_system (names : list string) (cmd : string) (st : state) :
  EvSystem cmd ∈ trace (for_each names (lapse_camera E) st).2 →
  EvSystem cmd ∈ trace st ∨
  ∃ c, c ∈ names ∧
    cmd = gifsicle_command (output_file (self st) c) (final_file (self st) c) ∧
    stills (self st) c (fs st) ≠ [] ∧
    output_file (self st) c ∈ fs (for_each names (lapse_camera E) st).2 ∧
    ∃ images fps,
      imageio_mimwrite E (output_file (self st) c) images fps = Ret tt ∧
      EvMimwrite (output_file (self st) c) images fps
        ∈ trace (for_each names (lapse_camera E) st).2.
Proof.
  revert st. induction names as [|c names IH]; intros st.
  { cbn. by left. }
  rewrite for_each_cons.
  pose proof (lapse_camera_system c cmd st) as Hone.
  pose proof (lapse_camera_world E c st) as (H1 & _).
  pose proof (keeps_lapse_camera E c st) as Hs.
  destruct (lapse_camera E c st) as [[[]|e] st1] eqn:Hrun; cbn in *.
  - pose proof (lapse_loop_world E names st1) as (_ & L2 & _).
    pose proof (evolves_for_each trace_grows names (lapse_camera E)
                  (trace_grows_lapse_camera E) st1) as Lt.
    intros Hev. destruct (IH st1 Hev) as [Hev1|(c' & Hc' & -> & Hne & Ho & Hm)].
    + destruct (Hone Hev1) as [?|(-> & Hne & Ho & images & fps & Hw & Hm)];
        [by left|].
      right. exists c. split_and!; [left|done|done|by apply L2|].
      exists images, fps. split; [done|]. by apply Lt.
    + right. exists c'. rewrite <- Hs in *. unfold stills in *.
      rewrite H1 in Hne. split_and!; [by right|done..].
  - intros Hev. destruct (Hone Hev) as [?|(-> & Hne & Ho & Hm)]; [by left|].
    right. exists c. split_and!; [left|done..].
Qed.


End AssemblyFailures.



(** ** The last line of the log *)

Section Completion.

Variable E : env.

Lemma logs_on_purge_loop (now : datetime) :
  evolves logs_on (s ← get_self; for_each (camera_names s) (purge_camera now)).
Proof.
  unfold purge_camera, purge_file, os_remove. evolves_auto;
    first [apply logs_on_emit | apply logs_on_unlink
          | apply logs_on_log; discriminate].
Qed.

Lemma logs_on_lapse_loop :
  evolves logs_on (s ← get_self; for_each (camera_names s) (lapse_camera E)).
Proof.
  unfold lapse_camera, true_div, imread, mimwrite, os_system_gifsicle.
  evolves_auto;
    first [apply logs_on_emit | apply logs_on_create
          | apply logs_on_log; discriminate].
Qed.

Lemma last_of_lines {A} (P : A → Prop) (l lines : list A) (x : A) :
  P x → Forall P lines → ∃ y, last (l ++ x :: lines) = Some y ∧ P y.
Proof.
  intros Hx Hl. induction lines as [|y lines _] using rev_ind.
  - exists x. by rewrite last_snoc.
  - exists y. apply Forall_app in Hl as [_ Hy].
    rewrite Forall_singleton in Hy. split; [|exact Hy].
    change (l ++ x :: lines ++ [y]) with (l ++ (x :: lines) ++ [y]).
    by rewrite app_assoc, last_snoc.
Qed.

Lemma purge_snapshots_last (now : datetime) (st : state) :
  ∃ y, last (log (purge_snapshots now st).2) = Some y ∧
       y ≠ (INFO, "Script complete.").
Proof.
  unfold purge_snapshots. rewrite bind_run. unfold LOGGER at 1, on_world. cbn.
  destruct (logs_on_purge_loop now
              (mkState (self st) (log_w INFO "Purging Snapshots..." (wd st))))
    as (lines & Hlog & Hlines).
  unfold log. rewrite Hlog. cbn. rewrite <- app_assoc.
  apply last_of_lines; [discriminate|done].
Qed.

Lemma make_lapse_last (st : state) :
  ∃ y, last (log (make_lapse E st).2) = Some y ∧
       y ≠ (INFO, "Script complete.").
Proof.
  unfold make_lapse. rewrite bind_run. unfold LOGGER at 1, on_world. cbn.
  destruct (logs_on_lapse_loop
              (mkState (self st) (log_w INFO "Making Time Lapses..." (wd st))))
    as (lines & Hlog & Hlines).
  unfold log. rewrite Hlog. cbn. rewrite <- app_assoc.
  apply last_of_lines; [discriminate|done].
Qed.

(** X15. Once the configuration file is loaded, the script returns without
    an exception exactly when the last line of its log is
    [Script complete.]: a missing credential, an exception of the purge or
    an exception of the assembly each leave another line last. *)
Theorem completion_line (cfg_yaml : yaml_doc) (now_get now_purge : datetime)
    (w : world) :
  (main E cfg_yaml now_get now_purge w).1 = Ret tt ↔
  last (w_log (main E cfg_yaml now_get now_purge w).2)
  = Some (INFO, "Script complete.").
Proof.
  unfold main, __init__.
  destruct (y_username cfg_yaml) as [u|];
    [destruct (y_password cfg_yaml) as [p|]|].
  2,3: cbn; rewrite last_snoc; split; discriminate.
  match goal with
  | |- context [run E now_get now_purge ?st0] => generalize st0
  end.
  intros st0. unfold run. rewrite bind_run.
  pose proof (get_snapshots_returns E now_get st0) as Hget.
  destruct (get_snapshots E now_get st0) as [[[]|e] st1]; [|discriminate Hget].
  rewrite bind_run.
  destruct (purge_snapshots_last now_purge st1) as (y1 & Hy1 & Hne1).
  destruct (purge_snapshots now_purge st1) as [[[]|e] st2]; cbn in Hy1 |- *.
  2:{ unfold log in Hy1. rewrite Hy1. split; [discriminate|congruence]. }
  rewrite bind_run.
  destruct (make_lapse_last st2) as (y2 & Hy2 & Hne2).
  destruct (make_lapse E st2) as [[[]|e] st3]; cbn in Hy2 |- *.
  2:{ unfold log in Hy2. rewrite Hy2. split; [discriminate|congruence]. }
  by rewrite last_snoc.
Qed.

End Completion.

(** ** The encoder's calls, camera by camera *)

Lemma for_each_app {A} (l1 l2 : list A) (body : A → M unit) (st : state) :
  for_each (l1 ++ l2) body st =
  match for_each l1 body st with
  | (Ret _, st1) => for_each l2 body st1
  | (Raise e, st1) => (Raise e, st1)
  end.
Proof.
  revert st. induction l1 as [|x l1 IH]; intros st; [reflexivity|].
  cbn [app]. rewrite !for_each_cons.
  destruct (body x st) as [[[]|e] st1]; [apply IH|reflexivity].
Qed.

Module NameFacts.

#[local] Arguments String.append !_ _ / : simpl nomatch.

(** Two beginnings of one string that have the same length are equal. *)
Lemma same_beginning (a b x y : string) :
  a +:+ x = b +:+ y → String.length a = String.length b → a = b.
Proof.
  revert b. induction a as [|c a IH]; intros [|d b] Heq Hlen; try done.
  change (String c (a +:+ x) = String d (b +:+ y)) in Heq.
  injection Heq as -> Heq. f_equal. apply IH; [done|].
  by injection Hlen.
Qed.

Lemma app_inv_tail (a b t : string) : a +:+ t = b +:+ t → a = b.
Proof.
  intros Heq. apply (same_beginning a b t t Heq).
  apply (f_equal String.length) in Heq.
  rewrite !StrFacts.length_app in Heq. lia.
Qed.

Lemma output_file_inj (s : ArloLapse) (c c' : string) :
  output_file s c' = output_file s c → c' = c.
Proof.
  unfold output_file. intros Heq.
  apply StrFacts.app_inv_head in Heq. by apply app_inv_tail in Heq.
Qed.

Lemma gifsicle_command_inj (s : ArloLapse) (c c' : string) :
  gifsicle_command (output_file s c') (final_file s c')
  = gifsicle_command (output_file s c) (final_file s c) →
  c' = c.
Proof.
  unfold gifsicle_command, output_file, final_file. intros Heq.
  apply StrFacts.app_inv_head in Heq. rewrite !StrFacts.app_assoc in Heq.
  apply StrFacts.app_inv_head in Heq.
  apply (same_beginning c' c _ _ Heq).
  apply (f_equal String.length) in Heq.
  rewrite !StrFacts.length_app in Heq. lia.
Qed.

End NameFacts.

Section Encoder.

Variable E : env.

(** The images read are those of the files, in their order. *)
Lemma read_all_images (files : list string) (imgs : list image) (st st1 : state) :
  map_M (imread E) files st = (Ret imgs, st1) → imgs = ImageOf <$> files.
Proof.
  revert imgs st st1. induction files as [|f l IH]; intros imgs st st1 Hread.
  - by injection Hread as <- _.
  - rewrite map_M_cons, imread_run in Hread.
    destruct (imageio_imread E f) as [[]|e]; [|discriminate].
    destruct (map_M (imread E) l _) as [[ys|e] st2] eqn:Hl; [|discriminate].
    injection Hread as <- _. cbn. f_equal. by apply (IH ys _ _ Hl).
Qed.

(** What one pass of the loop adds to the encoder's calls. *)
Lemma lapse_camera_encoder (c o : string) (images : list image) (fps : float)
    (st : state) :
  EvMimwrite o images fps ∈ trace (lapse_camera E c st).2 →
  EvMimwrite o images fps ∈ trace st ∨
  (o = output_file (self st) c ∧
   stills (self st) c (fs st) ≠ [] ∧
   images = ImageOf <$> merge_sort String.le (stills (self st) c (fs st)) ∧
   int_true_divide (Z.of_nat (length (stills (self st) c (fs st))))
                   (lapse_duration (self st)) = Ret fps).
Proof.
  destruct (decide (stills (self st) c (fs st) = [])) as [Hnil|Hne].
  { rewrite (lapse_camera_skips E c st Hnil). unfold trace. cbn.
    autorewrite with world. by left. }
  destruct st as [s w]. unfold lapse_camera, true_div, stills in *. mrun.
  change (fs (mkState s w)) with (w_fs w) in *. cbn [self] in *.
  rewrite frames_length.
  destruct (glob (snapshot_path s +:+ c) (w_fs w)) as [|f0 files0] eqn:Hglob;
    [done|].
  cbn [length Nat.ltb Nat.leb].
  destruct (int_true_divide _ _) as [fps0|e0] eqn:Hdiv; cbn.
  2:{ unfold trace. cbn. autorewrite with world. by left. }
  match goal with
  | |- context [map_M (imread E) ?l ?st0] =>
      pose proof (read_all_world E l st0) as (read & Hs & Hfs & Htr & Hfail);
      pose proof (keeps_map_M eq (imread E) l) as Hk;
      destruct (map_M (imread E) l st0) as [[imgs|e] st1] eqn:Hread
  end; cbn in *.
  2:{ unfold fs, trace in *. cbn in *. autorewrite with world in *.
      rewrite Htr. intros [?|Hev]%elem_of_app; [by left|].
      apply list_elem_of_fmap in Hev as (g' & [=] & _). }
  assert (Himgs : imgs = ImageOf <$> merge_sort String.le (f0 :: files0))
    by (by apply read_all_images in Hread).
  unfold mimwrite, os_system_gifsicle, output_file. mrun.
  rewrite Hs. cbn.
  destruct (imageio_mimwrite E _ _ _) as [[]|e] eqn:Hw; cbn;
    unfold fs, trace in *; cbn in *; autorewrite with world in *.
  - rewrite Htr, !elem_of_app, !list_elem_of_singleton.
    intros [[[?|Hev]|[= -> -> ->]]|[=]]; [by left| |].
    { apply list_elem_of_fmap in Hev as (g' & [=] & _). }
    right. split_and!; [done|done|exact Himgs|done].
  - rewrite Htr, !elem_of_app, list_elem_of_singleton.
    intros [[?|Hev]|[= -> -> ->]]; [by left| |].
    { apply list_elem_of_fmap in Hev as (g' & [=] & _). }
    right. split_and!; [done|done|exact Himgs|done].
Qed.

Lemma lapse_loop_encoder (names : list string) (o : string)
    (images : list image) (fps : float) (st : state) :
  EvMimwrite o images fps ∈ trace (for_each names (lapse_camera E) st).2 →
  EvMimwrite o images fps ∈ trace st ∨
  ∃ c, c ∈ names ∧
    o = output_file (self st) c ∧
    stills (self st) c (fs st) ≠ [] ∧
    images = ImageOf <$> merge_sort String.le (stills (self st) c (fs st)) ∧
    int_true_divide (Z.of_nat (length (stills (self st) c (fs st))))
                    (lapse_duration (self st)) = Ret fps.
Proof.
  revert st. induction names as [|c names IH]; intros st.
  { cbn. by left. }
  rewrite for_each_cons.
  pose proof (lapse_camera_encoder c o images fps st) as Hone.
  pose proof (lapse_camera_world E c st) as (H1 & _).
  pose proof (keeps_lapse_camera E c st) as Hs.
  destruct (lapse_camera E c st) as [[[]|e] st1] eqn:Hrun; cbn in *.
  - intros Hev.
    destruct (IH st1 Hev) as [Hev1|(c' & Hc' & -> & Hne & Hi & Hf)].
    + destruct (Hone Hev1) as [?|(-> & Hne & Hi & Hf)]; [by left|].
      right. exists c. split_and!; [left|done..].
    + right. exists c'. rewrite <- Hs in *. unfold stills in *.
      rewrite H1 in Hne, Hi, Hf. split_and!; [by right|done..].
  - intros Hev. destruct (Hone Hev) as [?|(-> & Hne & Hi & Hf)]; [by left|].
    right. exists c. split_and!; [left|done..].
Qed.

(** A file that the loop adds is an animation of a camera for which some
    file was listed. *)
Lemma lapse_loop_adds (names : list string) (f : string) (st : state) :
  f ∈ fs (for_each names (lapse_camera E) st).2 →
  f ∈ fs st ∨
  ∃ c, c ∈ names ∧ stills (self st) c (fs st) ≠ [] ∧
       (f = output_file (self st) c ∨ f = final_file (self st) c).
Proof.
  revert st. induction names as [|c names IH]; intros st.
  { cbn. by left. }
  rewrite for_each_cons.
  pose proof (lapse_camera_world E c st) as (H1 & _ & H3 & _).
  pose proof (keeps_lapse_camera E c st) as Hs.
  assert (Hone : f ∈ fs (lapse_camera E c st).2 →
                 f ∈ fs st ∨ stills (self st) c (fs st) ≠ [] ∧
                   (f = output_file (self st) c ∨ f = final_file (self st) c)).
  { destruct (decide (stills (self st) c (fs st) = [])) as [Hnil|Hne].
    - rewrite (lapse_camera_skips E c st Hnil). intros Hf. by left.
    - intros Hf. destruct (H3 f Hf) as [?|?]; [by left|by right]. }
  destruct (lapse_camera E c st) as [[[]|e] st1] eqn:Hrun; cbn in *.
  - intros Hf. destruct (IH st1 Hf) as [Hf1|(c' & Hc' & Hne & Hfc)].
    + destruct (Hone Hf1) as [?|[Hne Hfc]]; [by left|].
      right. exists c. split_and!; [left|done..].
    + right. exists c'. rewrite <- Hs in *. unfold stills in *.
      rewrite H1 in Hne. split_and!; [by right|done..].
  - intros Hf. destruct (Hone Hf) as [?|[Hne Hfc]]; [by left|].
    right. exists c. split_and!; [left|done..].
Qed.

(** The loop over the cameras that come first leaves the instance and
    what is listed for every camera as they were. *)
Lemma lapse_loop_keeps (names : list string) (st : state) :
  self (for_each names (lapse_camera E) st).2 = self st ∧
  ∀ prefix, glob prefix (fs (for_each names (lapse_camera E) st).2)
            = glob prefix (fs st).
Proof.
  split.
  - symmetry. apply (keeps_for_each eq names (lapse_camera E)).
    intros c. apply keeps_lapse_camera.
  - apply (lapse_loop_world E names st).
Qed.

End Encoder.

Global Instance trace_extends_refl : Reflexive trace_extends.
Proof. intros w. exists []. by rewrite app_nil_r. Qed.

Global Instance trace_extends_trans : Transitive trace_extends.
Proof.
  intros a b c [e1 H1] [e2 H2]. exists (e1 ++ e2).
  by rewrite H2, H1, <- app_assoc.
Qed.

Lemma trace_extends_lapse_camera (E : env) (c : string) :
  evolves trace_extends (lapse_camera E c).
Proof.
  unfold lapse_camera, true_div, imread, mimwrite, os_system_gifsicle.
  evolves_auto;
    first [ by (exists []; autorewrite with world; rewrite app_nil_r)
          | by (eexists; autorewrite with world) ].
Qed.

(** ** A camera for which no file is listed *)

Section WithoutStills.

Variable E : env.

(** C7, as the code has it.  The paths followed by the configured camera
    names are plain.  For a configured camera whose pattern
    [snapshot_path + name + '*.jpg'] matches no file, [make_lapse] never
    calls the encoder or the compressor for it, removes no file, and adds
    files only as animations of other cameras, for which a file was
    listed; when the loop comes to the camera, its pass writes the line
    [Found 0 images for ...] and nothing else, and the loop goes on with
    the cameras after it. *)
Theorem make_lapse_without_stills (st : state) (c : string) :
  plain_commands (self st) →
  c ∈ camera_names (self st) →
  stills (self st) c (fs st) = [] →
  (∀ images fps,
     EvMimwrite (output_file (self st) c) images fps ∈ trace (make_lapse E st).2 →
     EvMimwrite (output_file (self st) c) images fps ∈ trace st) ∧
  (EvSystem (gifsicle_command (output_file (self st) c) (final_file (self st) c))
     ∈ trace (make_lapse E st).2 →
   EvSystem (gifsicle_command (output_file (self st) c) (final_file (self st) c))
     ∈ trace st) ∧
  (∀ f, f ∈ fs st → f ∈ fs (make_lapse E st).2) ∧
  (∀ f, f ∈ fs (make_lapse E st).2 →
        f ∈ fs st ∨
        ∃ c', c' ∈ camera_names (self st) ∧ c' ≠ c ∧
              stills (self st) c' (fs st) ≠ [] ∧
              (f = output_file (self st) c' ∨ f = final_file (self st) c')) ∧
  (∀ pre rest st1,
     camera_names (self st) = pre ++ c :: rest →
     for_each pre (lapse_camera E)
       (mkState (self st) (log_w INFO "Making Time Lapses..." (wd st)))
     = (Ret tt, st1) →
     make_lapse E st =
     for_each rest (lapse_camera E)
       (mkState (self st1)
          (log_w DEBUG ("Found 0 images for " +:+ c) (wd st1)))).
Proof.
  intros _ Hc Hnil. destruct st as [s w]. unfold make_lapse. mrun.
  set (st0 := mkState s (log_w INFO "Making Time Lapses..." w)).
  assert (Hnil0 : stills (self st0) c (fs st0) = []) by exact Hnil.
  change (fs (mkState s w)) with (fs st0) in *.
  change (trace (mkState s w)) with (trace st0).
  split_and!.
  - intros images fps Hev.
    destruct (lapse_loop_encoder E _ _ _ _ st0 Hev)
      as [?|(c' & _ & Ho & Hne & _)]; [done|].
    apply NameFacts.output_file_inj in Ho as <-. done.
  - intros Hev.
    destruct (lapse_loop_system E _ _ st0 Hev) as [?|(c' & _ & Ho & Hne & _)];
      [done|].
    symmetry in Ho. apply NameFacts.gifsicle_command_inj in Ho as ->. done.
  - apply (lapse_loop_world E (camera_names s) st0).
  - intros f Hf.
    destruct (lapse_loop_adds E _ f st0 Hf) as [?|(c' & Hc' & Hne & Hfc)];
      [by left|].
    right. exists c'. split_and!; [done| |done|done].
    intros ->. done.
  - intros pre rest st1 Hnames Hpre. cbn [self] in Hnames. rewrite Hnames.
    rewrite for_each_app, Hpre, for_each_cons.
    destruct (lapse_loop_keeps E pre st0) as [Hs Hg].
    rewrite Hpre in Hs, Hg. cbn [snd] in Hs, Hg.
    rewrite (lapse_camera_skips E c st1); [reflexivity|].
    rewrite Hs, Hg. exact Hnil.
Qed.

End WithoutStills.

Lemma make_lapse_without_stills_witness :
  let st := Example.state_of ["Garage"; "Front_Door"] 20
              ["./raw/Front_Door_20200601110000.jpg"] in
  (plain_commands (self st) ∧ "Garage" ∈ camera_names (self st) ∧
   stills (self st) "Garage" (fs st) = []) ∧
  make_lapse Example.service st =
  for_each ["Front_Door"] (lapse_camera Example.service)
    (mkState (self st)
       (log_w DEBUG "Found 0 images for Garage"
          (log_w INFO "Making Time Lapses..." (wd st)))).
Proof.
  intros st.
  assert (H1 : plain_commands (self st)).
  { intros c Hc. repeat (apply elem_of_cons in Hc as [->|Hc]; [by split|]).
    by apply elem_of_nil in Hc. }
  assert (H2 : "Garage" ∈ camera_names (self st)) by left.
  assert (H3 : stills (self st) "Garage" (fs st) = []) by reflexivity.
  split; [done|].
  destruct (make_lapse_without_stills Example.service st "Garage" H1 H2 H3)
    as (_ & _ & _ & _ & H).
  exact (H [] ["Front_Door"] _ eq_refl eq_refl).
Defined.

(** C7, as stated, fails.  The camera [Front] has no still; the pattern
    [./raw/Front*.jpg] lists the still of [Front_Door], and [make_lapse]
    writes [./raw/Front.gif] and [./lapse/Front.gif] from it. *)
Lemma make_lapse_assembles_a_longer_name : ¬ camera_without_stills_is_skipped.
Proof.
  intros H.
  destruct (H Example.service
              (Example.state_of ["Front"] 20
                 ["./raw/Front_Door_20200601110000.jpg"])
              "Front") as [Ho _].
  - left.
  - reflexivity.
  - assert (Hin : "./raw/Front.gif" ∈
                  ["./raw/Front_Door_20200601110000.jpg"; "./raw/Front.gif";
                   "./lapse/Front.gif"]) by (right; left).
    apply Ho in Hin. apply list_elem_of_singleton in Hin. discriminate Hin.
Qed.

Example front_takes_the_stills_of_front_door :
  make_lapse Example.service
    (Example.state_of ["Front"] 20 ["./raw/Front_Door_20200601110000.jpg"])
  = (Ret tt,
     mkState (Example.settings ["Front"] 20)
       (mkWorld
          ["./raw/Front_Door_20200601110000.jpg"; "./raw/Front.gif";
           "./lapse/Front.gif"]
          [(INFO, "Making Time Lapses..."); (DEBUG, "Found 1 images for Front")]
          [EvImread "./raw/Front_Door_20200601110000.jpg";
           EvMimwrite "./raw/Front.gif"
             [ImageOf "./raw/Front_Door_20200601110000.jpg"]
             (S754_finite false 7205759403792794 (-57));
           EvSystem "gifsicle -O3 --colors 128 --resize-width 512 ./raw/Front.gif > ./lapse/Front.gif"])).
Proof. vm_compute. reflexivity. Qed.

(** ** The frame rate and the order of the frames *)

Section FrameRateOfACamera.

Variable E : env.

(** C2, as the code has it.  The paths followed by the configured camera
    names are plain.  Whenever [make_lapse] calls the encoder for a
    configured camera, the frame rate is the float [N / D], where [N] is
    the number of files that the camera's pattern lists and [D] the lapse
    duration, and the frames are those files, each once, in the order of
    their names; two frames that follow the naming scheme of the camera's
    stills are in the order of their times.  The call is made, after the
    frames have been read in that order, when the passes of the cameras
    before it return, a file is listed, [N / D] is a float and every
    listed file can be read. *)
Theorem make_lapse_frame_rate (st : state) (c : string) :
  plain_commands (self st) →
  c ∈ camera_names (self st) →
  let s := self st in
  let files := stills s c (fs st) in
  (∀ images fps,
     EvMimwrite (output_file s c) images fps ∈ trace (make_lapse E st).2 →
     EvMimwrite (output_file s c) images fps ∈ trace st ∨
     (int_true_divide (Z.of_nat (length files)) (lapse_duration s) = Ret fps ∧
      ∃ frames,
        images = ImageOf <$> frames ∧
        frames ≡ₚ files ∧
        StronglySorted String.le frames ∧
        ∀ before f between g after tf tg,
          frames = before ++ f :: between ++ g :: after →
          follows_scheme (snapshot_path s +:+ c +:+ "_") f tf →
          follows_scheme (snapshot_path s +:+ c +:+ "_") g tg →
          leb tf tg = true)) ∧
  (∀ pre rest st1 fps,
     camera_names s = pre ++ c :: rest →
     for_each pre (lapse_camera E)
       (mkState s (log_w INFO "Making Time Lapses..." (wd st)))
     = (Ret tt, st1) →
     files ≠ [] →
     int_true_divide (Z.of_nat (length files)) (lapse_duration s) = Ret fps →
     (∀ f, f ∈ files → imageio_imread E f = Ret tt) →
     ∃ calls,
       trace (make_lapse E st).2 =
       trace st1 ++ (EvImread <$> merge_sort String.le files) ++
       EvMimwrite (output_file s c) (ImageOf <$> merge_sort String.le files) fps
       :: calls).
Proof.
  intros _ Hc s files. destruct st as [s0 w]. unfold make_lapse. mrun.
  subst s. cbn [self] in *.
  set (st0 := mkState s0 (log_w INFO "Making Time Lapses..." w)).
  change (fs (mkState s0 w)) with (fs st0) in files.
  change (trace (mkState s0 w)) with (trace st0).
  split.
  - intros images fps Hev.
    destruct (lapse_loop_encoder E _ _ _ _ st0 Hev)
      as [?|(c' & _ & Ho & Hne & Hi & Hf)]; [by left|].
    apply NameFacts.output_file_inj in Ho as <-. right. split; [exact Hf|].
    exists (merge_sort String.le files). split_and!.
    + exact Hi.
    + apply frames_permutation.
    + apply frames_sorted.
    + intros before f between g after tf tg Hfr Hf' Hg.
      apply (StrptimeFacts.scheme_le _ f g tf tg Hf' Hg).
      pose proof (frames_sorted files) as Hsorted. rewrite Hfr in Hsorted.
      apply StronglySorted_app_1_r in Hsorted.
      apply StronglySorted_cons in Hsorted as [Hall _].
      rewrite Forall_forall in Hall. apply Hall.
      apply elem_of_app. right. left.
  - intros pre rest st1 fps Hnames Hpre Hne Hdiv Hread. rewrite Hnames.
    rewrite for_each_app, Hpre, for_each_cons.
    destruct (lapse_loop_keeps E pre st0) as [Hs Hg].
    rewrite Hpre in Hs, Hg. cbn [snd] in Hs, Hg.
    assert (Hfiles : glob (snapshot_path (self st1) +:+ c) (fs st1) = files).
    { rewrite Hs, Hg. reflexivity. }
    destruct (lapse_camera_encodes E c st1 fps) as [msg Hrun].
    { by rewrite Hfiles. }
    { rewrite Hfiles, Hs. exact Hdiv. }
    { rewrite Hfiles. exact Hread. }
    rewrite Hrun, Hfiles, Hs. unfold mimwrite, os_system_gifsicle. mrun.
    destruct (imageio_mimwrite E _ _ _) as [[]|e]; cbn.
    + match goal with
      | |- context [for_each rest (lapse_camera E) ?st2] =>
          destruct (evolves_for_each trace_extends rest (lapse_camera E)
                      (trace_extends_lapse_camera E) st2) as [evs Hevs];
          destruct (for_each rest (lapse_camera E) st2) as [r st3]
      end.
      unfold trace in *. cbn in Hevs |- *. rewrite Hevs.
      autorewrite with world.
      eexists. unfold output_file. repeat (rewrite <- app_assoc; cbn).
      reflexivity.
    + unfold trace in *. cbn. autorewrite with world.
      eexists. unfold output_file. repeat (rewrite <- app_assoc; cbn).
      reflexivity.
Qed.

End FrameRateOfACamera.

Lemma make_lapse_frame_rate_witness :
  let st := Example.state_of ["Garage"; "Front_Door"] 20
              ["./raw/Front_Door_20200601001000.jpg";
               "./raw/Front_Door_20200601000000.jpg";
               "./raw/Front_Door_20200601000500.jpg"] in
  let frames := ["./raw/Front_Door_20200601000000.jpg";
                 "./raw/Front_Door_20200601000500.jpg";
                 "./raw/Front_Door_20200601001000.jpg"] in
  (plain_commands (self st) ∧ "Front_Door" ∈ camera_names (self st)) ∧
  ∃ calls,
    trace (make_lapse Example.service st).2 =
    (EvImread <$> frames) ++
    EvMimwrite "./raw/Front_Door.gif" (ImageOf <$> frames)
      (S754_finite false 5404319552844595 (-55))
    :: calls.
Proof.
  intros st frames.
  assert (H1 : plain_commands (self st)).
  { intros c Hc. repeat (apply elem_of_cons in Hc as [->|Hc]; [by split|]).
    by apply elem_of_nil in Hc. }
  assert (H2 : "Front_Door" ∈ camera_names (self st)) by (right; left).
  split; [done|].
  destruct (make_lapse_frame_rate Example.service st "Front_Door" H1 H2)
    as [_ H].
  apply (H ["Garage"] [] _ (S754_finite false 5404319552844595 (-55))
           eq_refl eq_refl).
  - discriminate.
  - reflexivity.
  - reflexivity.
Defined.

(** C2, as stated, fails.  The camera [Front] has one still and the
    camera [Front_Door] two; the pattern [./raw/Front*.jpg] lists all
    three, and the encoder is called for [Front] with three frames and the
    rate 3 / 20 where the claim has 1 / 20. *)
Lemma frame_rate_counts_longer_names : ¬ frame_rate_is_stills_over_duration.
Proof.
  intros H.
  specialize (H Example.service
                (Example.state_of ["Front"] 20
                   ["./raw/Front_20200601000500.jpg";
                    "./raw/Front_Door_20200601000000.jpg";
                    "./raw/Front_Door_20200601001000.jpg"])
                "Front"
                [ImageOf "./raw/Front_20200601000500.jpg";
                 ImageOf "./raw/Front_Door_20200601000000.jpg";
                 ImageOf "./raw/Front_Door_20200601001000.jpg"]
                (S754_finite false 5404319552844595 (-55))).
  assert (Hdiv : int_true_divide 1 20
                 = Ret (S754_finite false 5404319552844595 (-55))).
  { apply H.
    - left.
    - discriminate.
    - vm_compute. right. right. right. left.
    - intros Hin. inversion Hin. }
  vm_compute in Hdiv. discriminate Hdiv.
Qed.

(** Three stills and a lapse duration of 20: the encoder gets the frames
    in the order of their times and the rate 3 / 20, the double that
    Python prints as 0.15 and that is also the value of the literal
    [0.15], the double nearest to 15 / 100. *)
Example three_stills_in_twenty_seconds :
  trace (make_lapse Example.service
           (Example.state_of ["Front_Door"] 20
              ["./raw/Front_Door_20200601001000.jpg";
               "./raw/Front_Door_20200601000000.jpg";
               "./raw/Front_Door_20200601000500.jpg"])).2 =
  [EvImread "./raw/Front_Door_20200601000000.jpg";
   EvImread "./raw/Front_Door_20200601000500.jpg";
   EvImread "./raw/Front_Door_20200601001000.jpg";
   EvMimwrite "./raw/Front_Door.gif"
     [ImageOf "./raw/Front_Door_20200601000000.jpg";
      ImageOf "./raw/Front_Door_20200601000500.jpg";
      ImageOf "./raw/Front_Door_20200601001000.jpg"]
     (S754_finite false 5404319552844595 (-55));
   EvSystem "gifsicle -O3 --colors 128 --resize-width 512 ./raw/Front_Door.gif > ./lapse/Front_Door.gif"]
  ∧ int_true_divide 3 20 = Ret (S754_finite false 5404319552844595 (-55))
  ∧ int_true_divide 15 100 = int_true_divide 3 20.
Proof. split_and!; vm_compute; reflexivity. Qed.

(** ** The failure policy of acquisition *)

Section Policy.

Variable E : env.

(** One pass of the loop over the cameras, by the verdict of its request. *)
Lemma snapshot_camera_run (now_str : string) (b0 : device) (bs : list device)
    (cam : device) (st : state) :
  let name := device_camera_name cam in
  let file := snapshot_file (self st) name now_str in
  let v := verdict_of E b0 cam file in
  snapshot_camera E now_str (b0 :: bs) cam st =
  if bool_decide (name ∈ camera_names (self st)) then
    (match v with Aborted _ e => Raise e | _ => Ret tt end,
     mkState (self st)
       (mkWorld
          (match v with
           | Saved _ => if bool_decide (file ∈ fs st) then fs st else fs st ++ [file]
           | _ => fs st
           end)
          (log st ++ lines_of name v)
          (trace st ++ calls_of b0 cam file v)))
  else (Ret tt, st).
Proof.
  intros name file v. subst v file name.
  destruct st as [s [wf wl wt]].
  unfold snapshot_camera, try_timeout, try_except, first_item,
    get_snapshot_url, DownloadSnapshot, verdict_of, snapshot_file,
    fs, log, trace.
  mrun. case_bool_decide as Hin; cbn; [|reflexivity].
  destruct (arlo_trigger E b0 cam) as [[url|]|e]; cbn.
  - destruct (arlo_download E url _) as [[]|e]; cbn.
    + unfold create_w, log_w, emit_w. cbn. by rewrite <- ?app_assoc.
    + destruct (is_timeout e); cbn; unfold log_w, emit_w; cbn;
        by rewrite <- ?app_assoc.
  - unfold log_w, emit_w. cbn. by rewrite <- ?app_assoc.
  - destruct (is_timeout e); cbn; unfold log_w, emit_w; cbn;
      by rewrite <- ?app_assoc.
Qed.

(** The loop over the cameras: it asks the cameras that the policy gets
    to, and ends with the exception that the policy ends with. *)
Lemma snapshot_loop_run (now_str : string) (b0 : device) (bs cams : list device)
    (st : state) :
  let selected cam :=
    bool_decide (device_camera_name cam ∈ camera_names (self st)) in
  let file cam := snapshot_file (self st) (device_camera_name cam) now_str in
  let verdict_at cam := verdict_of E b0 cam (file cam) in
  let asked := attempted selected verdict_at cams in
  ∃ st2,
    for_each cams (snapshot_camera E now_str (b0 :: bs)) st =
    (match aborted verdict_at asked with Some e => Raise e | None => Ret tt end,
     st2) ∧
    self st2 = self st ∧
    trace st2 = trace st ++
      (asked ≫= λ cam, calls_of b0 cam (file cam) (verdict_at cam)) ∧
    log st2 = log st ++
      (asked ≫= λ cam, lines_of (device_camera_name cam) (verdict_at cam)) ∧
    (∀ f, f ∈ fs st2 ↔
          f ∈ fs st ∨
          ∃ cam url, cam ∈ asked ∧ verdict_at cam = Saved url ∧ f = file cam).
Proof.
  intros selected file verdict_at asked. subst asked.
  revert st selected file verdict_at.
  induction cams as [|cam cams IH]; intros st selected file verdict_at.
  { exists st. cbn. rewrite !app_nil_r. split_and!; try done.
    intros f. split; [by left|]. intros [?|(cam & url & Hc & _)]; [done|].
    by apply elem_of_nil in Hc. }
  rewrite for_each_cons, (snapshot_camera_run now_str b0 bs cam st).
  cbn [attempted]. fold (file cam). fold (verdict_at cam). fold (selected cam).
  destruct (selected cam) eqn:Hsel.
  2:{ apply (IH st). }
  destruct (verdict_at cam) as [url|url| |url e] eqn:Hv.
  4:{ eexists. cbn [aborted]. rewrite Hv. split; [reflexivity|].
      cbn. rewrite ?Hv, ?app_nil_r. split_and!; try done.
      intros f. unfold fs. cbn. split; [by left|].
      intros [?|(c & u & Hc & Hu & _)]; [done|].
      apply list_elem_of_singleton in Hc as ->. congruence. }
  all: match goal with
       | |- context [for_each _ _ ?st1] =>
           destruct (IH st1) as (st2 & Hrun & Hs & Htr & Hlog & Hfs)
       end;
       cbn [self] in Hrun, Hs, Htr, Hlog, Hfs;
       exists st2; cbn [aborted]; rewrite Hv;
       (split; [exact Hrun|]); (split; [exact Hs|]);
       unfold trace, log, fs in *; cbn in Htr, Hlog, Hfs |- *;
       rewrite ?Hv, Htr, Hlog, <- ?app_assoc; (split; [reflexivity|]);
       (split; [reflexivity|]);
       intros f; rewrite Hfs; clear Hfs.
  - (* the URL is downloaded *)
    assert (Hnew : f ∈ (if bool_decide (file cam ∈ w_fs (wd st))
                        then w_fs (wd st) else w_fs (wd st) ++ [file cam])
                   ↔ f ∈ w_fs (wd st) ∨ f = file cam).
    { case_bool_decide as Hin.
      - split; [by left|]. intros [?| ->]; done.
      - rewrite elem_of_app, list_elem_of_singleton. done. }
    rewrite Hnew. split.
    + intros [[?| ->]|(c & u & Hc & Hu & ->)].
      * by left.
      * right. exists cam, url. split_and!; [left|done|done].
      * right. exists c, u. split_and!; [by right|done|done].
    + intros [?|(c & u & [->|Hc]%elem_of_cons & Hu & ->)].
      * left. by left.
      * left. by right.
      * right. by exists c, u.
  - split.
    + intros [?|(c & u & Hc & Hu & ->)]; [by left|].
      right. exists c, u. split_and!; [by right|done|done].
    + intros [?|(c & u & [->|Hc]%elem_of_cons & Hu & ->)]; [by left|congruence|].
      right. by exists c, u.
  - split.
    + intros [?|(c & u & Hc & Hu & ->)]; [by left|].
      right. exists c, u. split_and!; [by right|done|done].
    + intros [?|(c & u & [->|Hc]%elem_of_cons & Hu & ->)]; [by left|congruence|].
      right. by exists c, u.
Qed.

(** Up to the loop over the cameras. *)
Lemma get_snapshots_discovery now st bs cams :
  arlo_login E (username (self st)) (password (self st)) = Ret tt →
  arlo_devices E "basestation" = Ret bs →
  arlo_devices E "camera" = Ret cams →
  ∃ st1 head,
    get_snapshots E now st =
      try_except (for_each cams (snapshot_camera E (strftime now) bs))
                 (λ e, emit (EvPrint e)) st1 ∧
    trace st1 = trace st ++ [EvLogin (username (self st)) (password (self st));
                             EvGetDevices "basestation"; EvGetDevices "camera"] ∧
    log st1 = log st ++ head ∧
    fs st1 = fs st.
Proof.
  intros Hl Hb Hc.
  unfold get_snapshots, acquire, try_except. mrun. rewrite Hl, Hb, Hc. cbn.
  destruct (camera_names (self st)) as [|n ns] eqn:Hn; cbn;
    (eexists (mkState _ _), _; cbn; split; [reflexivity|]; split_and!;
     [ wsimpl; by rewrite <- !app_assoc
     | wsimpl; rewrite <- !app_assoc; reflexivity
     | reflexivity ]).
Qed.

(** C5.  [get_snapshots] always returns, and the run goes on with the
    purge and the assembly from the state it leaves; an exception raised
    inside the phase is printed at its top and nothing else is done.  Once
    the service has answered the login and the two device queries, the
    cameras asked are the selected ones in the order of discovery, those
    after a timeout or a null URL included, up to the first whose request
    or download raises something else: the calls to the service are
    theirs, followed by the print of that exception if there is one; a
    camera skipped for a timeout or a null URL leaves a warning and no
    file; the files added are those of the cameras whose URL was
    downloaded. *)
Theorem acquisition_failure_policy :
  (∀ now st, (get_snapshots E now st).1 = Ret tt) ∧
  (∀ now_get now_purge st,
     run E now_get now_purge st =
     (purge_snapshots now_purge ;; make_lapse E ;; LOGGER INFO "Script complete.")
       (get_snapshots E now_get st).2) ∧
  (∀ now st e st1,
     (LOGGER INFO "Getting snapshots..." ;; acquire E now) st = (Raise e, st1) →
     get_snapshots E now st =
     (Ret tt, mkState (self st1) (emit_w (EvPrint e) (wd st1)))) ∧
  (∀ now st b0 bs cams,
     arlo_login E (username (self st)) (password (self st)) = Ret tt →
     arlo_devices E "basestation" = Ret (b0 :: bs) →
     arlo_devices E "camera" = Ret cams →
     let st' := (get_snapshots E now st).2 in
     let selected cam :=
       bool_decide (device_camera_name cam ∈ camera_names (self st')) in
     let file cam :=
       snapshot_file (self st') (device_camera_name cam) (strftime now) in
     let verdict_at cam := verdict_of E b0 cam (file cam) in
     let asked := attempted selected verdict_at cams in
     trace st' =
       trace st ++
       [EvLogin (username (self st)) (password (self st));
        EvGetDevices "basestation"; EvGetDevices "camera"] ++
       (asked ≫= λ cam, calls_of b0 cam (file cam) (verdict_at cam)) ++
       printed verdict_at asked ∧
     (∃ head,
        log st' =
        log st ++ head ++
        (asked ≫= λ cam, lines_of (device_camera_name cam) (verdict_at cam))) ∧
     (∀ f, f ∈ fs st' ↔
           f ∈ fs st ∨
           ∃ cam url, cam ∈ asked ∧ verdict_at cam = Saved url ∧ f = file cam)).
Proof.
  split_and!.
  - apply get_snapshots_returns.
  - intros now_get now_purge st. unfold run. rewrite bind_run.
    pose proof (get_snapshots_returns E now_get st) as H.
    destruct (get_snapshots E now_get st) as [[[]|e] st1]; [reflexivity|].
    discriminate.
  - intros now st e st1. unfold get_snapshots, try_except. mrun.
    intros H. destruct (acquire E now _) as [[[]|e'] st2]; [discriminate|].
    by injection H as -> ->.
  - intros now st b0 bs cams Hl Hb Hc.
    destruct (get_snapshots_discovery now st (b0 :: bs) cams Hl Hb Hc)
      as (st1 & head & Hrun & Htr1 & Hlog1 & Hfs1).
    destruct (snapshot_loop_run (strftime now) b0 bs cams st1)
      as (st2 & Hloop & Hs & Htr & Hlog & Hfs).
    rewrite Hrun. unfold try_except, printed. rewrite Hloop.
    destruct (aborted _ _) as [e|] eqn:Hab; cbn [snd];
      unfold trace, log, fs, emit, on_world in *;
      cbn; autorewrite with world; rewrite Hs.
    + rewrite Hab, Htr, Htr1, Hlog, Hlog1, <- !app_assoc.
      split_and!; [reflexivity|by exists head|].
      intros f. rewrite Hfs, Hfs1. reflexivity.
    + rewrite Hab, Htr, Htr1, Hlog, Hlog1, <- !app_assoc, app_nil_r.
      split_and!; [reflexivity|by exists head|].
      intros f. rewrite Hfs, Hfs1. reflexivity.
Qed.

End Policy.

Lemma acquisition_failure_policy_witness :
  let st := Example.state_of [] 20 [] in
  let st' := (get_snapshots Example.service_of_five Example.noon st).2 in
  trace st' =
  [EvLogin "me" "secret"; EvGetDevices "basestation"; EvGetDevices "camera";
   EvTrigger Example.base Example.cam2;
   EvTrigger Example.base Example.porch;
   EvTrigger Example.base Example.front;
   EvDownload "https://arlo.example/snapshot.jpg"
     "./raw/Front_Door_20200601120000.jpg";
   EvTrigger Example.base Example.garage;
   EvPrint (LibraryError "no answer")] ∧
  (∀ f, f ∈ fs st' ↔
        f ∈ fs st ∨
        ∃ cam url,
          cam ∈ [Example.cam2; Example.porch; Example.front; Example.garage] ∧
          verdict_of Example.service_of_five Example.base cam
            (snapshot_file (self st') (device_camera_name cam)
               (strftime Example.noon)) = Saved url ∧
          f = snapshot_file (self st') (device_camera_name cam)
                (strftime Example.noon)).
Proof.
  intros st st'.
  destruct (acquisition_failure_policy Example.service_of_five)
    as (_ & _ & _ & H).
  destruct (H Example.noon st Example.base []
              [Example.cam2; Example.porch; Example.front; Example.garage;
               Example.yard] eq_refl eq_refl eq_refl) as (Htr & _ & Hfs).
  split; [exact Htr|exact Hfs].
Defined.

(** The five cameras of the example: two warnings, one file, and the
    exception of the fourth printed without a request to the fifth. *)
Example acquisition_of_five :
  get_snapshots Example.service_of_five Example.noon (Example.state_of [] 20 [])
  = (Ret tt,
     mkState
       (Example.settings ["Cam_2"; "Porch"; "Front_Door"; "Garage"; "Yard"] 20)
       (mkWorld
          ["./raw/Front_Door_20200601120000.jpg"]
          [(INFO, "Getting snapshots...");
           (DEBUG, "No camera names given, getting from Arlo");
           (DEBUG, "Final list of cameras: Cam_2, Porch, Front_Door, Garage, Yard");
           (DEBUG, "Getting snapshot for Cam_2");
           (WARNING, "Timeout Cam_2");
           (DEBUG, "Getting snapshot for Porch");
           (WARNING, "Returned None URL for Porch");
           (DEBUG, "Getting snapshot for Front_Door");
           (DEBUG, "Getting snapshot for Garage")]
          [EvLogin "me" "secret"; EvGetDevices "basestation";
           EvGetDevices "camera";
           EvTrigger Example.base Example.cam2;
           EvTrigger Example.base Example.porch;
           EvTrigger Example.base Example.front;
           EvDownload "https://arlo.example/snapshot.jpg"
             "./raw/Front_Door_20200601120000.jpg";
           EvTrigger Example.base Example.garage;
           EvPrint (LibraryError "no answer")])).
Proof. vm_compute. reflexivity. Qed.
